(** * A streaming lexical scanner: model and verification

    Shallow embedding of [scanner.ts] (the chunked input cursor and the token
    classifier) and of [helpers.ts] ([TokenError], [nextTokenIs]).

    - JavaScript strings are lists of UTF-16 code units ([text]).
    - The mutable [Scanner] object is threaded through a small state monad
      whose outcome is a normal return, a thrown exception, or exhaustion of
      the loop bound that makes the [while (true)] loops structurally
      recursive.
    - The [readonly] fields of the class are the [Rules] record (the
      classification predicates) and the [mode] mask. *)

From Stdlib Require Import String Ascii ZArith NArith List Bool Lia.
From Stdlib Require Import DecimalString.
Import ListNotations.

Set Implicit Arguments.

(* ================================================================== *)
(** * Characters and strings *)

Abbreviation char := N (only parsing).
Abbreviation text := (list N) (only parsing).

Definition code (a : ascii) : char := N_of_ascii a.
Definition lit (s : string) : text := map code (list_ascii_of_string s).

Definition ch_eqb (a : char) (b : ascii) : bool := N.eqb a (code b).
Definition ch_geb (a : char) (b : ascii) : bool := N.leb (code b) a.
Definition ch_leb (a : char) (b : ascii) : bool := N.leb a (code b).

Definition LF : ascii := "010"%char.
Definition TAB : ascii := "009"%char.
Definition CR : ascii := "013"%char.
Definition DQUOTE : ascii := "034"%char.
Definition BACKSLASH : ascii := "092"%char.

(** [`${n}`] for an integer [n]. *)
Definition show_Z (z : Z) : text := lit (NilZero.string_of_int (Z.to_int z)).

(** String concatenation with a possibly-[null] right operand:
    [s + null] is [s + "null"]. *)
Definition js_to_string (o : option char) : text :=
  match o with
  | Some c => [c]
  | None => lit "null"
  end.

(* ================================================================== *)
(** * 32-bit integer operators *)

Definition int32 (z : Z) : Z := ((z + 2 ^ 31) mod 2 ^ 32 - 2 ^ 31)%Z.

(** [a << n]: the shift count is taken modulo 32. *)
Definition js_shl (a n : Z) : Z := int32 (Z.shiftl (int32 a) (n mod 32)).
Definition js_and (a b : Z) : Z := Z.land (int32 a) (int32 b).
Definition js_or (a b : Z) : Z := Z.lor (int32 a) (int32 b).
Definition js_xor (a b : Z) : Z := Z.lxor (int32 a) (int32 b).

(** Truthiness of a number. *)
Definition truthy (z : Z) : bool := negb (Z.eqb z 0).

(* ================================================================== *)
(** * Tokens and the category mask *)

Inductive Token : Type :=
| eof | token | whitespace | identifier | keyword | int | float
| string_ | comment.

Definition Token_value (t : Token) : Z :=
  match t with
  | eof => -1
  | token => 0
  | whitespace => 1
  | identifier => 2
  | keyword => 3
  | int => 4
  | float => 5
  | string_ => 6
  | comment => 7
  end.

(** The reverse mapping [Token[t]] of the enum. *)
Definition Token_name (t : Token) : text :=
  match t with
  | eof => lit "eof"
  | token => lit "token"
  | whitespace => lit "whitespace"
  | identifier => lit "identifier"
  | keyword => lit "keyword"
  | int => lit "int"
  | float => lit "float"
  | string_ => lit "string"
  | comment => lit "comment"
  end.

Definition Token_eqb (a b : Token) : bool := Z.eqb (Token_value a) (Token_value b).

Definition scanWhitespace : Z := js_shl 1 (- Token_value whitespace).
Definition scanIdents : Z := js_shl 1 (- Token_value identifier).
Definition scanInts : Z := js_shl 1 (- Token_value int).
Definition scanFloats : Z := js_shl 1 (- Token_value float).
Definition scanStrings : Z := js_shl 1 (- Token_value string_).
Definition scanComments : Z := js_shl 1 (- Token_value comment).
Definition defaultTokens : Z := js_or (js_or scanIdents scanFloats) scanStrings.

(** [mode & bits] used as a condition. *)
Definition enabled (mode bits : Z) : bool := truthy (js_and mode bits).

(* ================================================================== *)
(** * Default classification predicates *)

Module Default.

Definition isWhitespace (ch : char) : bool :=
  ch_eqb ch " " || ch_eqb ch TAB || ch_eqb ch LF || ch_eqb ch CR.

Definition isIdent (ch : char) (i : nat) : bool :=
  (ch_geb ch "A" && ch_leb ch "Z") || (ch_geb ch "a" && ch_leb ch "z") ||
  (Nat.ltb 0 i && (ch_eqb ch "_" || (ch_geb ch "0" && ch_leb ch "9"))).

Definition isStringDelimiter (ch : char) : bool :=
  ch_eqb ch DQUOTE || ch_eqb ch "'" || ch_eqb ch "`".

Definition isDecimal (ch : char) : bool := ch_geb ch "0" && ch_leb ch "9".

Definition isSign (ch : char) : bool := ch_eqb ch "+" || ch_eqb ch "-".

Definition isHex (ch : char) (i : nat) : bool :=
  match i with
  | 0 => ch_eqb ch "0"
  | 1 => ch_eqb ch "x" || ch_eqb ch "X"
  | _ => (ch_geb ch "0" && ch_leb ch "9") || (ch_geb ch "A" && ch_leb ch "F") ||
         (ch_geb ch "a" && ch_leb ch "f")
  end.

Definition isOctal (ch : char) (i : nat) : bool :=
  match i with
  | 0 => ch_eqb ch "0"
  | 1 => ch_eqb ch "o" || ch_eqb ch "O"
  | _ => ch_geb ch "0" && ch_leb ch "8"
  end.

Definition isBinary (ch : char) (i : nat) : bool :=
  match i with
  | 0 => ch_eqb ch "0"
  | 1 => ch_eqb ch "b" || ch_eqb ch "B"
  | _ => ch_eqb ch "0" || ch_eqb ch "1"
  end.

Definition isENotation (ch : char) : bool := ch_eqb ch "E" || ch_eqb ch "e".

Definition isComment (ch : char) (i : nat) : bool :=
  match i with
  | 0 | 1 => ch_eqb ch "/"
  | _ => negb (ch_eqb ch LF)
  end.

Definition isBlockCommentOpen (ch : char) (i : nat) : bool :=
  match i with
  | 0 => ch_eqb ch "/"
  | 1 => ch_eqb ch "*"
  | _ => false
  end.

Definition isBlockCommentClose (ch : char) (i : nat) : bool :=
  match i with
  | 0 => ch_eqb ch "*"
  | 1 => ch_eqb ch "/"
  | _ => false
  end.

(** [token === null] never holds for a string. *)
Definition isKeyword (contents : text) : bool := false.

End Default.

(** The classification predicates a scanner holds ([readonly] fields). *)
Record Rules : Type := {
  isWhitespace : char -> bool;
  isIdent : char -> nat -> bool;
  isKeyword : text -> bool;
  isStringDelimiter : char -> bool;
  isDecimal : char -> bool;
  isSign : char -> bool;
  isHex : char -> nat -> bool;
  isOctal : char -> nat -> bool;
  isBinary : char -> nat -> bool;
  isENotation : char -> bool;
  isComment : char -> nat -> bool;
  isBlockCommentOpen : char -> nat -> bool;
  isBlockCommentClose : char -> nat -> bool
}.

Definition defaultRules : Rules := {|
  isWhitespace := Default.isWhitespace;
  isIdent := Default.isIdent;
  isKeyword := Default.isKeyword;
  isStringDelimiter := Default.isStringDelimiter;
  isDecimal := Default.isDecimal;
  isSign := Default.isSign;
  isHex := Default.isHex;
  isOctal := Default.isOctal;
  isBinary := Default.isBinary;
  isENotation := Default.isENotation;
  isComment := Default.isComment;
  isBlockCommentOpen := Default.isBlockCommentOpen;
  isBlockCommentClose := Default.isBlockCommentClose
|}.

(* ================================================================== *)
(** * The state-and-exception monad *)

Inductive Exn : Type :=
| Error (message : text)
| TokenError (message : text).

Inductive Outcome (A : Type) : Type :=
| Ret (a : A)
| Throw (e : Exn)
| Fuel.

Arguments Throw {A} e.
Arguments Fuel {A}.

Definition M (St A : Type) : Type := St -> St * Outcome A.

Definition ret {St A} (a : A) : M St A := fun s => (s, Ret a).
Definition throw {St A} (e : Exn) : M St A := fun s => (s, Throw e).
Definition out_of_fuel {St A} : M St A := fun s => (s, Fuel).
Definition modify {St} (f : St -> St) : M St unit := fun s => (f s, Ret tt).
Definition gets {St A} (f : St -> A) : M St A := fun s => (s, Ret (f s)).

Definition bind {St A B} (m : M St A) (k : A -> M St B) : M St B :=
  fun s =>
    match m s with
    | (s', Ret a) => k a s'
    | (s', Throw e) => (s', Throw e)
    | (s', Fuel) => (s', Fuel)
    end.

Declare Scope scan_scope.
Delimit Scope scan_scope with scan.
Notation "x <- m ;; k" := (bind m (fun x => k))
  (at level 61, m at next level, right associativity) : scan_scope.
Notation "m ;; k" := (bind m (fun _ => k))
  (at level 61, right associativity) : scan_scope.
Open Scope scan_scope.

(* ================================================================== *)
(** * The chunked input cursor *)

Definition MIN_READ : nat := 2.

(** What the scanner needs from its input: look at the next character, and
    step over the character just looked at ([#bufPos += 1]).  [unread] is the
    text still to be delivered; it is used to bound the loops and to state
    properties, never by the scanner's code. *)
Class Cursor (C : Type) : Type := {
  cpeek : C -> C * option char;
  cskip : C -> C;
  unread : C -> text
}.

(** The fields of [Scanner] that belong to the input side.  The reader is an
    in-memory reader (as [StringReader]): [reader] is the data it has not
    handed out yet, and a read fills the chunk buffer as far as the data
    goes; the decoder maps each byte to one code unit. *)
Record Input : Type := {
  reader : text;
  chunkBuffer : nat;
  buffer : text;
  bufPos : nat
}.

Definition set_buffer (b : text) (i : Input) : Input :=
  {| reader := reader i; chunkBuffer := chunkBuffer i; buffer := b; bufPos := bufPos i |}.
Definition set_bufPos (p : nat) (i : Input) : Input :=
  {| reader := reader i; chunkBuffer := chunkBuffer i; buffer := buffer i; bufPos := p |}.
Definition set_reader (r : text) (i : Input) : Input :=
  {| reader := r; chunkBuffer := chunkBuffer i; buffer := buffer i; bufPos := bufPos i |}.

(** [defaultRead]: [null] when the reader reports end of data or zero bytes,
    the decoded bytes otherwise. *)
Definition defaultRead (i : Input) : option text * Input :=
  match firstn (chunkBuffer i) (reader i) with
  | [] => (None, i)
  | chunk => (Some chunk, set_reader (skipn (chunkBuffer i) (reader i)) i)
  end.

(** [while (this.#buffer.length < MIN_READ) { ... }]; each chunk is
    non-empty, so [MIN_READ] iterations always reach the exit. *)
Fixpoint refill (fuel : nat) (i : Input) : Input :=
  match fuel with
  | 0 => i
  | S n =>
      if Nat.ltb (length (buffer i)) MIN_READ then
        match defaultRead i with
        | (None, i') => i'
        | (Some chunk, i') => refill n (set_buffer (buffer i' ++ chunk) i')
        end
      else i
  end.

Definition Input_peek (i : Input) : Input * option char :=
  let i' :=
    if Nat.leb (length (buffer i)) (bufPos i)
    then refill MIN_READ (set_buffer [] (set_bufPos 0 i))
    else i in
  (i', nth_error (buffer i') (bufPos i')).

Definition Input_skip (i : Input) : Input := set_bufPos (bufPos i + 1) i.

Definition Input_unread (i : Input) : text :=
  skipn (bufPos i) (buffer i) ++
  (if Nat.eqb (chunkBuffer i) 0 then [] else reader i).

#[export] Instance Input_Cursor : Cursor Input :=
  {| cpeek := Input_peek; cskip := Input_skip; unread := Input_unread |}.

(** The cursor used in proofs: the unread text itself. *)
#[export] Instance text_Cursor : Cursor text :=
  {| cpeek := fun l => (l, hd_error l); cskip := @tl char; unread := fun l => l |}.

(* ================================================================== *)
(** * The scanner *)

Record Scanner (C : Type) : Type := {
  cursor : C;
  line : Z;
  column : Z;
  contents : text;
  currentToken : option Token;
  startPos : Z * Z
}.

Section Setters.
Context {C : Type}.

Definition set_cursor {D} (c : D) (s : Scanner C) : Scanner D :=
    {| cursor := c; line := line s; column := column s; contents := contents s;
       currentToken := currentToken s; startPos := startPos s |}.
Definition set_line (l : Z) (s : Scanner C) : Scanner C :=
    {| cursor := cursor s; line := l; column := column s; contents := contents s;
       currentToken := currentToken s; startPos := startPos s |}.
Definition set_column (c : Z) (s : Scanner C) : Scanner C :=
    {| cursor := cursor s; line := line s; column := c; contents := contents s;
       currentToken := currentToken s; startPos := startPos s |}.
Definition set_contents (t : text) (s : Scanner C) : Scanner C :=
    {| cursor := cursor s; line := line s; column := column s; contents := t;
       currentToken := currentToken s; startPos := startPos s |}.
Definition set_currentToken (t : option Token) (s : Scanner C) : Scanner C :=
    {| cursor := cursor s; line := line s; column := column s; contents := contents s;
       currentToken := t; startPos := startPos s |}.
Definition set_startPos (p : Z * Z) (s : Scanner C) : Scanner C :=
    {| cursor := cursor s; line := line s; column := column s; contents := contents s;
       currentToken := currentToken s; startPos := p |}.

  (** [get endPos()] *)
Definition endPos (s : Scanner C) : Z * Z := (line s, column s).
End Setters.

(** Which base predicate the integer part has locked in. *)
Inductive BaseCheck : Type := CkHex | CkOctal | CkBinary | CkDecimal.

Section Classifier.
Context {C : Type} {CC : Cursor C}.
Variable R : Rules.
Variable mode : Z.

Local Abbreviation St := (Scanner C).

Definition peek : M St (option char) :=
    fun s => let (c, ch) := cpeek (cursor s) in (set_cursor c s, Ret ch).

Definition is_char (b : ascii) (ch : option char) : bool :=
    match ch with
    | Some c => ch_eqb c b
    | None => false
    end.

Definition next : M St (option char) :=
    ch <- peek ;;
    modify (fun s => set_cursor (cskip (cursor s)) s) ;;
    (if is_char LF ch
     then modify (fun s => set_column 0 (set_line (line s + 1) s))
     else modify (fun s => set_column (column s + 1) s)) ;;
    ret ch.

  (** [this.contents += await this.next()] *)
Definition append_next : M St unit :=
    ch <- next ;;
    modify (fun s => set_contents (contents s ++ js_to_string ch) s).

Definition mark_start : M St unit :=
    modify (fun s => set_startPos (line s, column s) s).

  (** [return this.currentToken = t] *)
Definition emit (t : Token) : M St (option Token) :=
    modify (set_currentToken (Some t)) ;; ret (Some t).

  (** [return this.scan()]: a tail call; the classifier hands [None] back to
      [scan], which then calls itself. *)
Definition rescan : M St (option Token) := ret None.

Fixpoint whitespace_loop (fuel : nat) : M St unit :=
    match fuel with
    | 0 => out_of_fuel
    | S n =>
        ch <- peek ;;
        match ch with
        | None => ret tt
        | Some c =>
            if negb (isWhitespace R c) then ret tt
            else append_next ;; whitespace_loop n
        end
    end.

Fixpoint ident_loop (fuel : nat) (i : nat) : M St unit :=
    match fuel with
    | 0 => out_of_fuel
    | S n =>
        ch <- peek ;;
        match ch with
        | None => ret tt
        | Some c =>
            if negb (isIdent R c i) then ret tt
            else append_next ;; ident_loop n (i + 1)
        end
    end.

Fixpoint string_loop (fuel : nat) (delim : char) : M St unit :=
    match fuel with
    | 0 => out_of_fuel
    | S n =>
        ch <- peek ;;
        match ch with
        | None => throw (Error (lit "literal not terminated"))
        | Some c =>
            if ch_eqb c LF then throw (Error (lit "literal not terminated"))
            else
              append_next ;;
              (if ch_eqb c BACKSLASH then
                 ch' <- peek ;;
                 match ch' with
                 | Some c' => if N.eqb c' delim then append_next else ret tt
                 | None => ret tt
                 end
               else ret tt) ;;
              if N.eqb c delim then ret tt else string_loop n delim
        end
    end.

Definition run_check (k : BaseCheck) (ch : char) (i : nat) : bool :=
    match k with
    | CkHex => isHex R ch i
    | CkOctal => isOctal R ch i
    | CkBinary => isBinary R ch i
    | CkDecimal => isDecimal R ch
    end.

Definition choose_check (ch : char) (i : nat) : option BaseCheck :=
    if isHex R ch i then Some CkHex
    else if isOctal R ch i then Some CkOctal
    else if isBinary R ch i then Some CkBinary
    else if isDecimal R ch then Some CkDecimal
    else None.

  (** The integer part: [for (; ch; i += 1) { ... }].  Returns the loop's
      [ch], [isFloat] and [i]. *)
Fixpoint int_loop (fuel : nat) (ch : option char) (check : option BaseCheck)
           (i : nat) : M St (option char * bool * nat) :=
    match fuel with
    | 0 => out_of_fuel
    | S n =>
        match ch with
        | None => ret (ch, false, i)
        | Some _ =>
            ch <- peek ;;
            match ch with
            | None => ret (ch, false, i)
            | Some c =>
                if ch_eqb c "." && enabled mode scanFloats then
                  append_next ;; ret (ch, true, i)
                else
                  let check :=
                    match check with
                    | None => choose_check c i
                    | Some _ => check
                    end in
                  match check with
                  | None => ret (ch, false, i)
                  | Some k =>
                      if negb (run_check k c i) then ret (ch, false, i)
                      else append_next ;; int_loop n ch check (i + 1)
                  end
            end
        end
    end.

  (** The fractional part: [for (; ch; i += 1) { ... }]. *)
Fixpoint fraction_loop (fuel : nat) (ch : option char) (i : nat)
    : M St (option char * nat) :=
    match fuel with
    | 0 => out_of_fuel
    | S n =>
        match ch with
        | None => ret (ch, i)
        | Some _ =>
            ch <- peek ;;
            match ch with
            | None => ret (ch, i)
            | Some c =>
                if negb (isDecimal R c) then ret (ch, i)
                else append_next ;; fraction_loop n ch (i + 1)
            end
        end
    end.

Fixpoint exponent_loop (fuel : nat) : M St unit :=
    match fuel with
    | 0 => out_of_fuel
    | S n =>
        ch <- peek ;;
        match ch with
        | None => ret tt
        | Some c =>
            if negb (isDecimal R c) then ret tt
            else append_next ;; exponent_loop n
        end
    end.

Definition is_sign_text (t : text) : bool :=
    match t with
    | [c] => isSign R c
    | _ => false
    end.

Definition number (fuel : nat) (ch : char) : M St (option Token) :=
    modify (set_contents [ch]) ;;
    let isFloat := ch_eqb ch "." in
    r <- (if negb isFloat
          then int_loop fuel (Some ch) None 1
          else ret (Some ch, isFloat, 1)) ;;
    let '(ch, isFloat, i) := r in
    (if isFloat then fraction_loop fuel ch i else ret (ch, i)) ;;
    ch <- peek ;;
    isFloat <-
      match ch with
      | Some c =>
          if isENotation R c && enabled mode scanFloats then
            append_next ;;
            ch <- peek ;;
            match ch with
            | Some c => if isSign R c then append_next else ret tt
            | None => ret tt
            end ;;
            exponent_loop fuel ;;
            ret true
          else ret isFloat
      | None => ret isFloat
      end ;;
    t <- gets (@contents C) ;;
    if Nat.eqb (length t) 1 && is_sign_text t then emit token
    else emit (if isFloat then float else int).

Fixpoint comment_loop (fuel : nat) (blockComment : bool) (i : nat) : M St unit :=
    match fuel with
    | 0 => out_of_fuel
    | S n =>
        ch <- peek ;;
        if negb blockComment &&
           match ch with
           | None => true
           | Some c => negb (isComment R c i)
           end
        then ret tt
        else
          append_next ;;
          if blockComment then
            match ch with
            | None => throw (Error (lit "comment not terminated"))
            | Some c =>
                pk <- peek ;;
                match pk with
                | Some p =>
                    if isBlockCommentClose R c 0 && isBlockCommentClose R p 1
                    then append_next
                    else comment_loop n blockComment (i + 1)
                | None => comment_loop n blockComment (i + 1)
                end
            end
          else comment_loop n blockComment (i + 1)
    end.

  (** The body of [scan()], up to the point where it returns a token
      ([Some t]) or calls itself ([None]). *)
Definition classify (fuel : nat) : M St (option Token) :=
    ch <- next ;;
    pk <- peek ;;
    mark_start ;;
    match ch with
    | None =>
        modify (set_contents []) ;;
        modify (fun s => set_column (column s - 1) s) ;;
        mark_start ;;
        emit eof
    | Some ch =>
        if isWhitespace R ch then
          modify (set_contents [ch]) ;;
          whitespace_loop fuel ;;
          if negb (enabled mode scanWhitespace) then rescan
          else emit whitespace
        else if isIdent R ch 0 then
          modify (set_contents [ch]) ;;
          ident_loop fuel 1 ;;
          if negb (enabled mode scanIdents) then rescan
          else
            t <- gets (@contents C) ;;
            emit (if isKeyword R t then keyword else identifier)
        else if isStringDelimiter R ch then
          modify (set_contents [ch]) ;;
          string_loop fuel ch ;;
          if negb (enabled mode scanStrings) then rescan
          else emit string_
        else if isDecimal R ch || isSign R ch ||
                (ch_eqb ch "." &&
                 match pk with Some p => isDecimal R p | None => false end)
        then
          if negb (enabled mode (js_or scanInts scanFloats)) then rescan
          else number fuel ch
        else if isComment R ch 0 || isBlockCommentOpen R ch 0 then
          modify (set_contents [ch]) ;;
          let blockComment :=
            match pk with
            | Some p => isBlockCommentOpen R ch 0 && isBlockCommentOpen R p 1
            | None => false
            end in
          comment_loop fuel blockComment 1 ;;
          if negb (enabled mode scanComments) then rescan
          else emit comment
        else
          modify (set_contents [ch]) ;;
          emit token
    end.

Fixpoint scan_fuel (fuel : nat) : M St Token :=
    match fuel with
    | 0 => out_of_fuel
    | S n =>
        r <- classify n ;;
        match r with
        | Some t => ret t
        | None => scan_fuel n
        end
    end.

  (** [scan()]: the bound is one more than the number of characters left,
      which is always enough (see [scan_fuel_enough]). *)
Definition scan : M St Token :=
    fun s => scan_fuel (S (length (unread (cursor s)))) s.

End Classifier.

(* ================================================================== *)
(** * Construction *)

(** The options of [ScannerInit] that are not predicates.  [init_chunkBuffer]
    is the byte length of a caller-supplied chunk buffer. *)
Record ScannerInit : Type := {
  init_minRead : option nat;
  init_chunkBuffer : option nat;
  init_rules : Rules;
  init_mode : option Z
}.

Definition defaultInit : ScannerInit :=
  {| init_minRead := None; init_chunkBuffer := None;
     init_rules := defaultRules; init_mode := None |}.

(** [init.chunkBuffer || new Uint8Array(init.minRead || 512)] *)
Definition new_chunkBuffer (init : ScannerInit) : nat :=
  match init_chunkBuffer init with
  | Some n => n
  | None =>
      match init_minRead init with
      | Some (S n) => S n
      | _ => 512
      end
  end.

(** [init.mode || defaultTokens] *)
Definition new_mode (init : ScannerInit) : Z :=
  match init_mode init with
  | Some m => if truthy m then m else defaultTokens
  | None => defaultTokens
  end.

(** The mutable part of [new Scanner(reader, init)]. *)
Definition new_Scanner (source : text) (init : ScannerInit) : Scanner Input :=
  {| cursor := {| reader := source; chunkBuffer := new_chunkBuffer init;
                  buffer := []; bufPos := 0 |};
     line := 1; column := 0; contents := []; currentToken := None;
     startPos := (0, 0)%Z |}.

(** [scanner.scan()] on a constructed scanner. *)
Definition Scanner_scan (init : ScannerInit) : M (Scanner Input) Token :=
  scan (init_rules init) (new_mode init).

(* ================================================================== *)
(** * The token stream *)

(** What a caller reads off the scanner after a [scan()]. *)
Record Lexeme : Type := {
  lx_token : Token;
  lx_contents : text;
  lx_start : Z * Z;
  lx_end : Z * Z
}.

Definition observe {C} (t : Token) (s : Scanner C) : Lexeme :=
  {| lx_token := t; lx_contents := contents s; lx_start := startPos s;
     lx_end := endPos s |}.

Inductive Ending : Type :=
| Finished
| Raised (e : Exn)
| Unfinished.

(** The async iterator: [scan()] until [eof] has been yielded. *)
Fixpoint iterate {C} {CC : Cursor C} (R : Rules) (mode : Z) (fuel : nat)
         (s : Scanner C) : list Lexeme * Ending :=
  match fuel with
  | 0 => ([], Unfinished)
  | S n =>
      match scan R mode s with
      | (s', Ret t) =>
          if Token_eqb t eof then ([observe t s'], Finished)
          else let (l, e) := iterate R mode n s' in (observe t s' :: l, e)
      | (_, Throw e) => ([], Raised e)
      | (_, Fuel) => ([], Unfinished)
      end
  end.

(** All the tokens of a scanner: at most one per character, and [eof]. *)
Definition tokens {C} {CC : Cursor C} (R : Rules) (mode : Z) (s : Scanner C)
  : list Lexeme * Ending :=
  iterate R mode (S (length (unread (cursor s)))) s.

(* ================================================================== *)
(** * helpers.ts *)

Definition longPosition {C} (s : Scanner C) : text :=
  lit "line " ++ show_Z (fst (startPos s)) ++ lit ", column " ++
  show_Z (snd (startPos s)).

(** [new TokenError(scanner, actualToken, expectedToken, expectedContents)]:
    the message it builds. *)
Definition TokenError_message {C} (s : Scanner C) (actualToken : Token)
           (expectedToken : option Token) (expectedContents : option text) : text :=
  let message := lit "unexpected " ++ Token_name actualToken in
  let contents :=
    match contents s with
    | [] => []
    | c => lit " (" ++ c ++ lit ")"
    end in
  let expected :=
    match expectedToken with
    | Some t =>
        if truthy (Token_value t) then
          lit "; expected " ++ Token_name t ++
          match expectedContents with
          | Some e => lit " " ++ e
          | None => []
          end
        else []
    | None => []
    end in
  message ++ contents ++ lit " on " ++ longPosition s ++ expected.

Definition text_eqb (a b : text) : bool :=
  if list_eq_dec N.eq_dec a b then true else false.

Definition nextTokenIs {C} {CC : Cursor C} (R : Rules) (mode : Z)
           (expectedToken : Token) (expectedContents : option text)
  : M (Scanner C) text :=
  actualToken <- scan R mode ;;
  c <- gets (@contents C) ;;
  let sameContents :=
    match expectedContents with
    | Some e => text_eqb e c
    | None => true
    end in
  let sameTokens := Token_eqb actualToken expectedToken in
  if negb sameTokens || negb sameContents then
    s <- gets (fun s => s) ;;
    throw (TokenError (TokenError_message s actualToken (Some expectedToken)
                                          expectedContents))
  else ret c.

(* ================================================================== *)
(** * Laws of the chunked input cursor *)

Lemma defaultRead_zero (i : Input) :
  chunkBuffer i = 0 -> defaultRead i = (None, i).
Proof. intros H. unfold defaultRead. rewrite H. reflexivity. Qed.

Lemma refill_zero (n : nat) (i : Input) :
  chunkBuffer i = 0 -> refill n i = i.
Proof.
  intros H. destruct n as [|n]; simpl; [reflexivity|].
  rewrite (defaultRead_zero i H). destruct (Nat.ltb _ _); reflexivity.
Qed.

(** A refill moves characters from the reader to the buffer, in order, and
    leaves the buffer empty only when the reader is exhausted. *)
Lemma refill_inv (n : nat) :
  forall i, chunkBuffer i <> 0 ->
    buffer (refill n i) ++ reader (refill n i) = buffer i ++ reader i /\
    chunkBuffer (refill n i) = chunkBuffer i /\
    bufPos (refill n i) = bufPos i /\
    (buffer i <> [] -> buffer (refill n i) <> []) /\
    (n <> 0 -> buffer (refill n i) = [] -> reader (refill n i) = []).
Proof.
  induction n as [|n IH]; intros i Hc; simpl.
  - repeat split; auto. intros H; contradiction.
  - destruct (Nat.ltb_spec (length (buffer i)) MIN_READ) as [Hl|Hl].
    + unfold defaultRead.
      destruct (firstn (chunkBuffer i) (reader i)) as [|c chunk] eqn:E.
      * repeat split; auto. intros _ _.
        destruct (reader i) as [|r rs]; [reflexivity|].
        destruct (chunkBuffer i); [contradiction | discriminate].
      * cbn [buffer set_reader].
        match goal with |- context [refill n ?j] => specialize (IH j Hc) end.
        cbn [buffer reader chunkBuffer bufPos set_buffer set_reader] in IH.
        destruct IH as (H1 & H2 & H3 & H4 & H5).
        repeat split; auto.
        -- rewrite H1, <- app_assoc, <- E, firstn_skipn. reflexivity.
        -- intros _. apply H4. destruct (buffer i); discriminate.
        -- intros _ H. exfalso. revert H. apply H4. destruct (buffer i); discriminate.
    + repeat split; auto. intros _ H. rewrite H in Hl.
      unfold MIN_READ in Hl. simpl in Hl. lia.
Qed.

Lemma refill_inv_full (n : nat) (i : Input) :
  chunkBuffer i <> 0 -> n <> 0 -> MIN_READ <= length (buffer i) ->
  refill n i = i.
Proof.
  intros _ Hn Hl. destruct n; [contradiction|]. simpl.
  destruct (Nat.ltb_spec (length (buffer i)) MIN_READ); [lia | reflexivity].
Qed.

Lemma hd_error_app_nth {A} (b r : list A) (p : nat) :
  p < length b -> nth_error b p = hd_error (skipn p b ++ r).
Proof.
  revert p. induction b as [|x b IH]; intros p H; simpl in H; [lia|].
  destruct p; simpl; [reflexivity|]. apply IH. lia.
Qed.

Lemma tl_skipn_app {A} (b r : list A) (p : nat) :
  p < length b -> skipn (p + 1) b ++ r = tl (skipn p b ++ r).
Proof.
  revert p. induction b as [|x b IH]; intros p H; simpl in H; [lia|].
  destruct p; [reflexivity|]. apply IH. lia.
Qed.

Lemma Input_peek_char (i : Input) :
  snd (Input_peek i) = hd_error (Input_unread i).
Proof.
  unfold Input_peek, Input_unread. cbn [snd].
  destruct (Nat.leb_spec (length (buffer i)) (bufPos i)) as [H|H].
  - rewrite (skipn_all2 _ H). cbn [app].
    destruct (Nat.eqb_spec (chunkBuffer i) 0) as [Hz|Hz].
    + rewrite refill_zero by exact Hz. reflexivity.
    + match goal with |- context [refill _ ?j] =>
        destruct (refill_inv MIN_READ j Hz) as (H1 & _ & H3 & _ & H5) end.
      cbn [buffer reader chunkBuffer bufPos set_buffer set_bufPos app] in *.
      rewrite H3, <- H1.
      match goal with |- context [buffer ?j] => destruct (buffer j) eqn:E end.
      * rewrite H5; [reflexivity | discriminate | reflexivity].
      * reflexivity.
  - apply hd_error_app_nth. exact H.
Qed.

Lemma Input_peek_unread (i : Input) :
  Input_unread (fst (Input_peek i)) = Input_unread i.
Proof.
  unfold Input_peek, Input_unread. cbn [fst].
  destruct (Nat.leb_spec (length (buffer i)) (bufPos i)) as [H|H]; [|reflexivity].
  rewrite (skipn_all2 _ H). cbn [app].
  destruct (Nat.eqb_spec (chunkBuffer i) 0) as [Hz|Hz].
  - rewrite refill_zero by exact Hz. cbn. rewrite Hz. reflexivity.
  - match goal with |- context [refill _ ?j] =>
      destruct (refill_inv MIN_READ j Hz) as (H1 & H2 & H3 & _ & _) end.
    cbn [buffer reader chunkBuffer bufPos set_buffer set_bufPos app] in *.
    rewrite H3, H2. cbn [skipn].
    destruct (Nat.eqb_spec (chunkBuffer i) 0); [contradiction | exact H1].
Qed.

Lemma Input_skip_unread (i : Input) :
  Input_unread (Input_skip (fst (Input_peek i))) = tl (Input_unread i).
Proof.
  rewrite <- (Input_peek_unread i).
  pose proof (Input_peek_char i) as Hc. rewrite <- (Input_peek_unread i) in Hc.
  unfold Input_peek in *. cbn [fst snd] in *.
  set (j := if Nat.leb (length (buffer i)) (bufPos i) then _ else i) in *.
  unfold Input_unread, Input_skip in *.
  cbn [buffer reader chunkBuffer bufPos set_bufPos].
  destruct (Nat.ltb_spec (bufPos j) (length (buffer j))) as [H|H].
  - apply tl_skipn_app. exact H.
  - rewrite (skipn_all2 (buffer j)) by lia.
    rewrite (skipn_all2 (buffer j)) in * by lia.
    rewrite (proj2 (nth_error_None _ _) H) in Hc. cbn [app] in *.
    destruct (if Nat.eqb (chunkBuffer j) 0 then [] else reader j);
      [reflexivity | discriminate].
Qed.

(* ================================================================== *)
(** * Simulation between two cursors

    The classifier touches its input only through [peek] and [next], so a
    map between cursors that respects them carries a whole run across.  The
    map may also replace the incoming [currentToken], which the classifier
    never reads. *)

Section Simulation.
Context {C1 C2 : Type} {K1 : Cursor C1} {K2 : Cursor C2}.
Variable f : C1 -> C2.
Variable g : option Token -> option Token.
Hypothesis f_peek : forall c, cpeek (f c) = (f (fst (cpeek c)), snd (cpeek c)).
Hypothesis f_skip : forall c, cskip (f (fst (cpeek c))) = f (cskip (fst (cpeek c))).
Hypothesis f_unread : forall c, unread (f c) = unread c.

Definition carry (h : option Token -> option Token) (s : Scanner C1) : Scanner C2 :=
    {| cursor := f (cursor s); line := line s; column := column s;
       contents := contents s; currentToken := h (currentToken s);
       startPos := startPos s |}.

  (** Before a token is committed the incoming [currentToken] is mapped by
      [g]; a committed token is the same on both sides. *)
Definition lift {A} (r : Scanner C1 * Outcome A) : Scanner C2 * Outcome A :=
    (carry g (fst r), snd r).

Definition lift_classify (r : Scanner C1 * Outcome (option Token))
    : Scanner C2 * Outcome (option Token) :=
    (match snd r with
     | Ret (Some _) => carry (fun t => t) (fst r)
     | _ => carry g (fst r)
     end, snd r).

Definition lift_scan (r : Scanner C1 * Outcome Token) : Scanner C2 * Outcome Token :=
    (match snd r with
     | Ret _ => carry (fun t => t) (fst r)
     | _ => carry g (fst r)
     end, snd r).

Definition Commutes {A} (m1 : M (Scanner C1) A) (m2 : M (Scanner C2) A) : Prop :=
    forall s, m2 (carry g s) = lift (m1 s).

Definition Commutes_classify (m1 : M (Scanner C1) (option Token))
             (m2 : M (Scanner C2) (option Token)) : Prop :=
    forall s, m2 (carry g s) = lift_classify (m1 s).

Lemma Commutes_ret {A} (a : A) : Commutes (ret a) (ret a).
Proof. intros s. reflexivity. Qed.

Lemma Commutes_throw {A} (e : Exn) : Commutes (@throw _ A e) (throw e).
Proof. intros s. reflexivity. Qed.

Lemma Commutes_fuel {A} : Commutes (@out_of_fuel _ A) out_of_fuel.
Proof. intros s. reflexivity. Qed.

Lemma Commutes_bind {A B} (m1 : M _ A) m2 (k1 : A -> M _ B) k2 :
    Commutes m1 m2 -> (forall x, Commutes (k1 x) (k2 x)) ->
    Commutes (bind m1 k1) (bind m2 k2).
Proof.
    intros Hm Hk s. unfold bind. rewrite Hm. unfold lift.
    destruct (m1 s) as [s' [x|e|]]; cbn [fst snd]; try reflexivity.
    apply Hk.
Qed.

Lemma Commutes_peek : Commutes peek peek.
Proof.
    intros s. unfold peek, lift. cbn [cursor carry]. rewrite f_peek.
    destruct (cpeek (cursor s)); reflexivity.
Qed.

Lemma Commutes_next : Commutes next next.
Proof.
    intros s. unfold next, bind, modify, ret, peek, lift.
    cbn [cursor carry]. rewrite f_peek.
    pose proof (f_skip (cursor s)) as Hs.
    destruct (cpeek (cursor s)) as [c ch]. cbn [fst snd] in *.
    destruct (is_char LF ch); cbn; rewrite Hs; reflexivity.
Qed.

Lemma Commutes_append_next : Commutes append_next append_next.
Proof.
    unfold append_next. apply Commutes_bind; [apply Commutes_next|].
    intros ch s. reflexivity.
Qed.

Lemma Commutes_mark_start : Commutes mark_start mark_start.
Proof. intros s. reflexivity. Qed.

Lemma Commutes_set_contents (t : text) :
    Commutes (modify (set_contents t)) (modify (set_contents t)).
Proof. intros s. reflexivity. Qed.

Lemma Commutes_gets_contents : Commutes (gets (@contents C1)) (gets (@contents C2)).
Proof. intros s. reflexivity. Qed.

Lemma Commutes_column :
    Commutes (modify (fun s => set_column (column s - 1) s))
             (modify (fun s => set_column (column s - 1) s)).
Proof. intros s. reflexivity. Qed.

Ltac commute IH :=
    repeat first
      [ apply Commutes_ret | apply Commutes_throw | apply Commutes_fuel
      | apply Commutes_peek | apply Commutes_append_next | apply Commutes_next
      | apply Commutes_mark_start | apply Commutes_set_contents
      | apply Commutes_gets_contents | apply Commutes_column
      | apply IH
      | apply Commutes_bind; [|intros ?]
      | match goal with
        | |- Commutes (match ?x with _ => _ end) _ => destruct x
        end ].

Variable R : Rules.
Variable mode : Z.

Lemma Commutes_whitespace_loop n :
    Commutes (whitespace_loop R n) (whitespace_loop R n).
Proof. induction n as [|n IH]; cbn [whitespace_loop]; commute IH. Qed.

Lemma Commutes_ident_loop n : forall i,
    Commutes (ident_loop R n i) (ident_loop R n i).
Proof. induction n as [|n IH]; intros i; cbn [ident_loop]; commute IH. Qed.

Lemma Commutes_string_loop n : forall d,
    Commutes (string_loop n d) (string_loop n d).
Proof. induction n as [|n IH]; intros d; cbn [string_loop]; commute IH. Qed.

Lemma Commutes_int_loop n : forall ch check i,
    Commutes (int_loop R mode n ch check i) (int_loop R mode n ch check i).
Proof.
    induction n as [|n IH]; intros ch check i; cbn [int_loop]; commute IH.
Qed.

Lemma Commutes_fraction_loop n : forall ch i,
    Commutes (fraction_loop R n ch i) (fraction_loop R n ch i).
Proof. induction n as [|n IH]; intros ch i; cbn [fraction_loop]; commute IH. Qed.

Lemma Commutes_exponent_loop n :
    Commutes (exponent_loop R n) (exponent_loop R n).
Proof. induction n as [|n IH]; cbn [exponent_loop]; commute IH. Qed.

Lemma Commutes_comment_loop n : forall b i,
    Commutes (comment_loop R n b i) (comment_loop R n b i).
Proof. induction n as [|n IH]; intros b i; cbn [comment_loop]; commute IH. Qed.

Lemma Commutes_classify_bind {A} (m1 : M _ A) m2 k1 k2 :
    Commutes m1 m2 -> (forall x, Commutes_classify (k1 x) (k2 x)) ->
    Commutes_classify (bind m1 k1) (bind m2 k2).
Proof.
    intros Hm Hk s. unfold bind. rewrite Hm. unfold lift.
    destruct (m1 s) as [s' [x|e|]]; cbn [fst snd]; try reflexivity.
    apply Hk.
Qed.

Lemma Commutes_emit t : Commutes_classify (emit t) (emit t).
Proof. intros s. reflexivity. Qed.

Lemma Commutes_rescan : Commutes_classify rescan rescan.
Proof. intros s. reflexivity. Qed.

Ltac commute_classify :=
    repeat first
      [ apply Commutes_emit | apply Commutes_rescan
      | apply Commutes_classify_bind;
        [ commute Commutes_ret;
          first [ apply Commutes_whitespace_loop | apply Commutes_ident_loop
                | apply Commutes_string_loop | apply Commutes_int_loop
                | apply Commutes_fraction_loop | apply Commutes_exponent_loop
                | apply Commutes_comment_loop ]
        | intros ? ]
      | match goal with
        | |- Commutes_classify (match ?x with _ => _ end) _ => destruct x
        end ].

Lemma Commutes_number n ch :
    Commutes_classify (number R mode n ch) (number R mode n ch).
Proof. unfold number. commute_classify. Qed.

Lemma Commutes_classify_classify n :
    Commutes_classify (classify R mode n) (classify R mode n).
Proof.
    unfold classify. commute_classify; try apply Commutes_number.
Qed.

Lemma scan_fuel_carry n : forall s,
    scan_fuel R mode n (carry g s) = lift_scan (scan_fuel R mode n s).
Proof.
    induction n as [|n IH]; intros s; [reflexivity|].
    cbn [scan_fuel]. unfold bind.
    rewrite Commutes_classify_classify. unfold lift_classify.
    destruct (classify R mode n s) as [s' [[t|]|e|]]; cbn [fst snd];
      try reflexivity.
    apply IH.
Qed.

Lemma scan_carry (s : Scanner C1) :
    scan R mode (carry g s) = lift_scan (scan R mode s).
Proof.
    unfold scan. cbn [cursor carry]. rewrite f_unread. apply scan_fuel_carry.
Qed.

End Simulation.

(* ================================================================== *)
(** * Positions *)

(** The effect of one consumed character on (line, column). *)
Definition advance (p : Z * Z) (c : char) : Z * Z :=
  if ch_eqb c LF then (fst p + 1, 0)%Z else (fst p, snd p + 1)%Z.

Definition walk (w : text) (p : Z * Z) : Z * Z := fold_left advance w p.

(** Lexicographic order on positions. *)
Definition pos_le (p q : Z * Z) : Prop :=
  (fst p < fst q)%Z \/ (fst p = fst q /\ (snd p <= snd q)%Z).

Lemma pos_le_refl p : pos_le p p.
Proof. right. split; [reflexivity | lia]. Qed.

Lemma pos_le_trans p q r : pos_le p q -> pos_le q r -> pos_le p r.
Proof. unfold pos_le. intros [H|[H H']] [K|[K K']]; [left|left|left|right]; lia. Qed.

Lemma pos_le_advance p c : pos_le p (advance p c).
Proof.
  unfold advance, pos_le. destruct (ch_eqb c LF); cbn [fst snd]; [left|right]; lia.
Qed.

Lemma pos_le_walk w : forall p, pos_le p (walk w p).
Proof.
  induction w as [|c w IH]; intros p; cbn; [apply pos_le_refl|].
  eapply pos_le_trans; [apply pos_le_advance | apply IH].
Qed.

Lemma walk_app w1 w2 p : walk (w1 ++ w2) p = walk w2 (walk w1 p).
Proof. apply fold_left_app. Qed.

(* ================================================================== *)
(** * Reasoning about runs over the unread text *)

Lemma bind_Ret {St A B} (m : M St A) (k : A -> M St B) s s' x :
  m s = (s', Ret x) -> bind m k s = k x s'.
Proof. intros H. unfold bind. rewrite H. reflexivity. Qed.

Lemma bind_Throw {St A B} (m : M St A) (k : A -> M St B) s s' e :
  m s = (s', Throw e) -> bind m k s = (s', Throw e).
Proof. intros H. unfold bind. rewrite H. reflexivity. Qed.

(** Postconditions for a normal return and for a throw; running out of the
    loop bound is excluded. *)
Definition wp {St A} (m : M St A) (Q : A -> St -> Prop) (E : Exn -> St -> Prop)
           (s : St) : Prop :=
  match m s with
  | (s', Ret x) => Q x s'
  | (s', Throw e) => E e s'
  | (_, Fuel) => False
  end.

Lemma wp_ret {St A} (x : A) (Q : A -> St -> Prop) E s : Q x s -> wp (ret x) Q E s.
Proof. intros H. exact H. Qed.

Lemma wp_throw {St A} e (Q : A -> St -> Prop) (E : Exn -> St -> Prop) s :
  E e s -> wp (throw e) Q E s.
Proof. intros H. exact H. Qed.

Lemma wp_modify {St} (f : St -> St) (Q : unit -> St -> Prop) E s :
  Q tt (f s) -> wp (modify f) Q E s.
Proof. intros H. exact H. Qed.

Lemma wp_gets {St A} (f : St -> A) (Q : A -> St -> Prop) E s :
  Q (f s) s -> wp (gets f) Q E s.
Proof. intros H. exact H. Qed.

Lemma wp_bind {St A B} (m : M St A) (k : A -> M St B) Q E s :
  wp m (fun x s' => wp (k x) Q E s') E s -> wp (bind m k) Q E s.
Proof.
  unfold wp, bind. destruct (m s) as [s' [x|e|]]; auto.
Qed.

Lemma wp_conseq {St A} (m : M St A) (Q Q' : A -> St -> Prop) (E E' : Exn -> St -> Prop) s :
  wp m Q E s -> (forall x s', Q x s' -> Q' x s') -> (forall e s', E e s' -> E' e s') ->
  wp m Q' E' s.
Proof.
  unfold wp. destruct (m s) as [s' [x|e|]]; auto.
Qed.

Section TextRuns.
Local Abbreviation A := (Scanner text).

  (** [a'] is [a] after the characters [w] have been consumed and appended
      to [contents]. *)
Record Ate (a : A) (w : text) (a' : A) : Prop := {
    ate_cursor : cursor a = w ++ cursor a';
    ate_pos : endPos a' = walk w (endPos a);
    ate_contents : contents a' = contents a ++ w;
    ate_token : currentToken a' = currentToken a;
    ate_start : startPos a' = startPos a
  }.

Lemma Ate_nil a : Ate a [] a.
Proof. split; cbn; auto. rewrite app_nil_r. reflexivity. Qed.

Lemma Ate_trans a w1 a1 w2 a2 :
    Ate a w1 a1 -> Ate a1 w2 a2 -> Ate a (w1 ++ w2) a2.
Proof.
    intros [H1 H2 H3 H4 H5] [K1 K2 K3 K4 K5]. split.
    - rewrite H1, K1, app_assoc. reflexivity.
    - rewrite K2, H2, walk_app. reflexivity.
    - rewrite K3, H3, app_assoc. reflexivity.
    - congruence.
    - congruence.
Qed.

Lemma Ate_length a w a' : Ate a w a' -> length (cursor a) = length w + length (cursor a').
Proof. intros [H _ _ _ _]. rewrite H, length_app. reflexivity. Qed.

Lemma Ate_pos_le a w a' : Ate a w a' -> pos_le (endPos a) (endPos a').
Proof. intros [_ H _ _ _]. rewrite H. apply pos_le_walk. Qed.

Lemma peek_text (a : A) : peek a = (a, Ret (hd_error (cursor a))).
Proof. destruct a. reflexivity. Qed.

Lemma wp_peek (Q : option char -> A -> Prop) E a :
    Q (hd_error (cursor a)) a -> wp peek Q E a.
Proof. intros H. unfold wp. rewrite peek_text. exact H. Qed.

  (** One character consumed by [next]. *)
Record Stepped (a : A) (c : char) (a' : A) : Prop := {
    st_cursor : cursor a = c :: cursor a';
    st_pos : endPos a' = advance (endPos a) c;
    st_contents : contents a' = contents a;
    st_token : currentToken a' = currentToken a;
    st_start : startPos a' = startPos a
  }.

Lemma wp_next_cons (Q : option char -> A -> Prop) E a c l :
    cursor a = c :: l ->
    (forall a', Stepped a c a' -> Q (Some c) a') ->
    wp next Q E a.
Proof.
    intros Hc HQ. destruct a as [cur ln col cont ct sp]. cbn in Hc. subst cur.
    unfold wp, next, bind, modify, ret, peek. cbn.
    destruct (ch_eqb c LF) eqn:Hnl; cbn; apply HQ; split; cbn;
      unfold advance; cbn; try rewrite Hnl; reflexivity.
Qed.

Lemma wp_next_nil (Q : option char -> A -> Prop) E a :
    cursor a = [] ->
    Q None (set_column (column a + 1) a) ->
    wp next Q E a.
Proof.
    intros Hc HQ. destruct a as [cur ln col cont ct sp]. cbn in Hc. subst cur.
    exact HQ.
Qed.

Lemma wp_append_next_cons (Q : unit -> A -> Prop) E a c l :
    cursor a = c :: l ->
    (forall a', Ate a [c] a' -> Q tt a') ->
    wp append_next Q E a.
Proof.
    intros Hc HQ. unfold append_next. apply wp_bind.
    eapply wp_next_cons; [exact Hc|]. intros a' [H1 H2 H3 H4 H5].
    apply wp_modify. apply HQ. split; cbn; auto.
    rewrite H3. reflexivity.
Qed.

Definition literal_error : Exn := Error (lit "literal not terminated").
Definition comment_error : Exn := Error (lit "comment not terminated").

  (** What a throw leaves behind: one of the two lexical errors, and a
      position that has not moved backwards. *)
Definition Lexical (a : A) (e : Exn) (a' : A) : Prop :=
    (e = literal_error \/ e = comment_error) /\
    pos_le (endPos a) (endPos a').

Lemma Lexical_Ate a w a1 e a' : Ate a w a1 -> Lexical a1 e a' -> Lexical a e a'.
Proof.
    intros H [He Hp]. split; [exact He|].
    eapply pos_le_trans; [eapply Ate_pos_le; exact H | exact Hp].
Qed.

  (** A computation that only consumes characters into [contents]. *)
Definition Eats {X} (m : M A X) (a : A) : Prop :=
    wp m (fun _ a' => exists w, Ate a w a') (Lexical a) a.

Lemma Eats_ret {X} (x : X) a : Eats (ret x) a.
Proof. apply wp_ret. exists []. apply Ate_nil. Qed.

Lemma Eats_peek_bind {X} (k : option char -> M A X) a :
    Eats (k (hd_error (cursor a))) a -> Eats (bind peek k) a.
Proof. intros H. apply wp_bind, wp_peek. exact H. Qed.

Lemma Eats_bind {X Y} (m : M A X) (k : X -> M A Y) a :
    Eats m a -> (forall x a1 w, Ate a w a1 -> Eats (k x) a1) -> Eats (bind m k) a.
Proof.
    intros Hm Hk. apply wp_bind. eapply wp_conseq; [exact Hm | | auto].
    intros x a1 [w Hw]. eapply wp_conseq; [apply (Hk x a1 w Hw) | |].
    - intros y a2 [w' Hw']. exists (w ++ w'). eapply Ate_trans; eauto.
    - intros e a2 He. eapply Lexical_Ate; eauto.
Qed.

Lemma Eats_append_next a c l : cursor a = c :: l -> Eats append_next a.
Proof.
    intros Hc. eapply wp_append_next_cons; [exact Hc|].
    intros a' H. exists [c]. exact H.
Qed.

Lemma Eats_throw_literal {X} a : Eats (@throw _ X literal_error) a.
Proof. apply wp_throw. split; [left; reflexivity | apply pos_le_refl]. Qed.

  (** A block comment that runs into the end of the text: [next()] is
      called once more, then the error is thrown. *)
Lemma Eats_append_throw_nil {X} a :
    cursor a = [] -> Eats (append_next ;; @throw _ X comment_error) a.
Proof.
    intros Hc. destruct a as [cur ln col cont ct sp]. cbn in Hc. subst cur.
    unfold Eats, wp. cbn. split; [right; reflexivity|].
    right. cbn. split; [reflexivity | lia].
Qed.

Lemma Ate_shorter a w a1 n :
    Ate a (w : text) a1 -> length (cursor a) < S n -> w <> [] -> length (cursor a1) < n.
Proof.
    intros H Hn Hw. apply Ate_length in H. destruct w; [contradiction|].
    cbn in H. lia.
Qed.

Lemma Ate_not_longer a w a1 n :
    Ate a (w : text) a1 -> length (cursor a) < n -> length (cursor a1) < n.
Proof. intros H Hn. apply Ate_length in H. lia. Qed.

Section Loops.
Variable R : Rules.
Variable mode : Z.

Lemma Eats_after {X} (k : M A X) a c l :
      cursor a = c :: l ->
      (forall a1, Ate a [c] a1 -> Eats k a1) ->
      Eats (append_next ;; k) a.
Proof.
      intros Hc Hk. apply wp_bind.
      eapply wp_append_next_cons; [exact Hc|]. intros a1 H1.
      eapply wp_conseq; [apply Hk; exact H1 | |].
      - intros x a2 [w Hw]. exists ([c] ++ w). eapply Ate_trans; eauto.
      - intros e a2 He. eapply Lexical_Ate; eauto.
Qed.

    (** Consume one character and go round the loop again. *)
Lemma Eats_again {X} (loop : M A X) a c l n :
      cursor a = c :: l -> length (cursor a) < S n ->
      (forall a1, length (cursor a1) < n -> Eats loop a1) ->
      Eats (append_next ;; loop) a.
Proof.
      intros Hc Hn IH. eapply Eats_after; [exact Hc|]. intros a1 H1.
      apply IH. eapply Ate_shorter; [exact H1 | exact Hn | discriminate].
Qed.

Ltac again n IH Hc Hn :=
      eapply (@Eats_again _ _ _ _ _ n);
      [ exact Hc | rewrite Hc; exact Hn | intros; apply IH; assumption ].

Lemma whitespace_loop_Eats n : forall a,
      length (cursor a) < n -> Eats (whitespace_loop R n) a.
Proof.
      induction n as [|n IH]; intros a Hn; [lia|].
      cbn [whitespace_loop]. apply Eats_peek_bind.
      destruct (cursor a) as [|c l] eqn:Hc; cbn [hd_error]; [apply Eats_ret|].
      destruct (isWhitespace R c); cbn [negb]; [|apply Eats_ret].
      again n IH Hc Hn.
Qed.

Lemma ident_loop_Eats n : forall i a,
      length (cursor a) < n -> Eats (ident_loop R n i) a.
Proof.
      induction n as [|n IH]; intros i a Hn; [lia|].
      cbn [ident_loop]. apply Eats_peek_bind.
      destruct (cursor a) as [|c l] eqn:Hc; cbn [hd_error]; [apply Eats_ret|].
      destruct (isIdent R c i); cbn [negb]; [|apply Eats_ret].
      again n IH Hc Hn.
Qed.

Lemma exponent_loop_Eats n : forall a,
      length (cursor a) < n -> Eats (exponent_loop R n) a.
Proof.
      induction n as [|n IH]; intros a Hn; [lia|].
      cbn [exponent_loop]. apply Eats_peek_bind.
      destruct (cursor a) as [|c l] eqn:Hc; cbn [hd_error]; [apply Eats_ret|].
      destruct (isDecimal R c); cbn [negb]; [|apply Eats_ret].
      again n IH Hc Hn.
Qed.

Lemma fraction_loop_Eats n : forall ch i a,
      length (cursor a) < n -> Eats (fraction_loop R n ch i) a.
Proof.
      induction n as [|n IH]; intros ch i a Hn; [lia|].
      cbn [fraction_loop]. destruct ch as [c0|]; [|apply Eats_ret].
      apply Eats_peek_bind.
      destruct (cursor a) as [|c l] eqn:Hc; cbn [hd_error]; [apply Eats_ret|].
      destruct (isDecimal R c); cbn [negb]; [|apply Eats_ret].
      again n IH Hc Hn.
Qed.

Lemma int_loop_Eats n : forall ch check i a,
      length (cursor a) < n -> Eats (int_loop R mode n ch check i) a.
Proof.
      induction n as [|n IH]; intros ch check i a Hn; [lia|].
      cbn [int_loop]. destruct ch as [c0|]; [|apply Eats_ret].
      apply Eats_peek_bind.
      destruct (cursor a) as [|c l] eqn:Hc; cbn [hd_error]; [apply Eats_ret|].
      destruct (ch_eqb c "." && enabled mode scanFloats).
      { apply Eats_bind; [eapply Eats_append_next; exact Hc|].
        intros; apply Eats_ret. }
      destruct (match check with None => choose_check R c i | Some _ => check end)
        as [k|]; [|apply Eats_ret].
      destruct (run_check R k c i); cbn [negb]; [|apply Eats_ret].
      again n IH Hc Hn.
Qed.

Lemma string_loop_Eats n : forall d a,
      length (cursor a) < n -> Eats (string_loop n d) a.
Proof.
      induction n as [|n IH]; intros d a Hn; [lia|].
      cbn [string_loop]. apply Eats_peek_bind.
      destruct (cursor a) as [|c l] eqn:Hc; cbn [hd_error];
        [apply Eats_throw_literal|].
      destruct (ch_eqb c LF); [apply Eats_throw_literal|].
      eapply Eats_after; [exact Hc|]. intros a1 H1.
      assert (Hn1 : length (cursor a1) < n).
      { eapply Ate_shorter; [exact H1 | | discriminate]. rewrite <- Hc in Hn. exact Hn. }
      apply Eats_bind.
      - destruct (ch_eqb c BACKSLASH); [|apply Eats_ret].
        apply Eats_peek_bind.
        destruct (cursor a1) as [|c' l'] eqn:Hc1; cbn [hd_error]; [apply Eats_ret|].
        destruct (N.eqb c' d); [|apply Eats_ret].
        eapply Eats_append_next; exact Hc1.
      - intros _ a2 w Hw. destruct (N.eqb c d); [apply Eats_ret|].
        apply IH. eapply Ate_not_longer; eauto.
Qed.

Lemma comment_loop_Eats n : forall b i a,
      length (cursor a) < n -> Eats (comment_loop R n b i) a.
Proof.
      induction n as [|n IH]; intros b i a Hn; [lia|].
      cbn [comment_loop]. apply Eats_peek_bind.
      destruct (cursor a) as [|c l] eqn:Hc; cbn [hd_error].
      - destruct b; cbn [negb andb]; [|apply Eats_ret].
        apply Eats_append_throw_nil. exact Hc.
      - destruct (negb b && negb (isComment R c i)); [apply Eats_ret|].
        eapply Eats_after; [exact Hc|]. intros a1 H1.
        assert (Hn1 : length (cursor a1) < n).
        { eapply Ate_shorter; [exact H1 | | discriminate]. rewrite <- Hc in Hn. exact Hn. }
        destruct b; [|apply IH; exact Hn1].
        apply Eats_peek_bind.
        destruct (cursor a1) as [|p l'] eqn:Hc1; cbn [hd_error];
          [apply IH; rewrite Hc1; exact Hn1|].
        destruct (isBlockCommentClose R c 0 && isBlockCommentClose R p 1).
        + eapply Eats_append_next; exact Hc1.
        + apply IH. rewrite Hc1. exact Hn1.
Qed.

    (** Every category test that can send [scan] round again succeeds. *)
Definition all_enabled : bool :=
      enabled mode scanWhitespace && enabled mode scanIdents &&
      enabled mode scanStrings && enabled mode (js_or scanInts scanFloats) &&
      enabled mode scanComments.

    (** The first character [c] has been consumed and the start position
        recorded. *)
Record Marked (a : A) (c : char) (a' : A) : Prop := {
      mk_cursor : cursor a = c :: cursor a';
      mk_pos : endPos a' = advance (endPos a) c;
      mk_token : currentToken a' = currentToken a;
      mk_start : startPos a' = advance (endPos a) c
    }.

    (** [a'] holds the token [t], found after the characters [skipped]. *)
Definition Token_at (a : A) (skipped : text) (t : Token) (a' : A) : Prop :=
      currentToken a' = Some t /\
      match t with
      | eof =>
          cursor a = skipped /\ cursor a' = [] /\ contents a' = [] /\
          endPos a' = walk skipped (endPos a) /\ startPos a' = endPos a'
      | _ =>
          exists c w,
            cursor a = skipped ++ c :: w ++ cursor a' /\
            contents a' = c :: w /\
            endPos a' = walk (skipped ++ c :: w) (endPos a) /\
            startPos a' = walk (skipped ++ [c]) (endPos a)
      end.

    (** [a'] is [a] after a token of a disabled category has been consumed. *)
Definition Skipped (a : A) (w : text) (a' : A) : Prop :=
      w <> [] /\ cursor a = w ++ cursor a' /\ endPos a' = walk w (endPos a) /\
      currentToken a' = currentToken a.

Definition Classified (a : A) (r : option Token) (a' : A) : Prop :=
      match r with
      | Some t => Token_at a [] t a'
      | None => all_enabled = false /\ exists w, Skipped a w a'
      end.

Lemma Marked_emit a c a2 w a4 t :
      Marked a c a2 -> contents a2 = [c] -> Ate a2 w a4 -> t <> eof ->
      Token_at a [] t (set_currentToken (Some t) a4).
Proof.
      intros [M1 M2 M3 M4] Hc [H1 H2 H3 H4 H5] Ht.
      split; [reflexivity|].
      assert (exists c0 w0,
                 cursor a = [] ++ c0 :: w0 ++ cursor a4 /\
                 contents a4 = c0 :: w0 /\
                 endPos a4 = walk ([] ++ c0 :: w0) (endPos a) /\
                 startPos a4 = walk ([] ++ [c0]) (endPos a)) as H.
      { exists c, w. cbn [app]. repeat split.
        - rewrite M1, H1. reflexivity.
        - rewrite H3, Hc. reflexivity.
        - rewrite H2, M2. reflexivity.
        - rewrite H5, M4. reflexivity. }
      destruct t; try exact H. contradiction.
Qed.

Lemma Marked_skip a c a2 w a4 :
      Marked a c a2 -> Ate a2 w a4 -> Skipped a (c :: w) a4.
Proof.
      intros [M1 M2 M3 M4] [H1 H2 H3 H4 H5]. repeat split.
      - discriminate.
      - rewrite M1, H1. reflexivity.
      - rewrite H2, M2. reflexivity.
      - congruence.
Qed.

Lemma Marked_Lexical a c a2 e a' :
      Marked a c a2 -> Lexical a2 e a' -> Lexical a e a'.
Proof.
      intros [M1 M2 M3 M4] [He Hp]. split; [exact He|].
      eapply pos_le_trans; [|exact Hp]. rewrite M2. apply pos_le_advance.
Qed.

Lemma Marked_set_contents a c a2 t :
      Marked a c a2 -> Marked a c (set_contents t a2).
Proof. intros [M1 M2 M3 M4]. split; assumption. Qed.

Lemma wp_Eats_bind {X Y} (m : M A X) (k : X -> M A Y) Q E a :
      Eats m a ->
      (forall x a1 w, Ate a w a1 -> wp (k x) Q E a1) ->
      (forall e a', Lexical a e a' -> E e a') ->
      wp (bind m k) Q E a.
Proof.
      intros Hm Hk HE. apply wp_bind. eapply wp_conseq; [exact Hm | | exact HE].
      intros x a1 [w Hw]. eapply Hk. exact Hw.
Qed.

    (** The part of [number] after [contents] has been set: everything up
        to the choice of the token. *)
Definition number_post (a : A) (r : option Token) (a' : A) : Prop :=
      exists t, r = Some t /\ (t = token \/ t = int \/ t = float) /\
                Token_at a [] t a'.

Lemma number_spec n c a a2 :
      Marked a c a2 -> length (cursor a2) < n ->
      wp (number R mode n c) (number_post a) (Lexical a) a2.
Proof.
      intros HM Hn. unfold number.
      apply wp_bind, wp_modify.
      set (a3 := set_contents [c] a2).
      assert (HM3 : Marked a c a3) by (apply Marked_set_contents; exact HM).
      assert (Hc3 : contents a3 = [c]) by reflexivity.
      assert (Hn3 : length (cursor a3) < n) by exact Hn.
      assert (HE : forall w a4 e a', Ate a3 w a4 -> Lexical a4 e a' -> Lexical a e a').
      { intros w a4 e a' Hw He. eapply Marked_Lexical; [exact HM3|].
        eapply Lexical_Ate; eauto. }
      clearbody a3. clear HM Hn a2.
      eapply wp_Eats_bind.
      { destruct (negb (ch_eqb c ".")); [apply int_loop_Eats; exact Hn3 | apply Eats_ret]. }
      2:{ intros e a' He. eapply (HE [] a3); [apply Ate_nil | exact He]. }
      intros [[ch1 isF1] i1] a4 w4 H4.
      eapply wp_Eats_bind.
      { destruct isF1; [apply fraction_loop_Eats; eapply Ate_not_longer; eauto
                       | apply Eats_ret]. }
      2:{ intros e a' He. eapply HE; eauto. }
      intros _ a5 w5 H5.
      pose proof (Ate_trans H4 H5) as H45. clear H4 H5.
      assert (Hn5 : length (cursor a5) < n) by (eapply Ate_not_longer; eauto).
      apply wp_bind, wp_peek.
      eapply wp_Eats_bind with (m := match hd_error (cursor a5) with
                                     | Some c0 => _ | None => _ end).
      { destruct (cursor a5) as [|c5 l5] eqn:Hc5; cbn [hd_error]; [apply Eats_ret|].
        destruct (isENotation R c5 && enabled mode scanFloats); [|apply Eats_ret].
        eapply Eats_after; [exact Hc5|]. intros a6 H6.
        assert (Hn6 : length (cursor a6) < n).
        { pose proof (Ate_length H6) as L. rewrite Hc5 in L. cbn in L, Hn5. lia. }
        apply Eats_peek_bind. apply Eats_bind.
        - destruct (cursor a6) as [|c6 l6] eqn:Hc6; cbn [hd_error]; [apply Eats_ret|].
          destruct (isSign R c6); [|apply Eats_ret].
          eapply Eats_append_next; exact Hc6.
        - intros _ a7 w7 H7. apply Eats_bind.
          + apply exponent_loop_Eats. eapply Ate_not_longer; eauto.
          + intros; apply Eats_ret. }
      2:{ intros e a' He. eapply HE; eauto. }
      intros isF a8 w8 H8. pose proof (Ate_trans H45 H8) as H.
      apply wp_bind, wp_gets.
      destruct (Nat.eqb (length (contents a8)) 1 && is_sign_text R (contents a8)).
      - exists token. split; [reflexivity|]. split; [auto|].
        eapply Marked_emit; eauto. discriminate.
      - destruct isF.
        + exists float. split; [reflexivity|]. split; [auto|].
          eapply Marked_emit; eauto. discriminate.
        + exists int. split; [reflexivity|]. split; [auto|].
          eapply Marked_emit; eauto. discriminate.
Qed.

Lemma all_enabled_false_1 : enabled mode scanWhitespace = false -> all_enabled = false.
Proof. unfold all_enabled. intros ->. reflexivity. Qed.
Lemma all_enabled_false_2 : enabled mode scanIdents = false -> all_enabled = false.
Proof. unfold all_enabled. intros ->. rewrite andb_false_r. reflexivity. Qed.
Lemma all_enabled_false_3 : enabled mode scanStrings = false -> all_enabled = false.
Proof. unfold all_enabled. intros ->. rewrite andb_false_r. reflexivity. Qed.
Lemma all_enabled_false_4 :
      enabled mode (js_or scanInts scanFloats) = false -> all_enabled = false.
Proof. unfold all_enabled. intros ->. rewrite andb_false_r. reflexivity. Qed.
Lemma all_enabled_false_5 : enabled mode scanComments = false -> all_enabled = false.
Proof. unfold all_enabled. intros ->. rewrite andb_false_r. reflexivity. Qed.

    (** The last step of a branch commits some token other than [eof]. *)
Definition Commits (k : M A (option Token)) : Prop :=
      forall a4,
        wp k (fun r a' => exists t, t <> eof /\ r = Some t /\
                                    a' = set_currentToken (Some t) a4)
           (fun _ _ => False) a4.

Lemma Commits_emit t : t <> eof -> Commits (emit t).
Proof. intros Ht a4. exists t. repeat split. exact Ht. Qed.

    (** A branch of [classify]: set [contents], run the loop, then either
        go round again or commit the token. *)
Lemma branch_spec {X} (loop : M A X) (on : bool) (k : M A (option Token))
          a c a2 :
      Marked a c a2 ->
      Eats loop (set_contents [c] a2) ->
      (on = false -> all_enabled = false) ->
      Commits k ->
      wp (modify (set_contents [c]) ;; loop ;; if negb on then rescan else k)
         (Classified a) (Lexical a) a2.
Proof.
      intros HM HL Hg Hk. apply wp_bind, wp_modify.
      pose proof (Marked_set_contents [c] HM) as HM3.
      eapply wp_Eats_bind; [exact HL | |].
      - intros _ a4 w Hw. destruct on; cbn [negb].
        + eapply wp_conseq; [apply Hk | | intros ? ? []].
          intros r a' (t & Ht & -> & ->). cbn. eapply Marked_emit; eauto.
        + apply wp_ret. split; [auto|]. exists (c :: w).
          eapply Marked_skip; eauto.
      - intros e a' He. eapply Marked_Lexical; eauto.
Qed.

Lemma classify_spec n a :
      length (cursor a) <= n ->
      wp (classify R mode n) (Classified a) (Lexical a) a.
Proof.
      intros Hn. destruct (cursor a) as [|c l] eqn:Hc.
      - destruct a as [cur ln col cont ct sp]. cbn in Hc. subst cur.
        unfold wp. cbn. split; [reflexivity|].
        cbv beta iota delta [endPos set_cursor set_column set_contents
          set_currentToken set_startPos line column cursor contents startPos
          currentToken walk fold_left fst snd].
        repeat split; f_equal; lia.
      - unfold classify. apply wp_bind. eapply wp_next_cons; [exact Hc|].
        intros a1 [S1 S2 S3 S4 S5].
        apply wp_bind, wp_peek. apply wp_bind, wp_modify.
        set (a2 := set_startPos (line a1, column a1) a1).
        assert (HM : Marked a c a2).
        { split; cbn; auto. }
        assert (Hn2 : length (cursor (set_contents [c] a2)) < n).
        { cbn. rewrite S1 in Hc. injection Hc as ->. cbn in Hn. lia. }
        assert (Hn2' : length (cursor a2) < n) by exact Hn2.
        clearbody a2.
        destruct (isWhitespace R c).
        { eapply branch_spec; eauto.
          - apply whitespace_loop_Eats; exact Hn2.
          - apply all_enabled_false_1.
          - apply Commits_emit. discriminate. }
        destruct (isIdent R c 0).
        { eapply branch_spec; eauto.
          - apply ident_loop_Eats; exact Hn2.
          - apply all_enabled_false_2.
          - intros a4. apply wp_bind, wp_gets.
            destruct (isKeyword R (contents a4)); apply Commits_emit; discriminate. }
        destruct (isStringDelimiter R c).
        { eapply branch_spec; eauto.
          - apply string_loop_Eats; exact Hn2.
          - apply all_enabled_false_3.
          - apply Commits_emit. discriminate. }
        destruct (isDecimal R c || isSign R c || _).
        { destruct (enabled mode (js_or scanInts scanFloats)) eqn:Hg; cbn [negb].
          - eapply wp_conseq; [eapply number_spec; eauto | | auto].
            intros r a' (t & -> & _ & Ht). exact Ht.
          - apply wp_ret. split; [apply all_enabled_false_4; exact Hg|].
            exists (c :: []). eapply Marked_skip; [exact HM | apply Ate_nil]. }
        destruct (isComment R c 0 || isBlockCommentOpen R c 0).
        { eapply branch_spec; eauto.
          - apply comment_loop_Eats; exact Hn2.
          - apply all_enabled_false_5.
          - apply Commits_emit. discriminate. }
        apply wp_bind, wp_modify.
        eapply wp_conseq; [apply (Commits_emit (t := token)); discriminate | | intros ? ? []].
        intros r a' (t & Ht & -> & ->).
        eapply Marked_emit; [apply Marked_set_contents; exact HM | reflexivity
                            | apply Ate_nil | exact Ht].
Qed.

    (** [scan] returns a token after skipping the tokens of disabled
        categories, or throws one of the two lexical errors. *)
Definition Scanned (a : A) (t : Token) (a' : A) : Prop :=
      exists skipped, (all_enabled = true -> skipped = []) /\ Token_at a skipped t a'.

Lemma Token_at_skip a w a1 sk t a' :
      Skipped a w a1 -> Token_at a1 sk t a' -> Token_at a (w ++ sk) t a'.
Proof.
      intros (Hw & H1 & H2 & H3) [Ht H]. split; [exact Ht|].
      destruct t;
        try (destruct H as (c & w0 & E1 & E2 & E3 & E4); exists c, w0;
             repeat split;
             [ rewrite H1, E1, app_assoc; reflexivity
             | exact E2
             | rewrite <- app_assoc, walk_app, <- H2; exact E3
             | rewrite <- app_assoc, walk_app, <- H2; exact E4 ]).
      destruct H as (E1 & E2 & E3 & E4 & E5). repeat split; auto.
      - rewrite H1, E1. reflexivity.
      - rewrite walk_app, <- H2. exact E4.
Qed.

Lemma Skipped_Lexical a w a1 e a' :
      Skipped a w a1 -> Lexical a1 e a' -> Lexical a e a'.
Proof.
      intros (Hw & H1 & H2 & H3) [He Hp]. split; [exact He|].
      eapply pos_le_trans; [|exact Hp]. rewrite H2. apply pos_le_walk.
Qed.

Lemma Skipped_shorter a w a1 :
      Skipped a w a1 -> length (cursor a1) < length (cursor a).
Proof.
      intros (Hw & H1 & H2 & H3). rewrite H1, length_app.
      destruct w; [contradiction|]. cbn. lia.
Qed.

Lemma scan_fuel_spec n : forall a,
      length (cursor a) < n ->
      wp (scan_fuel R mode n) (Scanned a) (Lexical a) a.
Proof.
      induction n as [|n IH]; intros a Hn; [lia|].
      cbn [scan_fuel]. apply wp_bind.
      eapply wp_conseq; [apply classify_spec; lia | | auto].
      intros [t|] a1 H; cbn in H.
      - apply wp_ret. exists []. split; auto.
      - destruct H as (Hall & w & Hs).
        pose proof (Skipped_shorter Hs) as Hl.
        eapply wp_conseq; [apply IH; lia | |].
        + intros t a' (sk & Hsk & Ht). exists (w ++ sk). split.
          * intros Hall'. congruence.
          * eapply Token_at_skip; eauto.
        + intros e a' He. eapply Skipped_Lexical; eauto.
Qed.

Lemma scan_spec a : wp (scan R mode) (Scanned a) (Lexical a) a.
Proof. unfold scan. apply scan_fuel_spec. cbn. lia. Qed.

End Loops.
End TextRuns.

(* ================================================================== *)
(** * From the chunked cursor to the unread text *)

(** A scanner seen through the text it has still to read. *)
Definition view (s : Scanner Input) : Scanner (list N) :=
  carry Input_unread (fun t => t) s.

Lemma view_peek (c : Input) :
  cpeek (Input_unread c) = (Input_unread (fst (cpeek c)), snd (cpeek c)).
Proof.
  cbn [cpeek text_Cursor Input_Cursor].
  rewrite Input_peek_unread, Input_peek_char. reflexivity.
Qed.

Lemma view_skip (c : Input) :
  cskip (Input_unread (fst (cpeek c))) = Input_unread (cskip (fst (cpeek c))).
Proof.
  cbn [cpeek cskip text_Cursor Input_Cursor].
  rewrite Input_skip_unread, Input_peek_unread. reflexivity.
Qed.

Lemma view_unread (c : Input) : unread (Input_unread c) = unread c.
Proof. reflexivity. Qed.

Lemma classify_view R mode n (s : Scanner Input) :
  classify R mode n (view s) =
  (view (fst (classify R mode n s)), snd (classify R mode n s)).
Proof.
  unfold view.
  rewrite (Commutes_classify_classify Input_unread (fun t => t) view_peek view_skip).
  unfold lift_classify. destruct (classify R mode n s) as [s' [[t|]|e|]]; reflexivity.
Qed.

Lemma scan_view R mode (s : Scanner Input) :
  scan R mode (view s) = (view (fst (scan R mode s)), snd (scan R mode s)).
Proof.
  unfold view.
  rewrite (scan_carry Input_unread (fun t => t) view_peek view_skip view_unread).
  unfold lift_scan. destruct (scan R mode s) as [s' [t|e|]]; reflexivity.
Qed.

Lemma observe_view t (s : Scanner Input) : observe t (view s) = observe t s.
Proof. reflexivity. Qed.

Lemma iterate_view R mode n : forall s : Scanner Input,
  iterate R mode n (view s) = iterate R mode n s.
Proof.
  induction n as [|n IH]; intros s; [reflexivity|].
  cbn [iterate]. rewrite scan_view.
  destruct (scan R mode s) as [s' [t|e|]]; cbn [fst snd]; try reflexivity.
  rewrite observe_view, IH. reflexivity.
Qed.

Lemma tokens_view R mode (s : Scanner Input) :
  tokens R mode (view s) = tokens R mode s.
Proof. unfold tokens. apply iterate_view. Qed.

(** A freshly constructed scanner has the whole source to read, provided
    its chunk buffer can hold a byte. *)
Lemma new_Scanner_unread source init :
  new_chunkBuffer init <> 0 ->
  unread (cursor (new_Scanner source init)) = source.
Proof.
  intros H. cbn. unfold Input_unread. cbn.
  destruct (Nat.eqb_spec (new_chunkBuffer init) 0); [contradiction | reflexivity].
Qed.

(* ================================================================== *)
(** * Properties of [scan] on the chunked cursor *)

Lemma scan_Input_spec R mode (s : Scanner Input) :
  wp (scan R mode)
     (fun t s' => Scanned mode (view s) t (view s'))
     (fun e s' => Lexical (view s) e (view s')) s.
Proof.
  pose proof (scan_spec R mode (view s)) as H. unfold wp in *.
  rewrite scan_view in H. destruct (scan R mode s) as [s' [t|e|]]; exact H.
Qed.

(** [scan] never exhausts its loop bound: it returns a token or throws. *)
Lemma scan_total R mode (s : Scanner Input) : snd (scan R mode s) <> Fuel.
Proof.
  pose proof (scan_Input_spec R mode s) as H. unfold wp in H.
  destruct (scan R mode s) as [s' [t|e|]]; cbn; [discriminate | discriminate | contradiction].
Qed.

(** The only exceptions [scan] throws are the two lexical errors. *)
Lemma scan_throws R mode (s s' : Scanner Input) e :
  scan R mode s = (s', Throw e) -> e = literal_error \/ e = comment_error.
Proof.
  intros Hs. pose proof (scan_Input_spec R mode s) as H. unfold wp in H.
  rewrite Hs in H. exact (proj1 H).
Qed.



(* ------------------------------------------------------------------ *)
(** ** Tokens, end of input and positions *)

Lemma Token_eqb_eq t u : Token_eqb t u = true <-> t = u.
Proof. destruct t, u; cbn; split; intros H; try reflexivity; discriminate. Qed.

Lemma Scanned_nil mode a t a' :
  cursor a = [] -> Scanned mode a t a' ->
  t = eof /\ cursor a' = [] /\ contents a' = [] /\ endPos a' = endPos a /\
  startPos a' = endPos a.
Proof.
  intros Hc (skipped & _ & _ & Ht). rewrite Hc in Ht.
  destruct t;
    try (destruct Ht as (c & w & E1 & _); destruct skipped; discriminate).
  destruct Ht as (E1 & E2 & E3 & E4 & E5). subst skipped.
  cbn in E4. rewrite E5, E4. auto.
Qed.

Lemma Scanned_eof mode a a' :
  Scanned mode a eof a' ->
  cursor a' = [] /\ contents a' = [] /\
  endPos a' = walk (cursor a) (endPos a) /\ startPos a' = endPos a'.
Proof.
  intros (skipped & _ & _ & E1 & E2 & E3 & E4 & E5). subst skipped. auto.
Qed.

Lemma Scanned_pos_le mode a t a' :
  Scanned mode a t a' -> pos_le (endPos a) (endPos a').
Proof.
  intros (skipped & _ & _ & Ht).
  destruct t;
    try (destruct Ht as (c & w & _ & _ & E & _); rewrite E; apply pos_le_walk).
  destruct Ht as (_ & _ & _ & E & _). rewrite E. apply pos_le_walk.
Qed.

(** The state after [k] further calls of [scan()]. *)
Fixpoint scans (R : Rules) (mode : Z) (k : nat) (s : Scanner Input) : Scanner Input :=
  match k with
  | 0 => s
  | S k' => fst (scan R mode (scans R mode k' s))
  end.

(** What [k] calls of [scan()] in a row show: the outcome, [contents],
    [startPos] and [endPos] after each. *)
Fixpoint scan_repeatedly (R : Rules) (mode : Z) (k : nat) (s : Scanner Input)
  : list (Outcome Token * list N * (Z * Z) * (Z * Z)) :=
  match k with
  | 0 => []
  | S k' =>
      let (s', o) := scan R mode s in
      (o, contents s', startPos s', endPos s') :: scan_repeatedly R mode k' s'
  end.

Lemma scan_text_nil R mode (a : Scanner (list N)) :
  cursor a = [] -> snd (scan R mode a) = Ret eof.
Proof. destruct a as [cur ln col cont ct sp]. cbn [cursor]. intros ->. reflexivity. Qed.

Lemma scan_exhausted R mode (s : Scanner Input) :
  unread (cursor s) = [] ->
  snd (scan R mode s) = Ret eof /\
  unread (cursor (fst (scan R mode s))) = [] /\
  contents (fst (scan R mode s)) = [] /\
  endPos (fst (scan R mode s)) = endPos s /\
  startPos (fst (scan R mode s)) = endPos s.
Proof.
  intros Hc. pose proof (scan_Input_spec R mode s) as H. unfold wp in H.
  pose proof (scan_text_nil R mode (view s) Hc) as He.
  rewrite scan_view in He. cbn [snd] in He.
  destruct (scan R mode s) as [s' o]. cbn [fst snd] in *. subst o.
  apply Scanned_nil in H; [|exact Hc].
  destruct H as (_ & H1 & H2 & H3 & H4). auto.
Qed.

Lemma scan_eof_exhausts R mode (s : Scanner Input) :
  snd (scan R mode s) = Ret eof ->
  unread (cursor (fst (scan R mode s))) = [] /\
  contents (fst (scan R mode s)) = [] /\
  endPos (fst (scan R mode s)) = walk (unread (cursor s)) (endPos s) /\
  startPos (fst (scan R mode s)) = endPos (fst (scan R mode s)).
Proof.
  intros He. pose proof (scan_Input_spec R mode s) as H. unfold wp in H.
  destruct (scan R mode s) as [s' o]. cbn [fst snd] in *. subst o.
  apply Scanned_eof in H. exact H.
Qed.

Lemma scan_pos_le R mode (s : Scanner Input) :
  pos_le (endPos s) (endPos (fst (scan R mode s))).
Proof.
  pose proof (scan_Input_spec R mode s) as H. unfold wp in H.
  destruct (scan R mode s) as [s' [t|e|]]; cbn [fst].
  - apply (Scanned_pos_le H).
  - exact (proj2 H).
  - contradiction.
Qed.

Lemma scans_exhausted R mode k : forall s : Scanner Input,
  unread (cursor s) = [] ->
  unread (cursor (scans R mode k s)) = [] /\
  endPos (scans R mode k s) = endPos s.
Proof.
  induction k as [|k IH]; intros s Hc; [auto|].
  cbn [scans].
  destruct (IH s Hc) as [H1 H2].
  destruct (scan_exhausted R mode _ H1) as (_ & K1 & _ & K2 & _).
  split; [exact K1 | rewrite K2; exact H2].
Qed.

Lemma scan_repeatedly_exhausted R mode k : forall s : Scanner Input,
  unread (cursor s) = [] ->
  scan_repeatedly R mode k s = repeat (Ret eof, [], endPos s, endPos s) k.
Proof.
  induction k as [|k IH]; intros s Hc; [reflexivity|].
  cbn [scan_repeatedly repeat].
  destruct (scan_exhausted R mode s Hc) as (K0 & K1 & K2 & K3 & K4).
  destruct (scan R mode s) as [s' o]. cbn [fst snd] in *.
  rewrite (IH s' K1), K0, K2, K3, K4. reflexivity.
Qed.

(** C2: once [scan()] has returned [eof], every further call returns [eof]
    again with empty [contents] and with [startPos] and [endPos] unchanged;
    in particular five scans of the empty source each give [eof] with
    [startPos = endPos = (1, 0)]. *)
Theorem eof_is_idempotent R mode (s : Scanner Input) :
  snd (scan R mode s) = Ret eof ->
  let s1 := fst (scan R mode s) in
  (contents s1 = [] /\ startPos s1 = endPos s1) /\
  (forall k,
     let sk := scans R mode k s1 in
     snd (scan R mode sk) = Ret eof /\
     contents (fst (scan R mode sk)) = [] /\
     startPos (fst (scan R mode sk)) = startPos s1 /\
     endPos (fst (scan R mode sk)) = endPos s1) /\
  (forall init,
     scan_repeatedly (init_rules init) (new_mode init) 5 (new_Scanner [] init) =
     repeat (Ret eof, [], (1, 0)%Z, (1, 0)%Z) 5).
Proof.
  intros He s1.
  destruct (scan_eof_exhausts R mode s He) as (H1 & H2 & H3 & H4).
  fold s1 in H1, H2, H3, H4.
  split; [auto|]. split.
  - intros k sk.
    destruct (scans_exhausted R mode k s1 H1) as [K1 K2]. fold sk in K1, K2.
    destruct (scan_exhausted R mode sk K1) as (L0 & _ & L2 & L3 & L4).
    split; [exact L0|]. split; [exact L2|]. split.
    + rewrite L4, K2, H4. reflexivity.
    + rewrite L3, K2. reflexivity.
  - intros init. apply scan_repeatedly_exhausted.
    cbn. unfold Input_unread. cbn. destruct (Nat.eqb _ 0); reflexivity.
Qed.

Lemma eof_is_idempotent_witness :
  let s := new_Scanner (lit "x") defaultInit in
  let s1 := fst (scan defaultRules defaultTokens (scans defaultRules defaultTokens 1 s)) in
  (contents s1 = [] /\ startPos s1 = endPos s1) /\
  (forall k,
     let sk := scans defaultRules defaultTokens k s1 in
     snd (scan defaultRules defaultTokens sk) = Ret eof /\
     contents (fst (scan defaultRules defaultTokens sk)) = [] /\
     startPos (fst (scan defaultRules defaultTokens sk)) = startPos s1 /\
     endPos (fst (scan defaultRules defaultTokens sk)) = endPos s1) /\
  (forall init,
     scan_repeatedly (init_rules init) (new_mode init) 5 (new_Scanner [] init) =
     repeat (Ret eof, [], (1, 0)%Z, (1, 0)%Z) 5).
Proof.
  apply (@eof_is_idempotent defaultRules defaultTokens
           (scans defaultRules defaultTokens 1 (new_Scanner (lit "x") defaultInit))).
  vm_compute. reflexivity.
Defined.

(** [next()] returns the first unread character and moves the position by
    it; at the end of the text it returns [null] and still adds a column. *)
Lemma next_position (s : Scanner Input) :
  exists ch,
    snd (next s) = Ret ch /\ ch = hd_error (unread (cursor s)) /\
    endPos (fst (next s)) =
    match ch with
    | Some c => if ch_eqb c LF then (line s + 1, 0)%Z else (line s, column s + 1)%Z
    | None => (line s, column s + 1)%Z
    end.
Proof.
  pose proof (Input_peek_char (cursor s)) as Hp.
  unfold next, bind, peek, modify, ret.
  cbn [cpeek Input_Cursor]. destruct (Input_peek (cursor s)) as [c ch].
  cbn [snd] in Hp. exists ch.
  destruct ch as [x|]; cbn [is_char]; [destruct (ch_eqb x LF)|]; cbn;
    (split; [reflexivity|]); (split; [exact Hp | reflexivity]).
Qed.

(** End positions that never go back. *)
Fixpoint nondecreasing (p : Z * Z) (l : list (Z * Z)) : Prop :=
  match l with
  | [] => True
  | q :: l' => pos_le p q /\ nondecreasing q l'
  end.

Lemma iterate_nondecreasing R mode n : forall s : Scanner Input,
  nondecreasing (endPos s) (map lx_end (fst (iterate R mode n s))).
Proof.
  induction n as [|n IH]; intros s; [exact I|].
  cbn [iterate]. pose proof (scan_pos_le R mode s) as Hle.
  destruct (scan R mode s) as [s' [t|e|]]; cbn [fst] in *; try exact I.
  destruct (Token_eqb t eof).
  - cbn. auto.
  - specialize (IH s'). destruct (iterate R mode n s') as [l e].
    cbn in *. auto.
Qed.

(** C4: the end position never decreases.  Each character consumed by
    [next()] moves it forward (a newline to column 0 of the next line, any
    other character one column on); a [scan()] leaves it at or after where
    it was, also over a whole run; a [scan()] that returns [eof] leaves it
    just after the last character of the text, the extra column of the read
    past the end rolled back, so on exhausted input it does not move. *)
Theorem end_position_never_decreases R mode (s : Scanner Input) :
  (exists ch,
     snd (next s) = Ret ch /\ ch = hd_error (unread (cursor s)) /\
     endPos (fst (next s)) =
     match ch with
     | Some c => if ch_eqb c LF then (line s + 1, 0)%Z else (line s, column s + 1)%Z
     | None => (line s, column s + 1)%Z
     end) /\
  pos_le (endPos s) (endPos (fst (scan R mode s))) /\
  nondecreasing (endPos s) (map lx_end (fst (tokens R mode s))) /\
  (snd (scan R mode s) = Ret eof ->
   endPos (fst (scan R mode s)) = walk (unread (cursor s)) (endPos s)) /\
  (unread (cursor s) = [] ->
   snd (scan R mode s) = Ret eof /\ endPos (fst (scan R mode s)) = endPos s).
Proof.
  split; [apply next_position|].
  split; [apply scan_pos_le|].
  split; [apply iterate_nondecreasing|].
  split.
  - intros He. apply (scan_eof_exhausts R mode s He).
  - intros Hc. destruct (scan_exhausted R mode s Hc) as (H0 & _ & _ & H3 & _). auto.
Qed.

Lemma end_position_never_decreases_witness :
  let s := new_Scanner [] defaultInit in
  snd (scan defaultRules defaultTokens s) = Ret eof /\
  endPos (fst (scan defaultRules defaultTokens s)) = endPos s.
Proof.
  apply (proj2 (proj2 (proj2 (proj2
           (end_position_never_decreases defaultRules defaultTokens
              (new_Scanner [] defaultInit)))))).
  vm_compute. reflexivity.
Defined.

(* ------------------------------------------------------------------ *)
(** ** Lossless tokenization *)

Lemma enabled_ints_or_floats mode :
  enabled mode scanInts = true -> enabled mode (js_or scanInts scanFloats) = true.
Proof.
  unfold enabled, truthy, js_and. intros H.
  change (int32 (js_or scanInts scanFloats)) with 402653184%Z.
  change (int32 scanInts) with 268435456%Z in H.
  apply negb_true_iff in H. apply negb_true_iff.
  apply Z.eqb_neq in H. apply Z.eqb_neq. intros K. apply H.
  change 268435456%Z with (Z.land 402653184 268435456).
  rewrite Z.land_assoc, K. reflexivity.
Qed.

Lemma iterate_lossless R mode :
  all_enabled mode = true ->
  forall n (a : Scanner (list N)),
    length (cursor a) < n ->
    snd (iterate R mode n a) <> Unfinished /\
    (snd (iterate R mode n a) = Finished ->
     concat (map lx_contents (fst (iterate R mode n a))) = cursor a).
Proof.
  intros Hall. induction n as [|n IH]; intros a Hn; [lia|].
  cbn [iterate]. pose proof (scan_spec R mode a) as H. unfold wp in H.
  destruct (scan R mode a) as [a' [t|e|]].
  - destruct H as (skipped & Hsk & Hct & Ht). rewrite (Hsk Hall) in Ht.
    destruct (Token_eqb t eof) eqn:Et.
    + apply Token_eqb_eq in Et. subst t.
      destruct Ht as (E1 & E2 & E3 & _). cbn. split; [discriminate|].
      intros _. rewrite E3, E1. reflexivity.
    + assert (exists c w, cursor a = c :: w ++ cursor a' /\ contents a' = c :: w)
        as (c & w & E1 & E2).
      { destruct t; try discriminate;
          destruct Ht as (c & w & E1 & E2 & _); exists c, w; auto. }
      assert (Hn' : length (cursor a') < n).
      { rewrite E1 in Hn. cbn in Hn. rewrite length_app in Hn. lia. }
      destruct (IH a' Hn') as [I1 I2].
      destruct (iterate R mode n a') as [l e]. cbn in *.
      split; [exact I1|]. intros He. rewrite (I2 He), E2, E1. reflexivity.
  - cbn. split; discriminate.
  - contradiction.
Qed.




(* ================================================================== *)
(** * More loop bound changes nothing *)

Section Bound.
Context {C : Type} {CC : Cursor C}.
Variable R : Rules.
Variable mode : Z.

  (** [m'] agrees with [m] wherever [m] stays within its bound. *)
Definition LeM {A} (m m' : M (Scanner C) A) : Prop :=
    forall s, snd (m s) <> Fuel -> m' s = m s.

Lemma LeM_refl {A} (m : M (Scanner C) A) : LeM m m.
Proof. intros s _. reflexivity. Qed.

Lemma LeM_fuel {A} (m : M (Scanner C) A) : LeM out_of_fuel m.
Proof. intros s H. cbn in H. contradiction. Qed.

Lemma LeM_bind {A B} (m m' : M (Scanner C) A) (k k' : A -> M (Scanner C) B) :
    LeM m m' -> (forall x, LeM (k x) (k' x)) -> LeM (bind m k) (bind m' k').
Proof.
    intros Hm Hk s H. unfold bind in *.
    destruct (m s) as [s1 [x|e|]] eqn:E.
    - rewrite (Hm s) by (rewrite E; discriminate). rewrite E. apply Hk. exact H.
    - rewrite (Hm s) by (rewrite E; discriminate). rewrite E. reflexivity.
    - cbn in H. contradiction.
Qed.

Ltac mono IH :=
    repeat first
      [ apply LeM_refl
      | apply LeM_fuel
      | apply IH; lia
      | apply LeM_bind; [|intros ?]
      | match goal with
        | |- LeM (match ?x with _ => _ end) _ => destruct x
        end ].

Lemma whitespace_loop_mono n : forall n', n <= n' ->
    LeM (whitespace_loop R n) (whitespace_loop R n').
Proof.
    induction n as [|n IH]; intros n' Hn; [apply LeM_fuel|].
    destruct n' as [|n']; [lia|]. cbn [whitespace_loop]. mono IH.
Qed.

Lemma ident_loop_mono n : forall n' i, n <= n' ->
    LeM (ident_loop R n i) (ident_loop R n' i).
Proof.
    induction n as [|n IH]; intros n' i Hn; [apply LeM_fuel|].
    destruct n' as [|n']; [lia|]. cbn [ident_loop]. mono IH.
Qed.

Lemma string_loop_mono n : forall n' d, n <= n' ->
    LeM (string_loop n d) (string_loop n' d).
Proof.
    induction n as [|n IH]; intros n' d Hn; [apply LeM_fuel|].
    destruct n' as [|n']; [lia|]. cbn [string_loop]. mono IH.
Qed.

Lemma int_loop_mono n : forall n' ch check i, n <= n' ->
    LeM (int_loop R mode n ch check i) (int_loop R mode n' ch check i).
Proof.
    induction n as [|n IH]; intros n' ch check i Hn; [apply LeM_fuel|].
    destruct n' as [|n']; [lia|]. cbn [int_loop]. mono IH.
Qed.

Lemma fraction_loop_mono n : forall n' ch i, n <= n' ->
    LeM (fraction_loop R n ch i) (fraction_loop R n' ch i).
Proof.
    induction n as [|n IH]; intros n' ch i Hn; [apply LeM_fuel|].
    destruct n' as [|n']; [lia|]. cbn [fraction_loop]. mono IH.
Qed.

Lemma exponent_loop_mono n : forall n', n <= n' ->
    LeM (exponent_loop R n) (exponent_loop R n').
Proof.
    induction n as [|n IH]; intros n' Hn; [apply LeM_fuel|].
    destruct n' as [|n']; [lia|]. cbn [exponent_loop]. mono IH.
Qed.

Lemma comment_loop_mono n : forall n' b i, n <= n' ->
    LeM (comment_loop R n b i) (comment_loop R n' b i).
Proof.
    induction n as [|n IH]; intros n' b i Hn; [apply LeM_fuel|].
    destruct n' as [|n']; [lia|]. cbn [comment_loop]. mono IH.
Qed.

Ltac mono_loops Hn :=
    repeat first
      [ apply LeM_refl
      | apply whitespace_loop_mono; exact Hn
      | apply ident_loop_mono; exact Hn
      | apply string_loop_mono; exact Hn
      | apply int_loop_mono; exact Hn
      | apply fraction_loop_mono; exact Hn
      | apply exponent_loop_mono; exact Hn
      | apply comment_loop_mono; exact Hn
      | apply LeM_bind; [|intros ?]
      | match goal with
        | |- LeM (match ?x with _ => _ end) _ => destruct x
        end ].

Lemma number_mono n n' ch : n <= n' ->
    LeM (number R mode n ch) (number R mode n' ch).
Proof. intros Hn. unfold number. mono_loops Hn. Qed.

Lemma classify_mono n n' : n <= n' ->
    LeM (classify R mode n) (classify R mode n').
Proof.
    intros Hn. unfold classify. mono_loops Hn; apply number_mono; exact Hn.
Qed.

Lemma scan_fuel_mono n : forall n', n <= n' ->
    LeM (scan_fuel R mode n) (scan_fuel R mode n').
Proof.
    induction n as [|n IH]; intros n' Hn; [apply LeM_fuel|].
    destruct n' as [|n']; [lia|]. cbn [scan_fuel].
    apply LeM_bind; [apply classify_mono; lia|].
    intros [t|]; [apply LeM_refl | apply IH; lia].
Qed.

End Bound.

(** Any bound above the number of unread characters gives what [scan]
    gives. *)
Lemma scan_fuel_enough R mode n (s : Scanner Input) :
  length (unread (cursor s)) < n -> scan_fuel R mode n s = scan R mode s.
Proof.
  intros Hn. apply scan_fuel_mono; [lia|]. apply scan_total.
Qed.

Lemma scan_fuel_enough_text R mode n (a : Scanner (list N)) :
  length (cursor a) < n -> scan_fuel R mode n a = scan R mode a.
Proof.
  intros Hn. apply scan_fuel_mono; [cbn; lia|].
  pose proof (scan_spec R mode a) as H. unfold wp in H.
  fold (scan R mode a).
  destruct (scan R mode a) as [a' [t|e|]]; cbn; [discriminate | discriminate | contradiction].
Qed.

(* ================================================================== *)
(** * Disabling categories *)

(** Whether the mask lets [scan] return a token of category [t]. *)
Definition visible (mode : Z) (t : Token) : bool :=
  match t with
  | whitespace => enabled mode scanWhitespace
  | identifier | keyword => enabled mode scanIdents
  | string_ => enabled mode scanStrings
  | comment => enabled mode scanComments
  | _ => true
  end.

(** [m'] enables no whitespace, identifier, string or comment category that
    [m] disables, and the two masks answer the tests of the numeric branch
    alike. *)
Record Narrows (m m' : Z) : Prop := {
  nr_floats : enabled m' scanFloats = enabled m scanFloats;
  nr_numbers : enabled m' (js_or scanInts scanFloats) =
               enabled m (js_or scanInts scanFloats);
  nr_whitespace : enabled m' scanWhitespace = true -> enabled m scanWhitespace = true;
  nr_idents : enabled m' scanIdents = true -> enabled m scanIdents = true;
  nr_strings : enabled m' scanStrings = true -> enabled m scanStrings = true;
  nr_comments : enabled m' scanComments = true -> enabled m scanComments = true
}.

Section Masks.
Context {C : Type} {CC : Cursor C}.
Variable R : Rules.
Variables m m' : Z.
Hypothesis Hnr : Narrows m m'.

Definition EqM {A} (m1 m2 : M (Scanner C) A) : Prop := forall s, m1 s = m2 s.

Lemma EqM_refl {A} (m1 : M (Scanner C) A) : EqM m1 m1.
Proof. intros s. reflexivity. Qed.

Lemma EqM_bind {A B} (m1 m2 : M (Scanner C) A) (k1 k2 : A -> M (Scanner C) B) :
    EqM m1 m2 -> (forall x, EqM (k1 x) (k2 x)) -> EqM (bind m1 k1) (bind m2 k2).
Proof.
    intros Hm Hk s. unfold bind. rewrite Hm.
    destruct (m2 s) as [s1 [x|e|]]; [apply Hk | reflexivity | reflexivity].
Qed.

Lemma int_loop_mode n : forall ch check i,
    EqM (int_loop R m' n ch check i) (int_loop R m n ch check i).
Proof.
    induction n as [|n IH]; intros ch check i; [apply EqM_refl|].
    cbn [int_loop]. rewrite (nr_floats Hnr).
    repeat first
      [ apply EqM_refl | apply IH | apply EqM_bind; [|intros ?]
      | match goal with
        | |- EqM (match ?x with _ => _ end) _ => destruct x
        end ].
Qed.

Lemma number_mode n ch : EqM (number R m' n ch) (number R m n ch).
Proof.
    unfold number. rewrite (nr_floats Hnr).
    repeat first
      [ apply EqM_refl | apply int_loop_mode | apply EqM_bind; [|intros ?]
      | match goal with
        | |- EqM (match ?x with _ => _ end) _ => destruct x
        end ].
Qed.

  (** The numeric branch commits [token], [int] or [float]. *)
Definition Numberish (r : Scanner C * Outcome (option Token)) : Prop :=
    match snd r with
    | Ret (Some t) => t = token \/ t = int \/ t = float
    | Ret None => False
    | _ => True
    end.

Lemma Numberish_bind {A} (m0 : M (Scanner C) A) k :
    (forall x s, Numberish (k x s)) -> forall s, Numberish (bind m0 k s).
Proof.
    intros Hk s. unfold bind. destruct (m0 s) as [s1 [x|e|]]; [apply Hk | exact I | exact I].
Qed.

Lemma number_Numberish mode n ch s : Numberish (number R mode n ch s).
Proof.
    unfold number.
    repeat (apply Numberish_bind; intros;
            repeat match goal with x : (_ * _)%type |- _ => destruct x end).
    destruct (Nat.eqb _ 1 && _); [cbn; auto|].
    match goal with |- context [if ?b then float else int] => destruct b end;
      cbn; auto.
Qed.

Definition forget (s : Scanner C) : Scanner C := set_currentToken None s.

  (** How a step under [m'] relates to the same step under [m]: the same
      result, except that a token [m'] hides is not committed. *)
Definition Hides (r' r : Scanner C * Outcome (option Token)) : Prop :=
    match snd r with
    | Ret (Some t) =>
        if visible m' t then r' = r
        else snd r' = Ret None /\ forget (fst r') = forget (fst r)
    | _ => r' = r
    end.

Lemma Hides_bind {A} (m0 : M (Scanner C) A) k' k :
    (forall x s, Hides (k' x s) (k x s)) ->
    forall s, Hides (bind m0 k' s) (bind m0 k s).
Proof.
    intros Hk s. unfold bind.
    destruct (m0 s) as [s1 [x|e|]]; [apply Hk | reflexivity | reflexivity].
Qed.

Lemma Hides_emit t s : visible m' t = true -> Hides (emit t s) (emit t s).
Proof. intros H. unfold Hides. cbn. rewrite H. reflexivity. Qed.

Lemma Hides_rescan s : Hides (rescan s) (rescan s).
Proof. reflexivity. Qed.

Lemma Hides_hide t s : visible m' t = false -> Hides (rescan s) (emit t s).
Proof. intros H. unfold Hides. cbn. rewrite H. split; reflexivity. Qed.

  (** The test at the end of a branch. *)
Lemma Hides_branch (bits : Z) (k : M (Scanner C) (option Token)) s :
    (enabled m' bits = true -> enabled m bits = true) ->
    (enabled m' bits = true -> Hides (k s) (k s)) ->
    (enabled m' bits = false -> Hides (rescan s) (k s)) ->
    Hides ((if negb (enabled m' bits) then rescan else k) s)
         ((if negb (enabled m bits) then rescan else k) s).
Proof.
    intros H1 H2 H3.
    destruct (enabled m' bits) eqn:E'; cbn [negb].
    - rewrite (H1 eq_refl). cbn [negb]. apply H2. reflexivity.
    - destruct (enabled m bits); cbn [negb]; [apply H3; reflexivity | apply Hides_rescan].
Qed.

Lemma classify_Hides n s : Hides (classify R m' n s) (classify R m n s).
Proof.
    unfold classify.
    apply Hides_bind; intros ch s1. apply Hides_bind; intros pk s2.
    apply Hides_bind; intros _ s3.
    destruct ch as [ch|].
    2:{ do 3 (apply Hides_bind; intros). apply Hides_emit. reflexivity. }
    destruct (isWhitespace R ch).
    { apply Hides_bind; intros. apply Hides_bind; intros.
      apply Hides_branch; [apply (nr_whitespace Hnr) | |]; intros E;
        [apply Hides_emit | apply Hides_hide]; exact E. }
    destruct (isIdent R ch 0).
    { apply Hides_bind; intros. apply Hides_bind; intros.
      apply Hides_branch; [apply (nr_idents Hnr) | |]; intros E.
      - apply Hides_bind; intros. apply Hides_emit.
        destruct (isKeyword R x1); exact E.
      - unfold Hides, bind, gets. cbn.
        match goal with |- context [isKeyword R ?c] => destruct (isKeyword R c) end;
          unfold visible; rewrite E; split; reflexivity. }
    destruct (isStringDelimiter R ch).
    { apply Hides_bind; intros. apply Hides_bind; intros.
      apply Hides_branch; [apply (nr_strings Hnr) | |]; intros E;
        [apply Hides_emit | apply Hides_hide]; exact E. }
    destruct (isDecimal R ch || isSign R ch || _).
    { rewrite (nr_numbers Hnr).
      destruct (enabled m (js_or scanInts scanFloats)); cbn [negb];
        [|apply Hides_rescan].
      rewrite number_mode.
      pose proof (number_Numberish m n ch s3) as K. unfold Numberish, Hides in *.
      destruct (number R m n ch s3) as [s4 [[t|]|e|]]; cbn [snd] in *; try reflexivity.
      destruct K as [->|[->| ->]]; reflexivity. }
    destruct (isComment R ch 0 || isBlockCommentOpen R ch 0).
    { apply Hides_bind; intros. apply Hides_bind; intros.
      apply Hides_branch; [apply (nr_comments Hnr) | |]; intros E;
        [apply Hides_emit | apply Hides_hide]; exact E. }
    apply Hides_bind; intros. apply Hides_emit. reflexivity.
Qed.

End Masks.

Section MaskedRuns.
Variable R : Rules.

Local Abbreviation A := (Scanner (list N)).

  (** Two results that differ at most in a [currentToken] left over from
      before the call. *)
Definition Same {X} (r r' : A * Outcome X) : Prop :=
    snd r = snd r' /\ forget (fst r) = forget (fst r') /\
    (forall t, snd r = Ret t -> fst r = fst r').

Lemma Same_refl {X} (r : A * Outcome X) : Same r r.
Proof. repeat split; auto. Qed.

Lemma Same_trans {X} (r1 r2 r3 : A * Outcome X) : Same r1 r2 -> Same r2 r3 -> Same r1 r3.
Proof.
    intros (H1 & H2 & H3) (K1 & K2 & K3). repeat split; try congruence.
    intros t Ht. rewrite (H3 t Ht). apply (K3 t). congruence.
Qed.

Lemma scan_forget mode (a : A) :
    scan R mode (forget a) =
    (match snd (scan R mode a) with
     | Ret _ => fst (scan R mode a)
     | _ => forget (fst (scan R mode a))
     end, snd (scan R mode a)).
Proof.
    change (forget a) with (carry (fun c : list N => c) (fun _ => None) a).
    rewrite scan_carry; try reflexivity.
    unfold lift_scan. destruct (scan R mode a) as [[cur ln col cont ct sp] [t|e|]];
      reflexivity.
Qed.

  (** [scan] does not read the [currentToken] it finds. *)
Lemma scan_Same mode (a b : A) :
    forget a = forget b -> Same (scan R mode a) (scan R mode b).
Proof.
    intros H. pose proof (scan_forget mode a) as Ha.
    pose proof (scan_forget mode b) as Hb. rewrite H in Ha. rewrite Ha in Hb.
    injection Hb as H1 H2. unfold Same. rewrite H2 in *.
    destruct (snd (scan R mode b)) as [t|e|]; repeat split; congruence.
Qed.

Lemma iterate_Same mode n (a b : A) :
    Same (scan R mode a) (scan R mode b) ->
    iterate R mode (S n) a = iterate R mode (S n) b.
Proof.
    intros (H1 & H2 & H3). cbn [iterate].
    destruct (scan R mode a) as [a' [t|e|]], (scan R mode b) as [b' [t'|e'|]];
      cbn [fst snd] in *; try discriminate; try (injection H1 as ->); try reflexivity.
    rewrite (H3 t' eq_refl). reflexivity.
Qed.

Variables m m' : Z.
Hypothesis Hnr : Narrows m m'.

Lemma hidden_not_eof t : visible m' t = false -> t <> eof.
Proof. intros H ->. discriminate. Qed.

Lemma Token_at_shorter a t a' :
    Token_at a [] t a' -> t <> eof -> length (cursor a') < length (cursor a).
Proof.
    intros [_ H] Ht.
    destruct t; try contradiction;
      destruct H as (c & w & E & _); rewrite E; cbn; rewrite length_app; lia.
Qed.

Lemma forget_cursor (a b : A) : forget a = forget b -> cursor a = cursor b.
Proof. intros H. apply (f_equal (@cursor _)) in H. exact H. Qed.

Lemma scan_unfold_text mode (a : A) :
    scan R mode a =
    match classify R mode (length (cursor a)) a with
    | (a1, Ret (Some t)) => (a1, Ret t)
    | (a1, Ret None) => scan_fuel R mode (length (cursor a)) a1
    | (a1, Throw e) => (a1, Throw e)
    | (a1, Fuel) => (a1, Fuel)
    end.
Proof.
    unfold scan. cbn [unread text_Cursor scan_fuel]. unfold bind.
    destruct (classify R mode (length (cursor a)) a) as [a1 [[t|]|e|]]; reflexivity.
Qed.

  (** One [scan] under both masks. *)
Lemma scan_Hides L : forall a : A,
    length (cursor a) <= L ->
    match scan R m a with
    | (a1, Ret t) =>
        if visible m' t then scan R m' a = (a1, Ret t)
        else Same (scan R m' a) (scan R m' a1) /\
             length (cursor a1) < length (cursor a)
    | (a1, Throw e) => scan R m' a = (a1, Throw e)
    | (_, Fuel) => False
    end.
Proof.
    induction L as [|L IH]; intros a HL.
    - destruct a as [[|c l] ln col cont ct sp]; [|cbn in HL; lia]. reflexivity.
    - rewrite (scan_unfold_text m a), (scan_unfold_text m' a).
      pose proof (classify_Hides R Hnr (length (cursor a)) a) as G.
      pose proof (@classify_spec R m (length (cursor a)) a (le_n _)) as S.
      unfold wp, Hides in *.
      destruct (classify R m (length (cursor a)) a) as [a1 [[t|]|e|]];
        cbn [snd fst] in *.
      + destruct (visible m' t) eqn:V.
        * rewrite G. reflexivity.
        * destruct G as [G1 G2].
          destruct (classify R m' (length (cursor a)) a) as [a1' o'].
          cbn [fst snd] in *. subst o'.
          pose proof (Token_at_shorter S (@hidden_not_eof t V)) as Hs.
          split; [|exact Hs].
          rewrite scan_fuel_enough_text
            by (rewrite (forget_cursor G2); exact Hs).
          apply scan_Same. exact G2.
      + rewrite G. destruct S as (_ & w & Hs).
        pose proof (Skipped_shorter Hs) as Hl.
        rewrite !scan_fuel_enough_text by exact Hl.
        specialize (IH a1 ltac:(lia)).
        destruct (scan R m a1) as [a2 [t|e|]]; [|exact IH|exact IH].
        destruct (visible m' t); [exact IH|].
        destruct IH as [I1 I2]. split; [exact I1 | lia].
      + rewrite G. reflexivity.
      + contradiction.
Qed.

Lemma scan_shorter mode (a a' : A) t :
    scan R mode a = (a', Ret t) -> t <> eof -> length (cursor a') < length (cursor a).
Proof.
    intros Hs Ht. pose proof (scan_spec R mode a) as H. unfold wp in H.
    rewrite Hs in H. destruct H as (sk & _ & _ & H).
    destruct t; try contradiction;
      destruct H as (c & w & E & _); rewrite E, !length_app; cbn;
      rewrite length_app; lia.
Qed.

Lemma iterate_unfold mode n (a : A) :
    iterate R mode (S n) a =
    match scan R mode a with
    | (s', Ret t) =>
        if Token_eqb t eof then ([observe t s'], Finished)
        else let (l, e) := iterate R mode n s' in (observe t s' :: l, e)
    | (_, Throw e) => ([], Raised e)
    | (_, Fuel) => ([], Unfinished)
    end.
Proof. reflexivity. Qed.

Lemma iterate_filter n : forall (a : A) n',
    length (cursor a) < n -> length (cursor a) < n' ->
    fst (iterate R m' n' a) =
      filter (fun x => visible m' (lx_token x)) (fst (iterate R m n a)) /\
    snd (iterate R m' n' a) = snd (iterate R m n a).
Proof.
    induction n as [|n IH]; intros a n' Hn Hn'; [lia|].
    destruct n' as [|n']; [lia|].
    pose proof (scan_Hides a (le_n _)) as G.
    rewrite (iterate_unfold m n a).
    destruct (scan R m a) as [a1 [t|e|]] eqn:Es.
    - destruct (visible m' t) eqn:V.
      + cbn [iterate]. rewrite G.
        destruct (Token_eqb t eof) eqn:Et.
        * cbn. rewrite V. auto.
        * assert (Ht : t <> eof).
          { intros ->. discriminate. }
          pose proof (@scan_shorter m a a1 t Es Ht) as Hs.
          destruct (IH a1 n' ltac:(lia) ltac:(lia)) as [I1 I2].
          destruct (iterate R m' n' a1) as [l' e'], (iterate R m n a1) as [l e].
          cbn in *. rewrite V. cbn. split; congruence.
      + destruct G as [G _].
        pose proof (@hidden_not_eof t V) as Ht.
        pose proof (@scan_shorter m a a1 t Es Ht) as Hs.
        rewrite (@iterate_Same m' n' a a1 G).
        destruct (Token_eqb t eof) eqn:Et;
          [apply Token_eqb_eq in Et; contradiction|].
        destruct (IH a1 (S n') ltac:(lia) ltac:(lia)) as [I1 I2].
        destruct (iterate R m' (S n') a1) as [l' e'], (iterate R m n a1) as [l e].
        cbn in *. rewrite V. auto.
    - cbn [iterate]. rewrite G. auto.
    - contradiction.
Qed.

End MaskedRuns.

Lemma Narrows_refl m : Narrows m m.
Proof. split; auto. Qed.

(** Every token [scan] returns is one its mask lets through. *)
Lemma classify_visible {C} {CC : Cursor C} R m n (s s' : Scanner C) t :
  classify R m n s = (s', Ret (Some t)) -> visible m t = true.
Proof.
  intros H. pose proof (classify_Hides R (Narrows_refl m) n s) as G.
  unfold Hides in G. rewrite H in G. cbn [snd] in G.
  destruct (visible m t); [reflexivity|]. destruct G as [G _]. discriminate.
Qed.

Lemma scan_fuel_visible {C} {CC : Cursor C} R m n : forall (s s' : Scanner C) t,
  scan_fuel R m n s = (s', Ret t) -> visible m t = true.
Proof.
  induction n as [|n IH]; intros s s' t H; [discriminate|].
  cbn [scan_fuel] in H. unfold bind in H.
  destruct (classify R m n s) as [s1 [[t1|]|e|]] eqn:E; try discriminate.
  - injection H as _ <-. eapply classify_visible; eauto.
  - eapply IH; eauto.
Qed.

Lemma iterate_visible {C} {CC : Cursor C} R m n : forall s : Scanner C,
  Forall (fun x => visible m (lx_token x) = true) (fst (iterate R m n s)).
Proof.
  induction n as [|n IH]; intros s; [constructor|].
  cbn [iterate]. destruct (scan R m s) as [s' [t|e|]] eqn:E; try constructor.
  assert (V : visible m t = true) by (eapply scan_fuel_visible; exact E).
  destruct (Token_eqb t eof).
  - repeat constructor. exact V.
  - specialize (IH s'). destruct (iterate R m n s') as [l e].
    constructor; [exact V | exact IH].
Qed.

(** Narrowing the mask filters the token stream. *)
Lemma tokens_filter R m m' (s : Scanner Input) :
  Narrows m m' ->
  fst (tokens R m' s) =
    filter (fun x => visible m' (lx_token x)) (fst (tokens R m s)) /\
  snd (tokens R m' s) = snd (tokens R m s).
Proof.
  intros Hnr. rewrite <- (tokens_view R m' s), <- (tokens_view R m s).
  unfold tokens. apply iterate_filter; [exact Hnr | |]; cbn; lia.
Qed.

(** The categories that can be switched off one at a time. *)
Inductive Category : Type := Whitespace | Identifiers | Strings | Comments.

Definition category_bits (c : Category) : Z :=
  match c with
  | Whitespace => scanWhitespace
  | Identifiers => scanIdents
  | Strings => scanStrings
  | Comments => scanComments
  end.

(** The tokens a category's bit lets through: [scanIdents] stands for
    identifiers and keywords. *)
Definition in_category (c : Category) (t : Token) : bool :=
  match c, t with
  | Whitespace, whitespace => true
  | Identifiers, identifier => true
  | Identifiers, keyword => true
  | Strings, string_ => true
  | Comments, comment => true
  | _, _ => false
  end.

(** Every test the scanner makes on its mask. *)
Definition mask_tests : list Z :=
  [scanWhitespace; scanIdents; scanStrings; scanComments; scanFloats;
   js_or scanInts scanFloats].

(** [m] enables category [c], [m'] disables it, and they agree on every
    other test. *)
Record Disables (c : Category) (m m' : Z) : Prop := {
  ds_on : enabled m (category_bits c) = true;
  ds_off : enabled m' (category_bits c) = false;
  ds_rest : forall bits, In bits mask_tests -> bits <> category_bits c ->
                         enabled m' bits = enabled m bits
}.

Lemma In_scanWhitespace : In scanWhitespace mask_tests.
Proof. left. reflexivity. Qed.
Lemma In_scanIdents : In scanIdents mask_tests.
Proof. right. left. reflexivity. Qed.
Lemma In_scanStrings : In scanStrings mask_tests.
Proof. do 2 right. left. reflexivity. Qed.
Lemma In_scanComments : In scanComments mask_tests.
Proof. do 3 right. left. reflexivity. Qed.
Lemma In_scanFloats : In scanFloats mask_tests.
Proof. do 4 right. left. reflexivity. Qed.
Lemma In_scanNumbers : In (js_or scanInts scanFloats) mask_tests.
Proof. do 5 right. left. reflexivity. Qed.

Ltac in_tests :=
  first [ exact In_scanWhitespace | exact In_scanIdents | exact In_scanStrings
        | exact In_scanComments | exact In_scanFloats | exact In_scanNumbers ].

Lemma Disables_Narrows c m m' : Disables c m m' -> Narrows m m'.
Proof.
  intros [Hon Hoff Hrest].
  assert (K : forall bits, In bits mask_tests ->
                           enabled m' bits = true -> enabled m bits = true).
  { intros bits Hin Ht.
    destruct (Z.eq_dec bits (category_bits c)) as [->|Hne]; [exact Hon|].
    rewrite <- (Hrest bits Hin Hne). exact Ht. }
  split; try (apply K; in_tests);
    (apply Hrest; [in_tests | destruct c; vm_compute; discriminate]).
Qed.

Lemma Disables_visible c m m' t :
  Disables c m m' -> visible m t = true ->
  visible m' t = negb (in_category c t).
Proof.
  intros [Hon Hoff Hrest] V.
  destruct c, t; cbn [visible in_category negb category_bits] in *;
    lazymatch goal with
    | |- true = true => reflexivity
    | |- enabled m' _ = false => exact Hoff
    | |- enabled m' _ = true =>
        rewrite Hrest; [exact V | in_tests | vm_compute; discriminate]
    end.
Qed.




(* ================================================================== *)
(** * Which inputs make [scan] throw *)

Section NoThrow.
Context {C : Type} {CC : Cursor C}.
Variable R : Rules.
Variable mode : Z.

  (** A computation that never throws. *)
Definition NoThrow {A} (m : M (Scanner C) A) : Prop :=
    forall s e, snd (m s) <> Throw e.

Lemma NoThrow_ret {A} (x : A) : NoThrow (@ret (Scanner C) A x).
Proof. intros s e. discriminate. Qed.

Lemma NoThrow_fuel {A} : NoThrow (@out_of_fuel (Scanner C) A).
Proof. intros s e. discriminate. Qed.

Lemma NoThrow_modify f : NoThrow (@modify (Scanner C) f).
Proof. intros s e. discriminate. Qed.

Lemma NoThrow_gets {A} (f : Scanner C -> A) : NoThrow (gets f).
Proof. intros s e. discriminate. Qed.

Lemma NoThrow_peek : NoThrow peek.
Proof. intros s e. unfold peek. destruct (cpeek (cursor s)). discriminate. Qed.

Lemma NoThrow_bind {A B} (m : M (Scanner C) A) (k : A -> M (Scanner C) B) :
    NoThrow m -> (forall x, NoThrow (k x)) -> NoThrow (bind m k).
Proof.
    intros Hm Hk s e. unfold bind. specialize (Hm s).
    destruct (m s) as [s1 [x|e1|]]; cbn [snd] in *.
    - apply Hk.
    - exfalso. apply (Hm e1). reflexivity.
    - discriminate.
Qed.

Ltac nothrow IH :=
    repeat first
      [ apply NoThrow_ret | apply NoThrow_fuel | apply NoThrow_modify
      | apply NoThrow_gets | apply NoThrow_peek | apply IH
      | apply NoThrow_bind; [|intros ?]
      | match goal with
        | |- NoThrow (match ?x with _ => _ end) => destruct x
        end ].

Lemma NoThrow_next : NoThrow next.
Proof. unfold next. nothrow NoThrow_peek. Qed.

Lemma NoThrow_append_next : NoThrow append_next.
Proof. unfold append_next. nothrow NoThrow_next. Qed.

Lemma NoThrow_emit t : NoThrow (emit t).
Proof. unfold emit. nothrow NoThrow_peek. Qed.

Lemma whitespace_loop_NoThrow n : NoThrow (whitespace_loop R n).
Proof.
    induction n as [|n IH]; cbn [whitespace_loop]; nothrow NoThrow_append_next;
      nothrow IH.
Qed.

Lemma ident_loop_NoThrow n : forall i, NoThrow (ident_loop R n i).
Proof.
    induction n as [|n IH]; intros i; cbn [ident_loop];
      nothrow NoThrow_append_next; nothrow IH.
Qed.

Lemma exponent_loop_NoThrow n : NoThrow (exponent_loop R n).
Proof.
    induction n as [|n IH]; cbn [exponent_loop]; nothrow NoThrow_append_next;
      nothrow IH.
Qed.

Lemma fraction_loop_NoThrow n : forall ch i, NoThrow (fraction_loop R n ch i).
Proof.
    induction n as [|n IH]; intros ch i; cbn [fraction_loop];
      nothrow NoThrow_append_next; nothrow IH.
Qed.

Lemma int_loop_NoThrow n : forall ch check i, NoThrow (int_loop R mode n ch check i).
Proof.
    induction n as [|n IH]; intros ch check i; cbn [int_loop];
      nothrow NoThrow_append_next; nothrow IH.
Qed.

  (** A line comment never throws. *)
Lemma comment_loop_NoThrow n : forall i, NoThrow (comment_loop R n false i).
Proof.
    induction n as [|n IH]; intros i; cbn [comment_loop negb andb];
      nothrow NoThrow_append_next; nothrow IH.
Qed.

Lemma number_NoThrow n ch : NoThrow (number R mode n ch).
Proof.
    unfold number.
    repeat first
      [ apply NoThrow_ret | apply NoThrow_modify | apply NoThrow_gets
      | apply NoThrow_peek | apply NoThrow_append_next | apply NoThrow_emit
      | apply int_loop_NoThrow | apply fraction_loop_NoThrow
      | apply exponent_loop_NoThrow
      | apply NoThrow_bind; [|intros ?]
      | match goal with
        | |- NoThrow (match ?x with _ => _ end) => destruct x
        end ].
Qed.

  (** The end of a branch: go round again or commit. *)
Lemma guard_NoThrow (b : bool) (k : M (Scanner C) (option Token)) :
    NoThrow k -> NoThrow (if b then rescan else k).
Proof. intros H. destruct b; [apply NoThrow_ret | exact H]. Qed.

Lemma scan_unfold (s : Scanner C) :
    scan R mode s =
    match classify R mode (length (unread (cursor s))) s with
    | (s1, Ret (Some t)) => (s1, Ret t)
    | (s1, Ret None) => scan_fuel R mode (length (unread (cursor s))) s1
    | (s1, Throw e) => (s1, Throw e)
    | (s1, Fuel) => (s1, Fuel)
    end.
Proof.
    unfold scan. cbn [scan_fuel]. unfold bind.
    destruct (classify R mode (length (unread (cursor s))) s) as [s1 [[t|]|e|]];
      reflexivity.
Qed.

End NoThrow.

(** The branch of [scan] a first character selects, in priority order. *)
Inductive Branch : Type :=
| InWhitespace | InIdent | InString | InNumber | InComment | InOther.

Definition dispatch (R : Rules) (ch : N) (pk : option N) : Branch :=
  if isWhitespace R ch then InWhitespace
  else if isIdent R ch 0 then InIdent
  else if isStringDelimiter R ch then InString
  else if isDecimal R ch || isSign R ch ||
          (ch_eqb ch "." && match pk with Some p => isDecimal R p | None => false end)
  then InNumber
  else if isComment R ch 0 || isBlockCommentOpen R ch 0 then InComment
  else InOther.

(** A comment that starts with the block opener at two consecutive
    positions. *)
Definition opens_block (R : Rules) (ch : N) (pk : option N) : bool :=
  match pk with
  | Some p => isBlockCommentOpen R ch 0 && isBlockCommentOpen R p 1
  | None => false
  end.

(** The content of a string literal reaches a raw newline or the end of
    the source before its closing delimiter; a backslash immediately
    followed by the delimiter is an escaped delimiter and closes nothing. *)
Fixpoint literal_unterminated (delim : N) (body : list N) : bool :=
  match body with
  | [] => true
  | c :: rest =>
      if ch_eqb c LF then true
      else if N.eqb c delim then false
      else if ch_eqb c BACKSLASH then
        match rest with
        | c' :: rest' =>
            if N.eqb c' delim then literal_unterminated delim rest'
            else literal_unterminated delim rest
        | [] => true
        end
      else literal_unterminated delim rest
  end.

(** A block comment reaches the end of the source before the block-close
    predicate holds at two consecutive positions. *)
Fixpoint block_unterminated (R : Rules) (body : list N) : bool :=
  match body with
  | [] => true
  | c :: rest =>
      match rest with
      | p :: _ =>
          if isBlockCommentClose R c 0 && isBlockCommentClose R p 1 then false
          else block_unterminated R rest
      | [] => true
      end
  end.

(** The text starts with an unterminated string literal ([e] the literal
    error) or an unterminated block comment ([e] the comment error). *)
Definition Unterminated (R : Rules) (src : list N) (e : Exn) : Prop :=
  exists c rest,
    src = c :: rest /\
    ((dispatch R c (hd_error rest) = InString /\
      literal_unterminated c rest = true /\ e = literal_error) \/
     (dispatch R c (hd_error rest) = InComment /\
      opens_block R c (hd_error rest) = true /\
      block_unterminated R rest = true /\ e = comment_error)).

(** [Unterminated] as a function. *)
Definition malformed (R : Rules) (src : list N) : option Exn :=
  match src with
  | [] => None
  | c :: rest =>
      match dispatch R c (hd_error rest) with
      | InString => if literal_unterminated c rest then Some literal_error else None
      | InComment =>
          if opens_block R c (hd_error rest) && block_unterminated R rest
          then Some comment_error else None
      | _ => None
      end
  end.

Lemma malformed_Unterminated R src e : malformed R src = Some e <-> Unterminated R src e.
Proof.
  unfold malformed, Unterminated. split.
  - destruct src as [|c rest]; [discriminate|]. intros H. exists c, rest.
    split; [reflexivity|].
    destruct (dispatch R c (hd_error rest)); try discriminate.
    + destruct (literal_unterminated c rest); [|discriminate].
      injection H as <-. left. auto.
    + destruct (opens_block R c (hd_error rest)); [|discriminate].
      destruct (block_unterminated R rest); [|discriminate].
      injection H as <-. right. auto.
  - intros (c & rest & -> & [(H1 & H2 & ->)|(H1 & H2 & H3 & ->)]).
    + rewrite H1, H2. reflexivity.
    + rewrite H1, H2, H3. reflexivity.
Qed.

Section Raising.
Variable R : Rules.
Variable mode : Z.

Local Abbreviation A := (Scanner (list N)).

  (** A computation that neither throws nor exhausts its bound. *)
Definition Quiet {X} (m : M A X) (a : A) : Prop :=
    wp m (fun _ a' => exists w, Ate a w a') (fun _ _ => False) a.

Lemma Eats_Quiet {X} (m : M A X) a : Eats m a -> NoThrow m -> Quiet m a.
Proof.
    intros He Hn. unfold Quiet, Eats, wp in *. specialize (Hn a).
    destruct (m a) as [a' [x|e|]]; [exact He | | exact He].
    apply (Hn e). reflexivity.
Qed.

  (** [string_loop] throws exactly on an unterminated literal. *)
Lemma string_loop_raises n : forall d a,
    length (cursor a) < n ->
    wp (string_loop n d)
       (fun _ _ => literal_unterminated d (cursor a) = false)
       (fun e _ => e = literal_error /\ literal_unterminated d (cursor a) = true) a.
Proof.
    induction n as [|n IH]; intros d a Hn; [lia|].
    cbn [string_loop]. apply wp_bind, wp_peek.
    destruct (cursor a) as [|c l] eqn:Hc; cbn [hd_error literal_unterminated].
    { apply wp_throw. auto. }
    destruct (ch_eqb c LF) eqn:Enl. { apply wp_throw. auto. }
    apply wp_bind. eapply wp_append_next_cons; [exact Hc|]. intros a1 H1.
    assert (Hc1 : cursor a1 = l).
    { destruct H1 as [K _ _ _ _]. rewrite Hc in K. injection K as <-. reflexivity. }
    assert (Hn1 : length (cursor a1) < n) by (rewrite Hc1; cbn in Hn; lia).
    apply wp_bind.
    destruct (ch_eqb c BACKSLASH) eqn:Ebs.
    - apply wp_bind, wp_peek. rewrite Hc1.
      destruct l as [|c' l']; cbn [hd_error].
      + apply wp_ret. destruct (N.eqb c d); [apply wp_ret; reflexivity|].
        eapply wp_conseq; [apply (IH d a1 Hn1) | |]; rewrite Hc1; cbn; auto.
      + destruct (N.eqb c' d) eqn:Ed'.
        * eapply wp_append_next_cons; [exact Hc1|]. intros a2 H2.
          assert (Hc2 : cursor a2 = l').
          { destruct H2 as [K _ _ _ _]. rewrite Hc1 in K. injection K as <-. reflexivity. }
          destruct (N.eqb c d); [apply wp_ret; reflexivity|].
          eapply wp_conseq; [apply (IH d a2) | |]; rewrite ?Hc2; cbn in *; auto; lia.
        * apply wp_ret. destruct (N.eqb c d); [apply wp_ret; reflexivity|].
          eapply wp_conseq; [apply (IH d a1 Hn1) | |]; rewrite Hc1; auto.
    - apply wp_ret. destruct (N.eqb c d); [apply wp_ret; reflexivity|].
      eapply wp_conseq; [apply (IH d a1 Hn1) | |]; rewrite Hc1; auto.
Qed.

  (** [comment_loop] in a block comment throws exactly when the comment is
      not closed. *)
Lemma comment_loop_raises n : forall i a,
    length (cursor a) < n ->
    wp (comment_loop R n true i)
       (fun _ _ => block_unterminated R (cursor a) = false)
       (fun e _ => e = comment_error /\ block_unterminated R (cursor a) = true) a.
Proof.
    induction n as [|n IH]; intros i a Hn; [lia|].
    cbn [comment_loop negb andb]. apply wp_bind, wp_peek.
    destruct (cursor a) as [|c l] eqn:Hc; cbn [hd_error block_unterminated].
    { destruct a as [cur ln col cont ct sp]. cbn in Hc. subst cur.
      unfold wp. cbn. auto. }
    apply wp_bind. eapply wp_append_next_cons; [exact Hc|]. intros a1 H1.
    assert (Hc1 : cursor a1 = l).
    { destruct H1 as [K _ _ _ _]. rewrite Hc in K. injection K as <-. reflexivity. }
    assert (Hn1 : length (cursor a1) < n) by (rewrite Hc1; cbn in Hn; lia).
    apply wp_bind, wp_peek. rewrite Hc1.
    destruct l as [|p l']; cbn [hd_error].
    - eapply wp_conseq; [apply (IH (i + 1) a1 Hn1) | |]; rewrite Hc1; cbn; auto.
    - destruct (isBlockCommentClose R c 0 && isBlockCommentClose R p 1).
      + eapply wp_append_next_cons; [exact Hc1|]. intros a2 H2. reflexivity.
      + eapply wp_conseq; [apply (IH (i + 1) a1 Hn1) | |]; rewrite Hc1; auto.
Qed.

Lemma wp_calm {X} (m : M A X) Q E (Q' : X -> A -> Prop) (E' : Exn -> A -> Prop) a :
    wp m Q E a -> NoThrow m -> (forall x a', Q' x a') -> wp m Q' E' a.
Proof.
    intros H Hn HQ. unfold wp in *. specialize (Hn a).
    destruct (m a) as [a' [x|e|]]; [apply HQ | | exact H].
    exfalso. apply (Hn e). reflexivity.
Qed.

Lemma branch_NoThrow {X} (loop : M A X) (b : bool) (k : M A (option Token)) t :
    NoThrow loop -> NoThrow k ->
    NoThrow (modify (set_contents t) ;; loop ;; if b then rescan else k).
Proof.
    intros Hl Hk. apply NoThrow_bind; [apply NoThrow_modify|]. intros _.
    apply NoThrow_bind; [exact Hl|]. intros _. apply guard_NoThrow. exact Hk.
Qed.

  (** What a call of [classify] does, told from the unread text alone: it
      throws [e] exactly when the text starts with an unterminated string
      literal or block comment. *)
Lemma classify_raises n a :
    length (cursor a) <= n ->
    wp (classify R mode n)
       (fun _ _ => malformed R (cursor a) = None)
       (fun e _ => malformed R (cursor a) = Some e) a.
Proof.
    intros Hn. destruct (cursor a) as [|c l] eqn:Hc.
    - destruct a as [cur ln col cont ct sp]. cbn in Hc. subst cur. reflexivity.
    - unfold classify. apply wp_bind. eapply wp_next_cons; [exact Hc|].
      intros a1 [S1 S2 S3 S4 S5].
      assert (Hc1 : cursor a1 = l).
      { rewrite Hc in S1. injection S1 as <-. reflexivity. }
      apply wp_bind, wp_peek. rewrite Hc1. apply wp_bind, wp_modify.
      set (a2 := set_startPos (line a1, column a1) a1).
      assert (Hc2 : cursor (set_contents [c] a2) = l) by exact Hc1.
      assert (Hn2 : length (cursor (set_contents [c] a2)) < n).
      { rewrite Hc2. cbn in Hn. lia. }
      assert (Hc2' : cursor a2 = l) by exact Hc1.
      assert (HM : Marked a c a2).
      { subst a2. split; cbn; auto. }
      clearbody a2.
      unfold malformed, dispatch. cbn [hd_error].
      destruct (isWhitespace R c).
      { eapply wp_calm; [eapply branch_spec with (a := a); eauto | | reflexivity].
        - apply whitespace_loop_Eats; exact Hn2.
        - apply all_enabled_false_1.
        - apply Commits_emit. discriminate.
        - apply branch_NoThrow; [apply whitespace_loop_NoThrow | apply NoThrow_emit]. }
      destruct (isIdent R c 0).
      { eapply wp_calm; [eapply branch_spec with (a := a); eauto | | reflexivity].
        - apply ident_loop_Eats; exact Hn2.
        - apply all_enabled_false_2.
        - intros a4. apply wp_bind, wp_gets.
          destruct (isKeyword R (contents a4)); apply Commits_emit; discriminate.
        - apply branch_NoThrow; [apply ident_loop_NoThrow|].
          apply NoThrow_bind; [apply NoThrow_gets | intros; apply NoThrow_emit]. }
      destruct (isStringDelimiter R c).
      { apply wp_bind, wp_modify. apply wp_bind.
        eapply wp_conseq; [apply string_loop_raises; exact Hn2 | |];
          rewrite Hc2.
        - intros _ a4 ->.
          destruct (negb (enabled mode scanStrings)); reflexivity.
        - intros e a4 [-> ->]. reflexivity. }
      destruct (isDecimal R c || isSign R c || _).
      { destruct (negb (enabled mode (js_or scanInts scanFloats))); [reflexivity|].
        eapply wp_calm; [eapply number_spec; eauto | apply number_NoThrow | reflexivity]. }
      destruct (isComment R c 0 || isBlockCommentOpen R c 0).
      { change (match hd_error l with
                | Some p => isBlockCommentOpen R c 0 && isBlockCommentOpen R p 1
                | None => false
                end) with (opens_block R c (hd_error l)).
        destruct (opens_block R c (hd_error l)); cbn [andb].
        - apply wp_bind, wp_modify. apply wp_bind.
          eapply wp_conseq; [apply comment_loop_raises; exact Hn2 | |];
            rewrite Hc2.
          + intros _ a4 ->.
            destruct (negb (enabled mode scanComments)); reflexivity.
          + intros e a4 [-> ->]. reflexivity.
        - eapply wp_calm; [eapply branch_spec with (a := a); eauto | | reflexivity].
          + apply comment_loop_Eats; exact Hn2.
          + apply all_enabled_false_5.
          + apply Commits_emit. discriminate.
          + apply branch_NoThrow; [apply comment_loop_NoThrow | apply NoThrow_emit]. }
      apply wp_bind, wp_modify. reflexivity.
Qed.

End Raising.

(** [scan] called on [s] goes round to [s0]: the tokens of disabled
    categories in between are consumed and not returned. *)
Inductive Rescans (R : Rules) (mode : Z) : Scanner Input -> Scanner Input -> Prop :=
| Rescans_here s : Rescans R mode s s
| Rescans_skip s s1 s0 :
    classify R mode (length (unread (cursor s))) s = (s1, Ret None) ->
    Rescans R mode s1 s0 ->
    Rescans R mode s s0.

Lemma classify_raises_Input R mode n (s : Scanner Input) :
  length (unread (cursor s)) <= n ->
  match snd (classify R mode n s) with
  | Ret _ => malformed R (unread (cursor s)) = None
  | Throw e => malformed R (unread (cursor s)) = Some e
  | Fuel => False
  end.
Proof.
  intros Hn. pose proof (@classify_raises R mode n (view s) Hn) as H.
  unfold wp in H. rewrite classify_view in H. exact H.
Qed.

Lemma classify_rescan_shorter R mode n (s s1 : Scanner Input) :
  length (unread (cursor s)) <= n ->
  classify R mode n s = (s1, Ret None) ->
  length (unread (cursor s1)) < length (unread (cursor s)).
Proof.
  intros Hn Hs. pose proof (@classify_spec R mode n (view s) Hn) as H.
  unfold wp in H. rewrite classify_view, Hs in H. cbn [fst snd] in H.
  destruct H as (_ & w & Hw). apply (Skipped_shorter Hw).
Qed.

Lemma scan_raises_bounded R mode L : forall (s : Scanner Input) e,
  length (unread (cursor s)) <= L ->
  (snd (scan R mode s) = Throw e <->
   exists s0, Rescans R mode s s0 /\ malformed R (unread (cursor s0)) = Some e).
Proof.
  induction L as [|L IH]; intros s e HL.
  - pose proof (classify_raises_Input R mode s (le_n _)) as Hr.
    rewrite scan_unfold.
    destruct (classify R mode (length (unread (cursor s))) s) as [s1 [[t|]|e1|]] eqn:E;
      cbn [snd] in *.
    + split; [discriminate|]. intros (s0 & Hs0 & Hm). exfalso.
      inversion Hs0; subst; congruence.
    + pose proof (classify_rescan_shorter R mode s (le_n _) E). lia.
    + split.
      * intros [= ->]. exists s. split; [constructor | exact Hr].
      * intros (s0 & Hs0 & Hm). inversion Hs0; subst; congruence.
    + contradiction.
  - pose proof (classify_raises_Input R mode s (le_n _)) as Hr.
    rewrite scan_unfold.
    destruct (classify R mode (length (unread (cursor s))) s) as [s1 [[t|]|e1|]] eqn:E;
      cbn [snd] in *.
    + split; [discriminate|]. intros (s0 & Hs0 & Hm). exfalso.
      inversion Hs0; subst; congruence.
    + pose proof (classify_rescan_shorter R mode s (le_n _) E) as Hl.
      rewrite scan_fuel_enough by exact Hl.
      rewrite (IH s1 e) by lia. split.
      * intros (s0 & Hs0 & Hm). exists s0. split; [|exact Hm].
        eapply Rescans_skip; eauto.
      * intros (s0 & Hs0 & Hm). inversion Hs0; subst; [congruence|].
        exists s0. split; [|exact Hm]. congruence.
    + split.
      * intros [= ->]. exists s. split; [constructor | exact Hr].
      * intros (s0 & Hs0 & Hm). inversion Hs0; subst; congruence.
    + contradiction.
Qed.

Lemma lexical_errors_differ : literal_error <> comment_error.
Proof. discriminate. Qed.

(** C5: [scan()] throws exactly when, at the point where it starts on a
    token (after the tokens of disabled categories it went round for), the
    text starts with a string literal that reaches a raw newline or the end
    of the source before its closing delimiter, and then it throws the
    literal error, or with a block comment that reaches the end of the
    source before its closing marker, and then it throws the comment error;
    nothing else makes it throw. *)
Theorem scan_raises_iff R mode (s : Scanner Input) e :
  snd (scan R mode s) = Throw e <->
  exists s0, Rescans R mode s s0 /\ Unterminated R (unread (cursor s0)) e.
Proof.
  rewrite (@scan_raises_bounded R mode _ s e (le_n _)).
  split; intros (s0 & H1 & H2); exists s0; (split; [exact H1|]);
    apply malformed_Unterminated; exact H2.
Qed.

(* ================================================================== *)
(** * Numeric literals *)

Lemma enabled_floats_or_ints mode :
  enabled mode scanFloats = true -> enabled mode (js_or scanInts scanFloats) = true.
Proof.
  unfold enabled, truthy, js_and. intros H.
  change (int32 (js_or scanInts scanFloats)) with 402653184%Z.
  change (int32 scanFloats) with 134217728%Z in H.
  apply negb_true_iff in H. apply negb_true_iff.
  apply Z.eqb_neq in H. apply Z.eqb_neq. intros K. apply H.
  change 134217728%Z with (Z.land 402653184 134217728).
  rewrite Z.land_assoc, K. reflexivity.
Qed.

Section Numbers.
Variable R : Rules.
Variable mode : Z.

Local Abbreviation A := (Scanner (list N)).

  (** A first character that selects the numeric branch, with numbers
      enabled, hands over to [number]. *)
Lemma wp_classify_number (Q : option Token -> A -> Prop) E n a c l :
    cursor a = c :: l ->
    dispatch R c (hd_error l) = InNumber ->
    enabled mode (js_or scanInts scanFloats) = true ->
    (forall a2, Marked a c a2 -> cursor a2 = l -> wp (number R mode n c) Q E a2) ->
    wp (classify R mode n) Q E a.
Proof.
    intros Hc Hd Hg Hk. unfold classify. apply wp_bind.
    eapply wp_next_cons; [exact Hc|]. intros a1 [S1 S2 S3 S4 S5].
    assert (Hc1 : cursor a1 = l).
    { rewrite Hc in S1. injection S1 as <-. reflexivity. }
    apply wp_bind, wp_peek. rewrite Hc1. apply wp_bind, wp_modify.
    unfold dispatch in Hd.
    destruct (isWhitespace R c); [discriminate|].
    destruct (isIdent R c 0); [discriminate|].
    destruct (isStringDelimiter R c); [discriminate|].
    destruct (isDecimal R c || isSign R c || _); [|destruct (_ || _); discriminate].
    rewrite Hg. cbn [negb]. apply Hk; [|exact Hc1].
    split; cbn; auto.
Qed.

Lemma wp_scan_of_classify (Q : Token -> A -> Prop) E a :
    wp (classify R mode (length (cursor a)))
       (fun r a' => exists t, r = Some t /\ Q t a') E a ->
    wp (scan R mode) Q E a.
Proof.
    intros H. unfold wp in *. rewrite scan_unfold_text.
    destruct (classify R mode (length (cursor a)) a) as [a1 [r|e|]];
      [|exact H|exact H].
    destruct H as (t & -> & H). exact H.
Qed.

End Numbers.

Section DefaultNumbers.
Variable mode : Z.

Local Abbreviation A := (Scanner (list N)).

  (** A character that would carry the literal on after its first
      character: a decimal digit, a point, a base marker or an exponent
      marker. *)
Definition extends_literal (p : N) : bool :=
    ch_eqb p "." || Default.isDecimal p || Default.isHex p 1 || Default.isOctal p 1 ||
    Default.isBinary p 1 || Default.isENotation p.

  (** The text after the first character does not carry the literal on. *)
Definition stops_literal (rest : list N) : Prop :=
    match rest with
    | [] => True
    | p :: _ => extends_literal p = false
    end.

Lemma isSign_cases c : Default.isSign c = true -> c = code "+" \/ c = code "-".
Proof.
    unfold Default.isSign, ch_eqb. intros H. apply orb_true_iff in H.
    destruct H as [H|H]; apply N.eqb_eq in H; auto.
Qed.

Lemma classify_lone_sign n a c rest :
    Default.isSign c = true -> stops_literal rest ->
    enabled mode (js_or scanInts scanFloats) = true ->
    cursor a = c :: rest -> length (cursor a) <= n ->
    wp (classify defaultRules mode n)
       (fun r a' => exists t, r = Some t /\ t = token /\ contents a' = [c] /\
                              cursor a' = rest)
       (fun _ _ => False) a.
Proof.
    intros Hs Hrest Hg Hc Hn.
    assert (Hdot : ch_eqb c "." = false).
    { destruct (isSign_cases _ Hs) as [->| ->]; reflexivity. }
    eapply wp_classify_number; [exact Hc | | exact Hg |].
    { destruct (isSign_cases _ Hs) as [->| ->]; reflexivity. }
    intros a2 HM Hc2. unfold number. apply wp_bind, wp_modify.
    set (a3 := set_contents [c] a2).
    assert (Hc3 : cursor a3 = rest) by exact Hc2.
    assert (Hk3 : contents a3 = [c]) by reflexivity.
    clearbody a3. rewrite Hdot. cbn [negb].
    destruct n as [|n]; [rewrite Hc in Hn; cbn in Hn; lia|].
    cbn [int_loop].
    assert (Hfinal :
      wp (t <- gets (@contents (list N));;
          (if Nat.eqb (length t) 1 && is_sign_text defaultRules t
           then emit token else emit (if false then float else int)))
         (fun r a' => exists t, r = Some t /\ t = token /\ contents a' = [c] /\
                                cursor a' = rest)
         (fun _ _ => False) a3).
    { apply wp_bind, wp_gets. rewrite Hk3. cbn [length Nat.eqb is_sign_text andb].
      change (isSign defaultRules c) with (Default.isSign c). rewrite Hs.
      exists token. repeat split; assumption. }
    apply wp_bind. apply wp_bind, wp_peek. rewrite Hc3.
    destruct rest as [|p rest']; cbn [hd_error].
    - apply wp_ret. apply wp_bind, wp_ret. apply wp_bind, wp_peek.
      rewrite Hc3. cbn [hd_error]. apply wp_bind, wp_ret. exact Hfinal.
    - cbn in Hrest. unfold extends_literal in Hrest.
      repeat (apply orb_false_iff in Hrest; destruct Hrest as [Hrest ?]).
      rewrite Hrest. cbn [andb].
      unfold choose_check.
      change (isHex defaultRules p 1) with (Default.isHex p 1).
      change (isOctal defaultRules p 1) with (Default.isOctal p 1).
      change (isBinary defaultRules p 1) with (Default.isBinary p 1).
      change (isDecimal defaultRules p) with (Default.isDecimal p).
      repeat match goal with H : _ = false |- _ => rewrite H; clear H end.
      apply wp_ret. apply wp_bind, wp_ret. apply wp_bind, wp_peek.
      rewrite Hc3. cbn [hd_error].
      change (isENotation defaultRules p) with (Default.isENotation p).
      repeat match goal with H : _ = false |- _ => rewrite H; clear H end.
      cbn [andb]. apply wp_bind, wp_ret. exact Hfinal.
Qed.

  (** A digit of a hex literal (past its [0x]), and a decimal digit. *)
Definition hex_digit (c : N) : Prop := Default.isHex c 2 = true.
Definition decimal_digit (c : N) : Prop := Default.isDecimal c = true.

  (** The text after the fraction neither carries the fraction on nor
      starts an exponent. *)
Definition stops_fraction (rest : list N) : Prop :=
    match rest with
    | [] => True
    | p :: _ => Default.isDecimal p = false /\ Default.isENotation p = false
    end.

Lemma isHex_past_marker c i : 2 <= i -> Default.isHex c i = Default.isHex c 2.
Proof. intros H. destruct i as [|[|i]]; [lia | lia | reflexivity]. Qed.

Lemma hex_digit_not_point c : Default.isHex c 2 = true -> ch_eqb c "." = false.
Proof.
    intros H. destruct (ch_eqb c ".") eqn:E; [|reflexivity].
    apply N.eqb_eq in E. subst c. discriminate H.
Qed.

Lemma hex_marker_not_point c : Default.isHex c 1 = true -> ch_eqb c "." = false.
Proof.
    intros H. destruct (ch_eqb c ".") eqn:E; [|reflexivity].
    apply N.eqb_eq in E. subst c. discriminate H.
Qed.

Lemma Ate_cons_cursor (a : A) c (a1 : A) l :
    Ate a [c] a1 -> cursor a = c :: l -> cursor a1 = l.
Proof. intros [K _ _ _ _] Hc. rewrite Hc in K. injection K as <-. reflexivity. Qed.

  (** With hex locked in, the integer loop runs over the hex digits and
      leaves through the point, switching to float. *)
Lemma int_loop_hex (Hf : enabled mode scanFloats = true) n : forall h i c0 (a : A) tl,
    Forall hex_digit h -> 2 <= i ->
    cursor a = h ++ code "." :: tl -> length (cursor a) < n ->
    wp (int_loop defaultRules mode n (Some c0) (Some CkHex) i)
       (fun r a' => exists ch i', r = (Some ch, true, i') /\
                                  Ate a (h ++ [code "."]) a')
       (fun _ _ => False) a.
Proof.
    induction n as [|n IH]; intros h i c0 a tl Hh Hi Hc Hn; [lia|].
    cbn [int_loop]. apply wp_bind, wp_peek. rewrite Hc.
    destruct h as [|c h]; cbn [app hd_error].
    - change (ch_eqb (code ".") ".") with true. rewrite Hf. cbn [andb].
      apply wp_bind. eapply wp_append_next_cons; [exact Hc|]. intros a1 H1.
      apply wp_ret. exists (code "."), i. split; [reflexivity | exact H1].
    - inversion Hh as [|x y Hx Hy]; subst.
      rewrite (hex_digit_not_point _ Hx). cbn [andb run_check].
      change (isHex defaultRules c i) with (Default.isHex c i).
      rewrite (isHex_past_marker c Hi), Hx. cbn [negb].
      apply wp_bind. eapply wp_append_next_cons; [exact Hc|]. intros a1 H1.
      pose proof (Ate_cons_cursor (l := h ++ code "." :: tl) H1 Hc) as Hc1.
      eapply wp_conseq; [eapply (IH h (i + 1) c a1 tl); auto | | auto].
      + lia.
      + rewrite Hc1. rewrite Hc in Hn. cbn [app length] in Hn. lia.
      + intros r a' (ch & i' & -> & H2). exists ch, i'. split; [reflexivity|].
        apply (Ate_trans H1 H2).
Qed.

  (** The fraction loop runs over decimal digits only. *)
Lemma fraction_loop_decimals n : forall d i c0 (a : A) rest,
    Forall decimal_digit d -> stops_fraction rest ->
    cursor a = d ++ rest -> length (cursor a) < n ->
    wp (fraction_loop defaultRules n (Some c0) i)
       (fun _ a' => Ate a d a') (fun _ _ => False) a.
Proof.
    induction n as [|n IH]; intros d i c0 a rest Hd Hr Hc Hn; [lia|].
    cbn [fraction_loop]. apply wp_bind, wp_peek. rewrite Hc.
    destruct d as [|c d]; cbn [app hd_error].
    - destruct rest as [|p rest']; cbn [hd_error].
      + apply wp_ret. apply Ate_nil.
      + destruct Hr as [Hr _].
        change (isDecimal defaultRules p) with (Default.isDecimal p). rewrite Hr.
        apply wp_ret. apply Ate_nil.
    - inversion Hd as [|x y Hx Hy]; subst.
      change (isDecimal defaultRules c) with (Default.isDecimal c). rewrite Hx.
      cbn [negb]. apply wp_bind. eapply wp_append_next_cons; [exact Hc|].
      intros a1 H1. pose proof (Ate_cons_cursor (l := d ++ rest) H1 Hc) as Hc1.
      eapply wp_conseq; [eapply (IH d (i + 1) c a1 rest); auto | | auto].
      + rewrite Hc1. rewrite Hc in Hn. cbn [app length] in Hn. lia.
      + intros r a' H2. apply (Ate_trans H1 H2).
Qed.

  (** A hex literal followed by a point and decimal digits is one float. *)
Lemma classify_hex_float (Hf : enabled mode scanFloats = true) n (a : A) x h d rest :
    Default.isHex x 1 = true -> Forall hex_digit h -> Forall decimal_digit d ->
    stops_fraction rest ->
    cursor a = code "0" :: x :: h ++ code "." :: d ++ rest ->
    length (cursor a) <= n ->
    wp (classify defaultRules mode n)
       (fun r a' => exists t, r = Some t /\ t = float /\
                              contents a' = code "0" :: x :: h ++ code "." :: d /\
                              cursor a' = rest)
       (fun _ _ => False) a.
Proof.
    intros Hx Hh Hd Hr Hc Hn.
    eapply wp_classify_number;
      [exact Hc | reflexivity | apply enabled_floats_or_ints; exact Hf |].
    intros a2 HM Hc2. unfold number. apply wp_bind, wp_modify.
    set (a3 := set_contents [code "0"] a2).
    assert (Hc3 : cursor a3 = x :: h ++ code "." :: d ++ rest) by exact Hc2.
    assert (Hk3 : contents a3 = [code "0"]) by reflexivity.
    assert (Hn3 : length (cursor a3) < n).
    { rewrite Hc3. rewrite Hc in Hn. cbn [length] in *. lia. }
    clearbody a3.
    change (ch_eqb (code "0") ".") with false. cbn [negb].
    destruct n as [|n]; [lia|]. apply wp_bind.
    (* the base marker locks hex in *)
    cbn [int_loop]. apply wp_bind, wp_peek. rewrite Hc3. cbn [hd_error].
    rewrite (hex_marker_not_point _ Hx). cbn [andb]. unfold choose_check.
    change (isHex defaultRules x 1) with (Default.isHex x 1). rewrite Hx.
    cbn [run_check]. change (isHex defaultRules x 1) with (Default.isHex x 1).
    rewrite Hx. cbn [negb].
    apply wp_bind. eapply wp_append_next_cons; [exact Hc3|]. intros a4 H4.
    pose proof (Ate_cons_cursor H4 Hc3) as Hc4.
    eapply wp_conseq;
      [eapply (@int_loop_hex Hf n h 2 x a4 (d ++ rest)); auto | | auto].
    { rewrite Hc4. rewrite Hc3 in Hn3. cbn [length] in Hn3. lia. }
    intros r a5 (ch & i' & -> & H5).
    pose proof (Ate_trans H4 H5) as H45.
    assert (Hc5 : cursor a5 = d ++ rest).
    { destruct H5 as [K _ _ _ _]. rewrite Hc4, <- app_assoc in K. cbn in K.
      apply app_inv_head in K. injection K as <-. reflexivity. }
    apply wp_bind.
    eapply wp_conseq;
      [eapply (@fraction_loop_decimals (S n) d i' ch a5 rest); auto | | auto].
    { rewrite Hc5. rewrite Hc3 in Hn3. cbn [length] in Hn3.
      rewrite length_app in Hn3. cbn [length] in Hn3. lia. }
    intros r6 a6 H6. cbn beta in H6. pose proof (Ate_trans H45 H6) as H46.
    assert (Hc6 : cursor a6 = rest).
    { destruct H6 as [K _ _ _ _]. rewrite Hc5 in K.
      apply app_inv_head in K. symmetry. exact K. }
    apply wp_bind, wp_peek. rewrite Hc6. apply wp_bind.
    assert (Hexp :
      wp (ret true)
         (fun isFloat a' => isFloat = true /\ a' = a6) (fun _ _ => False) a6).
    { split; reflexivity. }
    eapply wp_conseq with (Q := fun isFloat a' => isFloat = true /\ a' = a6)
                          (E := fun _ _ => False).
    { destruct rest as [|p rest']; cbn [hd_error]; [exact Hexp|].
      destruct Hr as [_ Hr].
      change (isENotation defaultRules p) with (Default.isENotation p).
      rewrite Hr. exact Hexp. }
    2:{ auto. }
    intros isFloat a' [-> ->]. apply wp_bind, wp_gets.
    destruct H46 as [K1 K2 K3 K4 K5]. rewrite K3, Hk3. cbn [app length Nat.eqb andb].
    exists float. split; [reflexivity|]. split; [reflexivity|].
    split; [|exact Hc6]. cbn. rewrite K3, Hk3. cbn.
    rewrite <- app_assoc. reflexivity.
Qed.

End DefaultNumbers.

Lemma wp_scan_Input R mode (s : Scanner Input) (Q : Token -> Scanner (list N) -> Prop) E :
  wp (scan R mode) Q E (view s) ->
  wp (scan R mode) (fun t s' => Q t (view s')) (fun e s' => E e (view s')) s.
Proof.
  unfold wp. rewrite scan_view.
  destruct (scan R mode s) as [s' [t|e|]]; auto.
Qed.







(** The numeric branch takes a base marker right after a sign for a digit:
    ["-x"] is an [int]. *)
Example sign_and_base_marker_is_an_int :
  map (fun x => (lx_token x, lx_contents x))
      (fst (tokens defaultRules defaultTokens (new_Scanner (lit "-x") defaultInit))) =
  [(int, lit "-x"); (eof, [])].
Proof. vm_compute. reflexivity. Qed.

(* ================================================================== *)
(** * The refill threshold and the read size *)

Lemma refill_exit n : forall i,
  MIN_READ <= n + length (buffer i) ->
  MIN_READ <= length (buffer (refill n i)) \/ fst (defaultRead (refill n i)) = None.
Proof.
  induction n as [|n IH]; intros i Hn; cbn [refill].
  - left. exact Hn.
  - destruct (Nat.ltb_spec (length (buffer i)) MIN_READ) as [Hl|Hl]; [|left; exact Hl].
    destruct (defaultRead i) as [[chunk|] i'] eqn:E.
    + apply IH. unfold defaultRead in E.
      destruct (firstn (chunkBuffer i) (reader i)) as [|c l] eqn:F; [discriminate|].
      injection E as <- <-. cbn [buffer set_buffer set_reader].
      rewrite length_app. cbn [length]. lia.
    + right. unfold defaultRead in *.
      destruct (firstn (chunkBuffer i) (reader i)) as [|c l] eqn:F; [|discriminate].
      injection E as <-. rewrite F. reflexivity.
Qed.

Lemma defaultRead_length (i j : Input) chunk :
  defaultRead i = (Some chunk, j) ->
  length chunk = Nat.min (chunkBuffer i) (length (reader i)) /\
  reader i = chunk ++ reader j.
Proof.
  unfold defaultRead. intros H.
  destruct (firstn (chunkBuffer i) (reader i)) as [|c l] eqn:F; [discriminate|].
  injection H as <- <-. rewrite <- F. split.
  - apply length_firstn.
  - cbn [reader set_reader]. symmetry. apply firstn_skipn.
Qed.




(* ================================================================== *)
(** * helpers.ts: [nextTokenIs] and the message of [TokenError] *)

Lemma text_eqb_eq (a b : text) : text_eqb a b = true <-> a = b.
Proof.
  unfold text_eqb. destruct (list_eq_dec N.eq_dec a b) as [E|E].
  - split; [intros _; exact E | reflexivity].
  - split; [discriminate | intros H; contradiction].
Qed.

Lemma text_eqb_neq (a b : text) : text_eqb a b = false <-> a <> b.
Proof.
  unfold text_eqb. destruct (list_eq_dec N.eq_dec a b) as [E|E].
  - split; [discriminate | intros H; contradiction].
  - split; [intros _; exact E | reflexivity].
Qed.

Lemma Token_eqb_neq (a b : Token) : Token_eqb a b = false <-> a <> b.
Proof.
  split.
  - intros H E. apply Token_eqb_eq in E. congruence.
  - intros H. destruct (Token_eqb a b) eqn:E; [|reflexivity].
    apply Token_eqb_eq in E. contradiction.
Qed.

(** The message as the spec words it: the parenthesised contents are
    always there, and so is the expectation when one is given. *)
Definition spec_message (actual : Token) (contents : text) (line column : Z)
           (expected : option (Token * option text)) : text :=
  lit "unexpected " ++ Token_name actual ++ lit " (" ++ contents ++ lit ")" ++
  lit " on line " ++ show_Z line ++ lit ", column " ++ show_Z column ++
  match expected with
  | Some (t, c) =>
      lit "; expected " ++ Token_name t ++
      match c with Some e => lit " " ++ e | None => [] end
  | None => []
  end.



Example token_error_message_in_full :
  snd (nextTokenIs defaultRules defaultTokens int (Some (lit "5"))
         (new_Scanner (lit "let x") defaultInit)) =
  Throw (TokenError (lit "unexpected identifier (let) on line 1, column 1; expected int 5")).
Proof. vm_compute. reflexivity. Qed.


(* ================================================================== *)
(** * The two lexical errors on the repository's own inputs *)

Example unterminated_literal_raises :
  snd (Scanner_scan defaultInit (new_Scanner (lit "'never closed") defaultInit)) =
  Throw (Error (lit "literal not terminated")).
Proof. vm_compute. reflexivity. Qed.

Example unterminated_block_comment_raises :
  snd (Scanner_scan defaultInit (new_Scanner (lit "/* never closed") defaultInit)) =
  Throw (Error (lit "comment not terminated")).
Proof. vm_compute. reflexivity. Qed.

Example line_comment_needs_no_terminator :
  snd (scan defaultRules (js_or defaultTokens scanComments)
         (new_Scanner (lit "// runs to the end") defaultInit)) =
  Ret comment.
Proof. vm_compute. reflexivity. Qed.

(* ================================================================== *)
(** * Chunking and termination *)



(** Every [scan()] terminates: whatever the rules, the mask and the state
    of the scanner, the loops of [scan] end within the unread text, and the
    call returns a category or throws. *)
Theorem scan_returns_or_throws R mode (s : Scanner Input) :
  (exists t, snd (scan R mode s) = Ret t) \/
  (exists msg, snd (scan R mode s) = Throw (Error msg)).
Proof.
  pose proof (scan_total R mode s) as Ht.
  destruct (scan R mode s) as [s' [t|e|]] eqn:Es; cbn [snd] in *.
  - left. exists t. reflexivity.
  - right. destruct (scan_throws R mode s Es) as [-> | ->]; eexists; reflexivity.
  - contradiction.
Qed.

(* ================================================================== *)
(** * The chunked cursor as a stream of characters *)

(** The characters [next()] hands out, call after call, until it returns
    [null]. *)
Fixpoint characters (fuel : nat) (s : Scanner Input) : list N :=
  match fuel with
  | 0 => []
  | S n =>
      match next s with
      | (s', Ret (Some c)) => c :: characters n s'
      | _ => []
      end
  end.

Lemma next_unread (s : Scanner Input) :
  snd (next s) = Ret (hd_error (unread (cursor s))) /\
  unread (cursor (fst (next s))) = tl (unread (cursor s)).
Proof.
  pose proof (Input_peek_char (cursor s)) as Hp.
  pose proof (Input_skip_unread (cursor s)) as Hs.
  unfold next, bind, peek, modify, ret.
  cbn [cpeek cskip unread Input_Cursor].
  destruct (Input_peek (cursor s)) as [c ch]. cbn [fst snd] in *.
  destruct ch as [x|]; cbn [is_char]; [destruct (ch_eqb x LF)|]; cbn;
    rewrite Hp; split; try reflexivity; exact Hs.
Qed.

Lemma characters_unread n : forall s : Scanner Input,
  length (unread (cursor s)) < n -> characters n s = unread (cursor s).
Proof.
  induction n as [|n IH]; intros s Hn; [lia|].
  cbn [characters]. destruct (next_unread s) as [H1 H2].
  destruct (next s) as [s' o]. cbn [fst snd] in *. subst o.
  destruct (unread (cursor s)) as [|c l] eqn:E; cbn [hd_error]; [reflexivity|].
  f_equal. rewrite IH; [exact H2|]. rewrite H2. cbn in *. lia.
Qed.



Lemma Input_eta (i : Input) :
  buffer i = [] -> bufPos i = 0 -> set_buffer [] (set_bufPos 0 i) = i.
Proof. destruct i as [r c b p]. cbn. intros -> ->. reflexivity. Qed.

Lemma refill_exhausted n (i : Input) :
  buffer i = [] -> reader i = [] -> refill n i = i.
Proof.
  intros Hb Hr. destruct n as [|n]; [reflexivity|]. cbn [refill].
  rewrite Hb. cbn [length]. unfold defaultRead. rewrite Hr, firstn_nil.
  reflexivity.
Qed.

(** A [peek()] that follows a [peek()] finds the buffer as the first one
    left it and returns the same character: nothing is read twice and
    nothing is lost, also across a refill and at the end of the data. *)
Theorem peek_is_repeatable (i : Input) :
  Input_peek (fst (Input_peek i)) = Input_peek i.
Proof.
  unfold Input_peek at 2 3. cbn [fst].
  destruct (Nat.leb_spec (length (buffer i)) (bufPos i)) as [H|H].
  - set (j := refill MIN_READ (set_buffer [] (set_bufPos 0 i))).
    assert (Hj : bufPos j = 0 /\ (buffer j = [] -> refill MIN_READ j = j)).
    { destruct (Nat.eq_dec (chunkBuffer i) 0) as [Hz|Hz].
      - subst j. rewrite refill_zero by exact Hz. split; [reflexivity|].
        intros _. apply refill_zero. exact Hz.
      - destruct (refill_inv MIN_READ (set_buffer [] (set_bufPos 0 i)) Hz)
          as (_ & _ & H3 & _ & H5).
        fold j in H3, H5. split; [exact H3|]. intros Hb.
        apply refill_exhausted; [exact Hb|]. apply H5; [discriminate | exact Hb]. }
    destruct Hj as [Hp Hr]. unfold Input_peek. rewrite Hp.
    destruct (buffer j) as [|c b] eqn:Hb.
    + cbn [length Nat.leb].
      assert (E : set_buffer [] (set_bufPos 0 j) = j) by (apply Input_eta; assumption).
      rewrite E, (Hr eq_refl), Hb, Hp. reflexivity.
    + cbn [length Nat.leb]. rewrite Hb, ?Hp. reflexivity.
  - unfold Input_peek.
    destruct (Nat.leb_spec (length (buffer i)) (bufPos i)) as [K|K]; [lia|].
    reflexivity.
Qed.

Lemma refill_bound n : forall i,
  length (buffer (refill n i)) <=
  Nat.max (length (buffer i)) (MIN_READ - 1 + chunkBuffer i) /\
  chunkBuffer (refill n i) = chunkBuffer i.
Proof.
  induction n as [|n IH]; intros i; cbn [refill]; [split; [lia | reflexivity]|].
  destruct (Nat.ltb_spec (length (buffer i)) MIN_READ) as [Hl|Hl];
    [|split; [lia | reflexivity]].
  unfold defaultRead.
  destruct (firstn (chunkBuffer i) (reader i)) as [|c chunk] eqn:E;
    [split; [lia | reflexivity]|].
  match goal with |- context [refill n ?j] => destruct (IH j) as [H1 H2] end.
  cbn [buffer chunkBuffer set_buffer set_reader] in H1, H2.
  split; [|exact H2].
  eapply Nat.le_trans; [exact H1|].
  rewrite length_app.
  assert (length (c :: chunk) <= chunkBuffer i).
  { rewrite <- E. apply firstn_le_length. }
  unfold MIN_READ in *. lia.
Qed.

(** A refill never leaves more in the working buffer than one character
    less than [MIN_READ] plus one chunk. *)
Theorem refill_keeps_the_buffer_small (i : Input) :
  length (buffer i) <= bufPos i ->
  length (buffer (fst (Input_peek i))) <= 1 + chunkBuffer i.
Proof.
  intros H. unfold Input_peek. cbn [fst].
  destruct (Nat.leb_spec (length (buffer i)) (bufPos i)) as [_|K]; [|lia].
  destruct (refill_bound MIN_READ (set_buffer [] (set_bufPos 0 i))) as [H1 _].
  cbn [buffer chunkBuffer set_buffer set_bufPos length] in H1.
  unfold MIN_READ in *. lia.
Qed.

Lemma refill_keeps_the_buffer_small_witness :
  length (buffer (fst (Input_peek
            (cursor (new_Scanner (lit "abcdefgh")
                       {| init_minRead := None; init_chunkBuffer := Some 3;
                          init_rules := defaultRules; init_mode := None |})))))
  <= 1 + 3.
Proof.
  apply (@refill_keeps_the_buffer_small
           (cursor (new_Scanner (lit "abcdefgh")
                      {| init_minRead := None; init_chunkBuffer := Some 3;
                         init_rules := defaultRules; init_mode := None |}))).
  vm_compute. lia.
Defined.

(** With a chunk buffer of length 0 every read reports zero bytes, which
    [defaultRead] takes for the end of the data: whatever the source, the
    scanner yields [eof] at (1, 0) and nothing else. *)
Theorem empty_chunk_buffer_reads_nothing (source : list N) (init : ScannerInit) :
  init_chunkBuffer init = Some 0 ->
  tokens (init_rules init) (new_mode init) (new_Scanner source init) =
  ([ {| lx_token := eof; lx_contents := [];
        lx_start := (1, 0)%Z; lx_end := (1, 0)%Z |} ], Finished).
Proof.
  intros H.
  assert (Hu : unread (cursor (new_Scanner source init)) = []).
  { cbn. unfold Input_unread, new_chunkBuffer. cbn. rewrite H. reflexivity. }
  unfold tokens. rewrite Hu. cbn [length iterate].
  destruct (scan_exhausted (init_rules init) (new_mode init) _ Hu)
    as (K0 & _ & K2 & K3 & K4).
  destruct (scan (init_rules init) (new_mode init) (new_Scanner source init))
    as [s' o]. cbn [fst snd] in *. subst o. cbn [Token_eqb Token_value Z.eqb].
  unfold observe. rewrite K2, K3, K4. reflexivity.
Qed.

Lemma empty_chunk_buffer_reads_nothing_witness :
  let init := {| init_minRead := None; init_chunkBuffer := Some 0;
                 init_rules := defaultRules; init_mode := None |} in
  tokens (init_rules init) (new_mode init) (new_Scanner (lit "let x = 1") init) =
  ([ {| lx_token := eof; lx_contents := [];
        lx_start := (1, 0)%Z; lx_end := (1, 0)%Z |} ], Finished).
Proof.
  apply (@empty_chunk_buffer_reads_nothing (lit "let x = 1")
           {| init_minRead := None; init_chunkBuffer := Some 0;
              init_rules := defaultRules; init_mode := None |}).
  reflexivity.
Defined.

(* ================================================================== *)
(** * What a returned category says about the mask and the keyword test *)

(** The default rules with a list of reserved words for [isKeyword]. *)
Definition with_keywords (reserved : list (list N)) : Rules :=
  {| isWhitespace := Default.isWhitespace;
     isIdent := Default.isIdent;
     isKeyword := fun t => existsb (text_eqb t) reserved;
     isStringDelimiter := Default.isStringDelimiter;
     isDecimal := Default.isDecimal;
     isSign := Default.isSign;
     isHex := Default.isHex;
     isOctal := Default.isOctal;
     isBinary := Default.isBinary;
     isENotation := Default.isENotation;
     isComment := Default.isComment;
     isBlockCommentOpen := Default.isBlockCommentOpen;
     isBlockCommentClose := Default.isBlockCommentClose |}.

Section Commitments.
Context {C : Type} {CC : Cursor C}.
Variable R : Rules.
Variable mode : Z.

(** A property of every normal return of [m], whatever the state it
    starts in. *)
Definition Ends {X} (P : X -> Scanner C -> Prop) (m : M (Scanner C) X) : Prop :=
  forall s, match m s with (s', Ret x) => P x s' | _ => True end.

Lemma Ends_bind {X Y} (P : Y -> Scanner C -> Prop) (m : M (Scanner C) X)
      (k : X -> M (Scanner C) Y) :
  (forall x, Ends P (k x)) -> Ends P (bind m k).
Proof.
  intros Hk s. unfold bind.
  destruct (m s) as [s1 [x|e|]]; [apply Hk | exact I | exact I].
Qed.

(** What the mask and the keyword predicate must say for [t] to be
    returned with the scanner in state [s']. *)
Definition Allowed (t : Token) (s' : Scanner C) : Prop :=
  match t with
  | whitespace => enabled mode scanWhitespace = true
  | identifier => enabled mode scanIdents = true /\ isKeyword R (contents s') = false
  | keyword => enabled mode scanIdents = true /\ isKeyword R (contents s') = true
  | string_ => enabled mode scanStrings = true
  | comment => enabled mode scanComments = true
  | int | float => enabled mode (js_or scanInts scanFloats) = true
  | token | eof => True
  end.

Definition Allowed_step (r : option Token) (s' : Scanner C) : Prop :=
  match r with
  | Some t => Allowed t s'
  | None => True
  end.

Lemma classify_Allowed n : Ends Allowed_step (classify R mode n).
Proof.
  unfold classify.
  apply Ends_bind; intros ch. apply Ends_bind; intros pk. apply Ends_bind; intros _.
  destruct ch as [ch|].
  2:{ do 3 (apply Ends_bind; intros _). intros s. exact I. }
  destruct (isWhitespace R ch).
  { do 2 (apply Ends_bind; intros _).
    destruct (enabled mode scanWhitespace) eqn:E; intros s; cbn; auto. }
  destruct (isIdent R ch 0).
  { do 2 (apply Ends_bind; intros _).
    destruct (enabled mode scanIdents) eqn:E; intros s; cbn; auto.
    destruct (isKeyword R (contents s)) eqn:K; cbn; auto. }
  destruct (isStringDelimiter R ch).
  { do 2 (apply Ends_bind; intros _).
    destruct (enabled mode scanStrings) eqn:E; intros s; cbn; auto. }
  destruct (isDecimal R ch || isSign R ch || _).
  { destruct (enabled mode (js_or scanInts scanFloats)) eqn:E; intros s; cbn [negb];
      [|exact I].
    pose proof (number_Numberish R mode n ch s) as K. unfold Numberish in K.
    destruct (number R mode n ch s) as [s' [[t|]|e|]]; cbn [snd] in K; try exact I.
    destruct K as [->|[->| ->]]; cbn; auto. }
  destruct (isComment R ch 0 || isBlockCommentOpen R ch 0).
  { do 2 (apply Ends_bind; intros _).
    destruct (enabled mode scanComments) eqn:E; intros s; cbn; auto. }
  apply Ends_bind; intros _. intros s. exact I.
Qed.

Lemma scan_fuel_Allowed n : Ends Allowed (scan_fuel R mode n).
Proof.
  induction n as [|n IH]; intros s; [exact I|].
  cbn [scan_fuel]. unfold bind.
  pose proof (classify_Allowed n s) as H.
  destruct (classify R mode n s) as [s1 [[t|]|e|]]; cbn; auto.
  apply IH.
Qed.

Lemma scan_Allowed (s s' : Scanner C) t :
  scan R mode s = (s', Ret t) -> Allowed t s'.
Proof.
  intros H. unfold scan in H.
  pose proof (scan_fuel_Allowed (S (length (unread (cursor s)))) s) as K.
  rewrite H in K. exact K.
Qed.

End Commitments.

(** [scan()] never returns a category whose bit is clear in the mask:
    whitespace, identifier and keyword, string and comment need their own
    bit, and int and float need one of the ints and floats bits, no matter
    which. *)
Theorem scan_returns_only_enabled_categories R mode (s s' : Scanner Input) t :
  scan R mode s = (s', Ret t) ->
  match t with
  | whitespace => enabled mode scanWhitespace = true
  | identifier | keyword => enabled mode scanIdents = true
  | string_ => enabled mode scanStrings = true
  | comment => enabled mode scanComments = true
  | int | float => enabled mode (js_or scanInts scanFloats) = true
  | token | eof => True
  end.
Proof.
  intros H. apply scan_Allowed in H. destruct t; cbn in H; try exact H; apply H.
Qed.

Lemma scan_returns_only_enabled_categories_witness :
  enabled (js_or scanInts scanIdents) (js_or scanInts scanFloats) = true.
Proof.
  apply (@scan_returns_only_enabled_categories defaultRules (js_or scanInts scanIdents)
           (new_Scanner (lit "'a' 12") defaultInit)
           (fst (scan defaultRules (js_or scanInts scanIdents)
                   (new_Scanner (lit "'a' 12") defaultInit)))
           int).
  vm_compute. reflexivity.
Defined.

(** An identifier is returned as [keyword] exactly when [isKeyword] holds
    of its contents, and as [identifier] exactly when it does not. *)
Theorem keyword_is_decided_by_isKeyword R mode (s s' : Scanner Input) t :
  scan R mode s = (s', Ret t) ->
  (t = keyword -> isKeyword R (contents s') = true) /\
  (t = identifier -> isKeyword R (contents s') = false).
Proof.
  intros H. apply scan_Allowed in H.
  split; intros ->; apply H.
Qed.

Lemma keyword_is_decided_by_isKeyword_witness :
  let R := with_keywords [lit "if"; lit "else"] in
  let s' := fst (scan R defaultTokens (new_Scanner (lit "if x") defaultInit)) in
  (keyword = keyword -> isKeyword R (contents s') = true) /\
  (keyword = identifier -> isKeyword R (contents s') = false).
Proof.
  apply (@keyword_is_decided_by_isKeyword (with_keywords [lit "if"; lit "else"])
           defaultTokens (new_Scanner (lit "if x") defaultInit)).
  vm_compute. reflexivity.
Defined.

(** The default [isKeyword] compares its argument with [null], which no
    contents are: with the default rules [scan()] never returns
    [keyword]. *)
Theorem default_rules_yield_no_keyword mode (s : Scanner Input) :
  snd (scan defaultRules mode s) <> Ret keyword.
Proof.
  intros H. destruct (scan defaultRules mode s) as [s' o] eqn:E.
  cbn [snd] in H. subst o. apply scan_Allowed in E. destruct E as [_ E].
  discriminate E.
Qed.

(* ================================================================== *)
(** * The token stream as a whole *)

(** The start and end positions of the tokens, in the order they are
    reported. *)
Definition spans (l : list Lexeme) : list (Z * Z) :=
  flat_map (fun x => [lx_start x; lx_end x]) l.

(** A token that is not [eof]: its contents are not empty. *)
Definition proper (x : Lexeme) : Prop :=
  lx_token x <> eof /\ lx_contents x <> [].

(** A token whose end is its start moved over the rest of its contents:
    [startPos] is the position of the first character, [endPos] that of the
    last. *)
Definition spanned (x : Lexeme) : Prop :=
  lx_token x <> eof ->
  exists c w, lx_contents x = c :: w /\ lx_end x = walk w (lx_start x).

(** The [eof] token at position [p]. *)
Definition eof_at (p : Z * Z) : Lexeme :=
  {| lx_token := eof; lx_contents := []; lx_start := p; lx_end := p |}.

Section Streams.
Variable R : Rules.
Variable mode : Z.

Local Abbreviation A := (Scanner (list N)).

Lemma scan_step (a : A) :
  match scan R mode a with
  | (a', Ret t) =>
      if Token_eqb t eof
      then cursor a' = [] /\ contents a' = [] /\
           endPos a' = walk (cursor a) (endPos a) /\ startPos a' = endPos a'
      else t <> eof /\
           exists skipped c w,
             cursor a = skipped ++ c :: w ++ cursor a' /\ contents a' = c :: w /\
             endPos a' = walk (skipped ++ c :: w) (endPos a) /\
             startPos a' = walk (skipped ++ [c]) (endPos a)
  | (a', Throw e) => e = literal_error \/ e = comment_error
  | (_, Fuel) => False
  end.
Proof.
  pose proof (scan_spec R mode a) as H. unfold wp in H.
  destruct (scan R mode a) as [a' [t|e|]]; [|exact (proj1 H)|exact H].
  destruct H as (sk & _ & _ & Ht).
  destruct t; unfold Token_eqb; cbn [Token_value Z.eqb Pos.eqb];
    try (split; [discriminate|];
         destruct Ht as (c & w & E1 & E2 & E3 & E4); exists sk, c, w; auto).
  destruct Ht as (E1 & E2 & E3 & E4 & E5). subst sk. auto.
Qed.

Lemma iterate_spans n : forall a : A,
  nondecreasing (endPos a) (spans (fst (iterate R mode n a))) /\
  Forall spanned (fst (iterate R mode n a)).
Proof.
  induction n as [|n IH]; intros a; [split; [exact I | constructor]|].
  cbn [iterate]. pose proof (scan_step a) as H.
  destruct (scan R mode a) as [a' [t|e|]]; [|split; [exact I | constructor]|contradiction].
  destruct (Token_eqb t eof) eqn:Et.
  - destruct H as (H1 & H2 & H3 & H4). apply Token_eqb_eq in Et. subst t.
    cbn [fst spans flat_map app nondecreasing observe lx_start lx_end].
    split.
    + rewrite H4, H3. repeat split; try apply pos_le_refl. apply pos_le_walk.
    + constructor; [|constructor]. intros K. cbn in K. contradiction.
  - destruct H as (Ht & sk & c & w & E1 & E2 & E3 & E4).
    destruct (IH a') as [I1 I2].
    destruct (iterate R mode n a') as [l e].
    cbn [fst spans flat_map app nondecreasing observe lx_start lx_end] in *.
    assert (E5 : endPos a' = walk w (startPos a')).
    { rewrite E3, E4, <- walk_app, <- app_assoc. reflexivity. }
    split.
    + split; [rewrite E4; apply pos_le_walk|].
      split; [rewrite E5; apply pos_le_walk | exact I1].
    + constructor; [|exact I2]. intros _. exists c, w. cbn. auto.
Qed.

Lemma iterate_ends n : forall a : A,
  length (cursor a) < n ->
  snd (iterate R mode n a) <> Unfinished /\
  length (fst (iterate R mode n a)) <= S (length (cursor a)) /\
  (snd (iterate R mode n a) = Finished ->
   exists l, fst (iterate R mode n a) = l ++ [eof_at (walk (cursor a) (endPos a))] /\
             Forall proper l) /\
  (forall e, snd (iterate R mode n a) = Raised e ->
   (e = literal_error \/ e = comment_error) /\
   Forall proper (fst (iterate R mode n a))).
Proof.
  induction n as [|n IH]; intros a Hn; [lia|].
  cbn [iterate]. pose proof (scan_step a) as H.
  destruct (scan R mode a) as [a' [t|e|]]; [| |contradiction].
  - destruct (Token_eqb t eof) eqn:Et.
    + destruct H as (H1 & H2 & H3 & H4). apply Token_eqb_eq in Et. subst t.
      cbn [fst snd length]. split; [discriminate|]. split; [lia|]. split.
      * intros _. exists []. split; [|constructor].
        unfold observe, eof_at. cbn [app]. rewrite H2, H4, H3. reflexivity.
      * intros e K. discriminate K.
    + destruct H as (Ht & sk & c & w & E1 & E2 & E3 & E4).
      assert (Hl : length (cursor a) = length sk + S (length w) + length (cursor a')).
      { rewrite E1, !length_app. cbn [length]. rewrite length_app. lia. }
      assert (Hw : walk (cursor a') (endPos a') = walk (cursor a) (endPos a)).
      { rewrite E3, <- walk_app. f_equal. rewrite E1, <- app_assoc. reflexivity. }
      assert (Hp : proper (observe t a')).
      { split; cbn; [exact Ht | rewrite E2; discriminate]. }
      destruct (IH a' ltac:(lia)) as (I1 & I2 & I3 & I4).
      destruct (iterate R mode n a') as [l e]. cbn [fst snd length] in *.
      split; [exact I1|]. split; [lia|]. split.
      * intros K. destruct (I3 K) as (l0 & -> & F). exists (observe t a' :: l0).
        rewrite Hw. split; [reflexivity|]. constructor; assumption.
      * intros e0 K. destruct (I4 e0 K) as [K1 K2]. split; [exact K1|].
        constructor; assumption.
  - cbn [fst snd length]. split; [discriminate|]. split; [lia|]. split.
    + intros K. discriminate K.
    + intros e0 K. injection K as <-. split; [exact H | constructor].
Qed.

End Streams.

(** The async iterator always comes to an end, after at most one token per
    unread character and the final [eof].  A run that ends normally has
    yielded [eof] exactly once, as its last token, with empty contents and
    at the position of the end of the text; a run that ends with an error
    has yielded no [eof], and the error is one of the two lexical errors.
    Every token before the end has contents that are not empty. *)
Theorem token_stream_ends_with_eof R mode (s : Scanner Input) :
  snd (tokens R mode s) <> Unfinished /\
  length (fst (tokens R mode s)) <= S (length (unread (cursor s))) /\
  (snd (tokens R mode s) = Finished ->
   exists l, fst (tokens R mode s) =
               l ++ [eof_at (walk (unread (cursor s)) (endPos s))] /\
             Forall proper l) /\
  (forall e, snd (tokens R mode s) = Raised e ->
   (e = literal_error \/ e = comment_error) /\
   Forall proper (fst (tokens R mode s))).
Proof.
  rewrite <- (tokens_view R mode s). unfold tokens.
  apply (@iterate_ends R mode (S (length (unread (cursor (view s))))) (view s)).
  apply Nat.lt_succ_diag_r.
Qed.

(** The positions of a run are in order: each token starts at or after the
    end of the one before it and ends at or after its own start; and the
    end of a token is its start moved over its contents less their first
    character, so that [startPos] is the position of the token's first
    character and [endPos] that of its last. *)
Theorem token_spans_are_ordered R mode (s : Scanner Input) :
  nondecreasing (endPos s) (spans (fst (tokens R mode s))) /\
  Forall spanned (fst (tokens R mode s)).
Proof.
  rewrite <- (tokens_view R mode s). unfold tokens.
  apply (@iterate_spans R mode (S (length (unread (cursor (view s))))) (view s)).
Qed.

Lemma walk_line w : forall p,
  fst (walk w p) = (fst p + Z.of_nat (count_occ N.eq_dec w (code LF)))%Z.
Proof.
  induction w as [|c w IH]; intros p; cbn [walk fold_left count_occ].
  - cbn. lia.
  - change (fold_left advance w (advance p c)) with (walk w (advance p c)).
    rewrite IH. unfold advance, ch_eqb.
    destruct (N.eq_dec c (code LF)) as [->|Hc].
    + rewrite N.eqb_refl. cbn [fst]. lia.
    + apply N.eqb_neq in Hc. rewrite Hc. cbn [fst]. lia.
Qed.

Lemma walk_same_line w : forall p,
  Forall (fun c => c <> code LF) w ->
  walk w p = (fst p, (snd p + Z.of_nat (length w))%Z).
Proof.
  induction w as [|c w IH]; intros p Hw; cbn [walk fold_left length].
  - destruct p. cbn. f_equal. lia.
  - inversion Hw as [|x y Hx Hy]; subst.
    change (fold_left advance w (advance p c)) with (walk w (advance p c)).
    rewrite (IH _ Hy). unfold advance, ch_eqb.
    apply N.eqb_neq in Hx. rewrite Hx. cbn [fst snd]. f_equal. lia.
Qed.

Lemma walk_newline pre p :
  walk (pre ++ [code LF]) p = ((fst (walk pre p) + 1)%Z, 0%Z).
Proof. rewrite walk_app. reflexivity. Qed.



(* ================================================================== *)
(** * One token at a time *)

(** [scan()] on [s] returns [t] with contents [w] and leaves [rest] unread;
    the token is reported from the position of its first character to that
    of its last. *)
Definition Reads (R : Rules) (mode : Z) (s : Scanner Input) (t : Token)
           (w rest : list N) : Prop :=
  snd (scan R mode s) = Ret t /\
  contents (fst (scan R mode s)) = w /\
  unread (cursor (fst (scan R mode s))) = rest /\
  startPos (fst (scan R mode s)) = walk (firstn 1 w) (endPos s) /\
  endPos (fst (scan R mode s)) = walk w (endPos s) /\
  currentToken (fst (scan R mode s)) = Some t.

(** Every character of [w] satisfies the indexed predicate [p], the first
    one at index [i]. *)
Fixpoint run_from (p : N -> nat -> bool) (i : nat) (w : list N) : bool :=
  match w with
  | [] => true
  | c :: w' => p c i && run_from p (i + 1) w'
  end.

(** The text is at its end or starts with a character that fails [p]. *)
Definition stops (p : N -> bool) (rest : list N) : bool :=
  match rest with
  | [] => true
  | c :: _ => negb (p c)
  end.

(** The content of a string literal that its delimiter can close: no raw
    newline, no delimiter other than right after a backslash, and no
    backslash as the last character. *)
Fixpoint literal_body (delim : N) (body : list N) : bool :=
  match body with
  | [] => true
  | c :: rest =>
      if ch_eqb c LF then false
      else if N.eqb c delim then false
      else if ch_eqb c BACKSLASH then
        match rest with
        | c' :: rest' =>
            if N.eqb c' delim then literal_body delim rest'
            else literal_body delim rest
        | [] => false
        end
      else literal_body delim rest
  end.

Section OneToken.
Variable R : Rules.
Variable mode : Z.

Local Abbreviation A := (Scanner (list N)).

(** The classifier has committed [t] with contents [w], [rest] is left. *)
Definition Lexed (a : A) (t : Token) (w rest : list N)
           (r : option Token) (a' : A) : Prop :=
  r = Some t /\ contents a' = w /\ cursor a' = rest /\
  startPos a' = walk (firstn 1 w) (endPos a) /\
  endPos a' = walk w (endPos a) /\
  currentToken a' = Some t.

Lemma Reads_of_classify (s : Scanner Input) t w rest :
  wp (classify R mode (length (cursor (view s))))
     (Lexed (view s) t w rest) (fun _ _ => False) (view s) ->
  Reads R mode s t w rest.
Proof.
  intros H.
  assert (K : wp (scan R mode)
                 (fun t0 a' => Lexed (view s) t w rest (Some t0) a')
                 (fun _ _ => False) (view s)).
  { apply wp_scan_of_classify. eapply wp_conseq; [exact H | | auto].
    intros r a' L. destruct L as (-> & L). exists t.
    split; [reflexivity|]. split; [reflexivity | exact L]. }
  apply wp_scan_Input in K. unfold wp in K. unfold Reads.
  destruct (scan R mode s) as [s' [t0|e|]]; cbn [fst snd];
    [|contradiction|contradiction].
  destruct K as (E & K1 & K2 & K3 & K4 & K5). injection E as ->.
  repeat split; assumption.
Qed.

Lemma Lexed_emit (a a3 a4 : A) c w rest t :
  Marked a c a3 -> contents a3 = [c] -> Ate a3 w a4 -> cursor a4 = rest ->
  Lexed a t (c :: w) rest (Some t) (set_currentToken (Some t) a4).
Proof.
  intros [M1 M2 M3 M4] Hc [H1 H2 H3 H4 H5] Hr.
  split; [reflexivity|]. cbn [contents cursor startPos currentToken set_currentToken].
  change (endPos (set_currentToken (Some t) a4)) with (endPos a4).
  repeat split.
  - rewrite H3, Hc. reflexivity.
  - exact Hr.
  - rewrite H5, M4. reflexivity.
  - rewrite H2, M2. reflexivity.
Qed.

Lemma Ate_rest (a a' : A) w rest :
  Ate a w a' -> cursor a = w ++ rest -> cursor a' = rest.
Proof.
  intros [K _ _ _ _] Hc. rewrite Hc in K. apply app_inv_head in K.
  symmetry. exact K.
Qed.

(** The code of the branch [b], as [classify] has it. *)
Definition branch_body (n : nat) (b : Branch) (ch : N) (pk : option N)
  : M A (option Token) :=
  match b with
  | InWhitespace =>
      modify (set_contents [ch]) ;;
      whitespace_loop R n ;;
      if negb (enabled mode scanWhitespace) then rescan else emit whitespace
  | InIdent =>
      modify (set_contents [ch]) ;;
      ident_loop R n 1 ;;
      if negb (enabled mode scanIdents) then rescan
      else
        t <- gets (@contents (list N)) ;;
        emit (if isKeyword R t then keyword else identifier)
  | InString =>
      modify (set_contents [ch]) ;;
      string_loop n ch ;;
      if negb (enabled mode scanStrings) then rescan else emit string_
  | InNumber =>
      if negb (enabled mode (js_or scanInts scanFloats)) then rescan
      else number R mode n ch
  | InComment =>
      modify (set_contents [ch]) ;;
      comment_loop R n (opens_block R ch pk) 1 ;;
      if negb (enabled mode scanComments) then rescan else emit comment
  | InOther =>
      modify (set_contents [ch]) ;;
      emit token
  end.

(** [classify] on a text that is not empty: the first character is
    consumed, the start position recorded, and the branch it selects
    run. *)
Lemma wp_classify_dispatch (Q : option Token -> A -> Prop) E n a c l :
  cursor a = c :: l ->
  (forall a2, Marked a c a2 -> cursor a2 = l -> contents a2 = contents a ->
              wp (branch_body n (dispatch R c (hd_error l)) c (hd_error l)) Q E a2) ->
  wp (classify R mode n) Q E a.
Proof.
  intros Hc Hk. unfold classify. apply wp_bind.
  eapply wp_next_cons; [exact Hc|]. intros a1 [S1 S2 S3 S4 S5].
  assert (Hc1 : cursor a1 = l).
  { rewrite Hc in S1. injection S1 as <-. reflexivity. }
  apply wp_bind, wp_peek. rewrite Hc1. apply wp_bind, wp_modify.
  specialize (Hk (set_startPos (line a1, column a1) a1)).
  unfold dispatch, branch_body, opens_block in Hk.
  destruct (isWhitespace R c); [apply Hk; [split; cbn; auto | exact Hc1 | exact S3]|].
  destruct (isIdent R c 0); [apply Hk; [split; cbn; auto | exact Hc1 | exact S3]|].
  destruct (isStringDelimiter R c); [apply Hk; [split; cbn; auto | exact Hc1 | exact S3]|].
  destruct (isDecimal R c || isSign R c || _);
    [apply Hk; [split; cbn; auto | exact Hc1 | exact S3]|].
  destruct (isComment R c 0 || isBlockCommentOpen R c 0);
    apply Hk; first [split; cbn; auto | exact Hc1 | exact S3].
Qed.

Lemma wp_emit t (Q : option Token -> A -> Prop) E a :
  Q (Some t) (set_currentToken (Some t) a) -> wp (emit t) Q E a.
Proof. intros H. exact H. Qed.

(** A branch that sets [contents], runs its loop over exactly [w] and
    commits [t]. *)
Lemma wp_branch_run {X} (loop : M A X) t a c a2 w rest :
  Marked a c a2 ->
  wp loop (fun _ a' => Ate (set_contents [c] a2) w a' /\ cursor a' = rest)
     (fun _ _ => False) (set_contents [c] a2) ->
  wp (modify (set_contents [c]) ;; loop ;; emit t)
     (Lexed a t (c :: w) rest) (fun _ _ => False) a2.
Proof.
  intros HM HL. apply wp_bind, wp_modify. apply wp_bind.
  eapply wp_conseq; [exact HL | | auto].
  intros _ a4 [H4 Hr]. apply wp_emit.
  eapply Lexed_emit; [apply Marked_set_contents; exact HM | reflexivity
                     | exact H4 | exact Hr].
Qed.

Lemma whitespace_loop_run n : forall w (a : A) rest,
  forallb (isWhitespace R) w = true -> stops (isWhitespace R) rest = true ->
  cursor a = w ++ rest -> length (cursor a) < n ->
  wp (whitespace_loop R n) (fun _ a' => Ate a w a' /\ cursor a' = rest)
     (fun _ _ => False) a.
Proof.
  induction n as [|n IH]; intros w a rest Hw Hr Hc Hn; [lia|].
  cbn [whitespace_loop]. apply wp_bind, wp_peek. rewrite Hc.
  destruct w as [|c w]; cbn [app hd_error].
  - destruct rest as [|p rest']; cbn [hd_error].
    + apply wp_ret. split; [apply Ate_nil | exact Hc].
    + cbn in Hr. rewrite Hr. apply wp_ret. split; [apply Ate_nil | exact Hc].
  - cbn [forallb] in Hw. apply andb_true_iff in Hw. destruct Hw as [Hx Hw].
    rewrite Hx. cbn [negb]. apply wp_bind.
    eapply wp_append_next_cons; [exact Hc|]. intros a1 H1.
    pose proof (Ate_cons_cursor (l := w ++ rest) H1 Hc) as Hc1.
    eapply wp_conseq; [eapply (IH w a1 rest); auto | | auto].
    + rewrite Hc1. rewrite Hc in Hn. cbn [app length] in Hn. lia.
    + intros r a' [H2 Hr2]. split; [apply (Ate_trans H1 H2) | exact Hr2].
Qed.

Lemma ident_loop_run n : forall w i (a : A) rest,
  run_from (isIdent R) i w = true ->
  stops (fun c => isIdent R c (i + length w)) rest = true ->
  cursor a = w ++ rest -> length (cursor a) < n ->
  wp (ident_loop R n i) (fun _ a' => Ate a w a' /\ cursor a' = rest)
     (fun _ _ => False) a.
Proof.
  induction n as [|n IH]; intros w i a rest Hw Hr Hc Hn; [lia|].
  cbn [ident_loop]. apply wp_bind, wp_peek. rewrite Hc.
  destruct w as [|c w]; cbn [app hd_error].
  - cbn [length] in Hr. rewrite Nat.add_0_r in Hr.
    destruct rest as [|p rest']; cbn [hd_error].
    + apply wp_ret. split; [apply Ate_nil | exact Hc].
    + cbn in Hr. rewrite Hr. apply wp_ret. split; [apply Ate_nil | exact Hc].
  - cbn [run_from] in Hw. apply andb_true_iff in Hw. destruct Hw as [Hx Hw].
    rewrite Hx. cbn [negb]. apply wp_bind.
    eapply wp_append_next_cons; [exact Hc|]. intros a1 H1.
    pose proof (Ate_cons_cursor (l := w ++ rest) H1 Hc) as Hc1.
    eapply wp_conseq; [eapply (IH w (i + 1) a1 rest); auto | | auto].
    + cbn [length] in Hr. replace (i + 1 + length w) with (i + S (length w)) by lia.
      exact Hr.
    + rewrite Hc1. rewrite Hc in Hn. cbn [app length] in Hn. lia.
    + intros r a' [H2 Hr2]. split; [apply (Ate_trans H1 H2) | exact Hr2].
Qed.

Lemma string_loop_closes d rest n : forall w (a : A),
  ch_eqb d LF = false -> ch_eqb d BACKSLASH = false ->
  literal_body d w = true ->
  cursor a = w ++ d :: rest -> length (cursor a) < n ->
  wp (string_loop n d) (fun _ a' => Ate a (w ++ [d]) a' /\ cursor a' = rest)
     (fun _ _ => False) a.
Proof.
  induction n as [|n IH]; intros w a Hd1 Hd2 Hw Hc Hn; [lia|].
  cbn [string_loop]. apply wp_bind, wp_peek. rewrite Hc.
  destruct w as [|c w]; cbn [app hd_error].
  - rewrite Hd1. apply wp_bind.
    eapply wp_append_next_cons; [exact Hc|]. intros a1 H1.
    rewrite Hd2. apply wp_bind, wp_ret. rewrite N.eqb_refl. apply wp_ret.
    split; [exact H1|]. apply (Ate_cons_cursor H1 Hc).
  - cbn [literal_body] in Hw.
    destruct (ch_eqb c LF); [discriminate|].
    destruct (N.eqb c d) eqn:Ecd; [discriminate|].
    apply wp_bind. eapply wp_append_next_cons; [exact Hc|]. intros a1 H1.
    pose proof (Ate_cons_cursor (l := w ++ d :: rest) H1 Hc) as Hc1.
    assert (Hn1 : length (cursor a1) < n).
    { rewrite Hc1. rewrite Hc in Hn. cbn [app length] in Hn. lia. }
    destruct (ch_eqb c BACKSLASH).
    + destruct w as [|c' w']; [discriminate|].
      apply wp_bind. apply wp_bind, wp_peek. rewrite Hc1. cbn [app hd_error].
      destruct (N.eqb c' d) eqn:Ec'.
      * eapply wp_append_next_cons; [exact Hc1|]. intros a2 H2.
        pose proof (Ate_cons_cursor (l := w' ++ d :: rest) H2 Hc1) as Hc2.
        eapply wp_conseq; [eapply (IH w' a2); auto | | auto].
        -- rewrite Hc2. rewrite Hc1 in Hn1. cbn [app length] in Hn1. lia.
        -- intros r a' [H3 Hr3]. split; [|exact Hr3].
           apply (Ate_trans H1 (Ate_trans H2 H3)).
      * apply wp_ret.
        eapply wp_conseq; [eapply (IH (c' :: w') a1); auto | | auto].
        intros r a' [H3 Hr3]. split; [|exact Hr3]. apply (Ate_trans H1 H3).
    + apply wp_bind, wp_ret.
      eapply wp_conseq; [eapply (IH w a1); auto | | auto].
      intros r a' [H3 Hr3]. split; [|exact Hr3]. apply (Ate_trans H1 H3).
Qed.

Lemma comment_loop_line n : forall w i (a : A) rest,
  run_from (isComment R) i w = true ->
  stops (fun c => isComment R c (i + length w)) rest = true ->
  cursor a = w ++ rest -> length (cursor a) < n ->
  wp (comment_loop R n false i) (fun _ a' => Ate a w a' /\ cursor a' = rest)
     (fun _ _ => False) a.
Proof.
  induction n as [|n IH]; intros w i a rest Hw Hr Hc Hn; [lia|].
  cbn [comment_loop negb andb]. apply wp_bind, wp_peek. rewrite Hc.
  destruct w as [|c w]; cbn [app hd_error].
  - cbn [length] in Hr. rewrite Nat.add_0_r in Hr.
    destruct rest as [|p rest']; cbn [hd_error].
    + apply wp_ret. split; [apply Ate_nil | exact Hc].
    + cbn in Hr. rewrite Hr. apply wp_ret. split; [apply Ate_nil | exact Hc].
  - cbn [run_from] in Hw. apply andb_true_iff in Hw. destruct Hw as [Hx Hw].
    rewrite Hx. cbn [negb]. apply wp_bind.
    eapply wp_append_next_cons; [exact Hc|]. intros a1 H1.
    pose proof (Ate_cons_cursor (l := w ++ rest) H1 Hc) as Hc1.
    eapply wp_conseq; [eapply (IH w (i + 1) a1 rest); auto | | auto].
    + cbn [length] in Hr. replace (i + 1 + length w) with (i + S (length w)) by lia.
      exact Hr.
    + rewrite Hc1. rewrite Hc in Hn. cbn [app length] in Hn. lia.
    + intros r a' [H2 Hr2]. split; [apply (Ate_trans H1 H2) | exact Hr2].
Qed.

Lemma comment_loop_block x y rest n : forall pre i (a : A),
  block_unterminated R (pre ++ [x]) = true ->
  isBlockCommentClose R x 0 && isBlockCommentClose R y 1 = true ->
  cursor a = pre ++ x :: y :: rest -> length (cursor a) < n ->
  wp (comment_loop R n true i)
     (fun _ a' => Ate a (pre ++ [x; y]) a' /\ cursor a' = rest)
     (fun _ _ => False) a.
Proof.
  induction n as [|n IH]; intros pre i a Hp Hxy Hc Hn; [lia|].
  cbn [comment_loop negb andb]. apply wp_bind, wp_peek. rewrite Hc.
  destruct pre as [|c pre]; cbn [app hd_error].
  - apply wp_bind. eapply wp_append_next_cons; [exact Hc|]. intros a1 H1.
    pose proof (Ate_cons_cursor H1 Hc) as Hc1.
    apply wp_bind, wp_peek. rewrite Hc1. cbn [hd_error]. rewrite Hxy.
    eapply wp_append_next_cons; [exact Hc1|]. intros a2 H2.
    split; [apply (Ate_trans H1 H2)|]. apply (Ate_cons_cursor H2 Hc1).
  - apply wp_bind. eapply wp_append_next_cons; [exact Hc|]. intros a1 H1.
    pose proof (Ate_cons_cursor (l := pre ++ x :: y :: rest) H1 Hc) as Hc1.
    assert (Hn1 : length (cursor a1) < n).
    { rewrite Hc1. rewrite Hc in Hn. cbn [app length] in Hn. lia. }
    apply wp_bind, wp_peek. rewrite Hc1.
    assert (Hnext : exists p tl tl', pre ++ x :: y :: rest = p :: tl /\
                                     pre ++ [x] = p :: tl').
    { destruct pre as [|p pre']; cbn; eauto. }
    destruct Hnext as (p & tl & tl' & E1 & E2).
    rewrite E1. cbn [hd_error].
    cbn [app block_unterminated] in Hp. rewrite E2 in Hp.
    destruct (isBlockCommentClose R c 0 && isBlockCommentClose R p 1);
      [discriminate|].
    rewrite <- E2 in Hp.
    eapply wp_conseq; [eapply (IH pre (i + 1) a1); auto | | auto].
    intros r a' [H3 Hr3]. split; [|exact Hr3]. apply (Ate_trans H1 H3).
Qed.

End OneToken.

Lemma first_step_shorter (s : Scanner Input) c l (a2 : Scanner (list N)) :
  unread (cursor s) = c :: l -> cursor a2 = l ->
  length (cursor (set_contents [c] a2)) < length (cursor (view s)).
Proof.
  intros Hu Hc. change (cursor (view s)) with (unread (cursor s)).
  rewrite Hu. cbn [set_contents cursor]. rewrite Hc. cbn [length]. lia.
Qed.

(** A run of whitespace is one token: with whitespace enabled, [scan()] on
    a text that starts with whitespace returns [whitespace] with the whole
    run, up to the first character that is not whitespace, as contents. *)
Theorem whitespace_run_is_one_token R mode (s : Scanner Input) c w rest :
  isWhitespace R c = true -> forallb (isWhitespace R) w = true ->
  stops (isWhitespace R) rest = true ->
  enabled mode scanWhitespace = true ->
  unread (cursor s) = c :: w ++ rest ->
  Reads R mode s whitespace (c :: w) rest.
Proof.
  intros Hc0 Hw Hr He Hu. apply Reads_of_classify.
  eapply wp_classify_dispatch; [exact Hu|]. intros a2 HM Hc2 _.
  replace (dispatch R c (hd_error (w ++ rest))) with InWhitespace
    by (unfold dispatch; rewrite Hc0; reflexivity).
  cbn [branch_body]. rewrite He. cbn [negb].
  apply wp_branch_run; [exact HM|].
  apply whitespace_loop_run; auto.
  apply (@first_step_shorter s _ _ _ Hu Hc2).
Qed.

Lemma whitespace_run_is_one_token_witness :
  Reads defaultRules (js_or defaultTokens scanWhitespace)
        (new_Scanner (lit "  x") defaultInit)
        whitespace (code " " :: lit " ") (lit "x").
Proof.
  apply (@whitespace_run_is_one_token defaultRules
           (js_or defaultTokens scanWhitespace)
           (new_Scanner (lit "  x") defaultInit) (code " ") (lit " ") (lit "x"));
    vm_compute; reflexivity.
Defined.

(** An identifier is the longest run of identifier characters: with
    identifiers enabled, [scan()] on a text whose first character satisfies
    [isIdent] at index 0 takes every following character that satisfies
    [isIdent] at its index, stops at the first that does not, and returns
    [keyword] or [identifier] as [isKeyword] says of the run. *)
Theorem identifier_is_the_longest_run R mode (s : Scanner Input) c w rest :
  isWhitespace R c = false -> isIdent R c 0 = true ->
  run_from (isIdent R) 1 w = true ->
  stops (fun p => isIdent R p (1 + length w)) rest = true ->
  enabled mode scanIdents = true ->
  unread (cursor s) = c :: w ++ rest ->
  Reads R mode s (if isKeyword R (c :: w) then keyword else identifier)
        (c :: w) rest.
Proof.
  intros Hc0 Hc1 Hw Hr He Hu. apply Reads_of_classify.
  eapply wp_classify_dispatch; [exact Hu|]. intros a2 HM Hc2 _.
  replace (dispatch R c (hd_error (w ++ rest))) with InIdent
    by (unfold dispatch; rewrite Hc0, Hc1; reflexivity).
  cbn [branch_body]. rewrite He. cbn [negb].
  apply wp_bind, wp_modify. apply wp_bind.
  eapply wp_conseq;
    [eapply (@ident_loop_run R _ w 1 (set_contents [c] a2) rest); auto | | auto].
  { apply (@first_step_shorter s _ _ _ Hu Hc2). }
  intros _ a4 [H4 Hr4]. apply wp_bind, wp_gets.
  assert (Hk : contents a4 = c :: w).
  { destruct H4 as [_ _ K _ _]. exact K. }
  rewrite Hk. apply wp_emit.
  eapply Lexed_emit; [apply Marked_set_contents; exact HM | reflexivity
                     | exact H4 | exact Hr4].
Qed.

Lemma identifier_is_the_longest_run_witness :
  Reads (with_keywords [lit "let"]) defaultTokens
        (new_Scanner (lit "let_1 = 2") defaultInit)
        identifier (code "l" :: lit "et_1") (lit " = 2").
Proof.
  apply (@identifier_is_the_longest_run (with_keywords [lit "let"]) defaultTokens
           (new_Scanner (lit "let_1 = 2") defaultInit)
           (code "l") (lit "et_1") (lit " = 2"));
    vm_compute; reflexivity.
Defined.

(** A string literal ends at the first delimiter that is not right after a
    backslash: with strings enabled, [scan()] on a delimiter followed by a
    body without raw newline, in which every delimiter follows a backslash
    that escapes it, and by the delimiter again, returns [string] with the
    literal, both delimiters included, as contents.  A backslash escapes
    only the delimiter, also when the backslash is itself preceded by a
    backslash. *)
Theorem string_literal_ends_at_the_first_unescaped_delimiter
    R mode (s : Scanner Input) d body rest :
  isWhitespace R d = false -> isIdent R d 0 = false ->
  isStringDelimiter R d = true ->
  ch_eqb d LF = false -> ch_eqb d BACKSLASH = false ->
  literal_body d body = true ->
  enabled mode scanStrings = true ->
  unread (cursor s) = d :: body ++ d :: rest ->
  Reads R mode s string_ (d :: body ++ [d]) rest.
Proof.
  intros Hc0 Hc1 Hc2 Hd1 Hd2 Hb He Hu. apply Reads_of_classify.
  eapply wp_classify_dispatch; [exact Hu|]. intros a2 HM Hca _.
  replace (dispatch R d (hd_error (body ++ d :: rest))) with InString
    by (unfold dispatch; rewrite Hc0, Hc1, Hc2; reflexivity).
  cbn [branch_body]. rewrite He. cbn [negb].
  apply wp_branch_run; [exact HM|].
  apply string_loop_closes; auto.
  apply (@first_step_shorter s _ _ _ Hu Hca).
Qed.

Lemma string_literal_ends_at_the_first_unescaped_delimiter_witness :
  Reads defaultRules defaultTokens
        (new_Scanner ([code DQUOTE] ++ lit "a\" ++ [code DQUOTE] ++ lit "b\\" ++
                      [code DQUOTE] ++ lit "c" ++ [code DQUOTE] ++ lit " d")
                     defaultInit)
        string_
        (code DQUOTE :: (lit "a\" ++ [code DQUOTE] ++ lit "b\\" ++ [code DQUOTE] ++
                         lit "c") ++ [code DQUOTE])
        (lit " d").
Proof.
  apply (@string_literal_ends_at_the_first_unescaped_delimiter
           defaultRules defaultTokens
           (new_Scanner ([code DQUOTE] ++ lit "a\" ++ [code DQUOTE] ++ lit "b\\" ++
                         [code DQUOTE] ++ lit "c" ++ [code DQUOTE] ++ lit " d")
                        defaultInit)
           (code DQUOTE)
           (lit "a\" ++ [code DQUOTE] ++ lit "b\\" ++ [code DQUOTE] ++ lit "c")
           (lit " d"));
    vm_compute; reflexivity.
Defined.

(** A comment that is not a block comment runs for as long as [isComment]
    holds of the next character at its index: with comments enabled,
    [scan()] returns [comment] with that run as contents and leaves the
    character that stopped it (with the default rules, the newline)
    unread. *)
Theorem comment_runs_while_isComment_holds R mode (s : Scanner Input) c w rest :
  dispatch R c (hd_error (w ++ rest)) = InComment ->
  opens_block R c (hd_error (w ++ rest)) = false ->
  run_from (isComment R) 1 w = true ->
  stops (fun p => isComment R p (1 + length w)) rest = true ->
  enabled mode scanComments = true ->
  unread (cursor s) = c :: w ++ rest ->
  Reads R mode s comment (c :: w) rest.
Proof.
  intros Hd Hb Hw Hr He Hu. apply Reads_of_classify.
  eapply wp_classify_dispatch; [exact Hu|]. intros a2 HM Hc2 _.
  rewrite Hd. cbn [branch_body]. rewrite Hb, He. cbn [negb].
  apply wp_branch_run; [exact HM|].
  apply comment_loop_line; auto.
  apply (@first_step_shorter s _ _ _ Hu Hc2).
Qed.

Lemma comment_runs_while_isComment_holds_witness :
  Reads defaultRules (js_or defaultTokens scanComments)
        (new_Scanner (lit "// to the end" ++ [code LF] ++ lit "x") defaultInit)
        comment (code "/" :: lit "/ to the end") ([code LF] ++ lit "x").
Proof.
  apply (@comment_runs_while_isComment_holds defaultRules
           (js_or defaultTokens scanComments)
           (new_Scanner (lit "// to the end" ++ [code LF] ++ lit "x") defaultInit)
           (code "/") (lit "/ to the end") ([code LF] ++ lit "x"));
    vm_compute; reflexivity.
Defined.

(** With the default rules a slash that is followed neither by a slash nor
    by a star is a comment of one character: with comments enabled
    [scan()] returns [comment] with contents ["/"]. *)
Theorem lone_slash_is_a_comment mode (s : Scanner Input) rest :
  stops (fun p => ch_eqb p "/" || ch_eqb p "*") rest = true ->
  enabled mode scanComments = true ->
  unread (cursor s) = code "/" :: rest ->
  Reads defaultRules mode s comment [code "/"] rest.
Proof.
  intros Hr He Hu. apply Reads_of_classify.
  eapply wp_classify_dispatch; [exact Hu|]. intros a2 HM Hc2 _.
  assert (Hd : dispatch defaultRules (code "/") (hd_error rest) = InComment)
    by reflexivity.
  assert (Hs : ch_eqb (hd (code " ") rest) "/" = false \/ rest = []).
  { destruct rest as [|p rest']; [right; reflexivity|]. left. cbn in *.
    apply negb_true_iff, orb_false_iff in Hr. apply Hr. }
  assert (Hb : opens_block defaultRules (code "/") (hd_error rest) = false).
  { destruct rest as [|p rest']; [reflexivity|]. cbn in *.
    apply negb_true_iff, orb_false_iff in Hr. apply Hr. }
  rewrite Hd. cbn [branch_body]. rewrite Hb, He. cbn [negb].
  apply (@wp_branch_run _ (comment_loop defaultRules _ false 1) comment
           (view s) (code "/") a2 [] rest HM).
  apply comment_loop_line; auto.
  - destruct rest as [|p rest']; [reflexivity|]. cbn in *.
    apply negb_true_iff, orb_false_iff in Hr. rewrite (proj1 Hr). reflexivity.
  - apply (@first_step_shorter s _ _ _ Hu Hc2).
Qed.

Lemma lone_slash_is_a_comment_witness :
  Reads defaultRules (js_or defaultTokens scanComments)
        (new_Scanner (lit "/ 2") defaultInit) comment [code "/"] (lit " 2").
Proof.
  apply (@lone_slash_is_a_comment (js_or defaultTokens scanComments)
           (new_Scanner (lit "/ 2") defaultInit) (lit " 2"));
    vm_compute; reflexivity.
Defined.

(** A block comment ends at the first place where [isBlockCommentClose]
    holds of two characters in a row, looking from the second character of
    the opener on: with comments enabled, [scan()] returns [comment] with
    everything up to and including those two characters as contents, over
    as many lines as it takes. *)
Theorem block_comment_ends_at_the_first_close
    R mode (s : Scanner Input) c pre x y rest :
  dispatch R c (hd_error (pre ++ x :: y :: rest)) = InComment ->
  opens_block R c (hd_error (pre ++ x :: y :: rest)) = true ->
  block_unterminated R (pre ++ [x]) = true ->
  isBlockCommentClose R x 0 && isBlockCommentClose R y 1 = true ->
  enabled mode scanComments = true ->
  unread (cursor s) = c :: pre ++ x :: y :: rest ->
  Reads R mode s comment (c :: pre ++ [x; y]) rest.
Proof.
  intros Hd Hb Hp Hxy He Hu. apply Reads_of_classify.
  eapply wp_classify_dispatch; [exact Hu|]. intros a2 HM Hc2 _.
  rewrite Hd. cbn [branch_body]. rewrite Hb, He. cbn [negb].
  apply wp_branch_run; [exact HM|].
  apply comment_loop_block; auto.
  apply (@first_step_shorter s _ _ _ Hu Hc2).
Qed.

Lemma block_comment_ends_at_the_first_close_witness :
  Reads defaultRules (js_or defaultTokens scanComments)
        (new_Scanner (lit "/* a" ++ [code LF] ++ lit " * b */ c") defaultInit)
        comment
        (code "/" :: (lit "* a" ++ [code LF] ++ lit " * b ") ++ [code "*"; code "/"])
        (lit " c").
Proof.
  apply (@block_comment_ends_at_the_first_close defaultRules
           (js_or defaultTokens scanComments)
           (new_Scanner (lit "/* a" ++ [code LF] ++ lit " * b */ c") defaultInit)
           (code "/") (lit "* a" ++ [code LF] ++ lit " * b ")
           (code "*") (code "/") (lit " c"));
    vm_compute; reflexivity.
Defined.

(** A character that starts no whitespace, identifier, string, number or
    comment is returned on its own as the generic [token], whatever the
    mask. *)
Theorem other_character_is_a_token R mode (s : Scanner Input) c rest :
  dispatch R c (hd_error rest) = InOther ->
  unread (cursor s) = c :: rest ->
  Reads R mode s token [c] rest.
Proof.
  intros Hd Hu. apply Reads_of_classify.
  eapply wp_classify_dispatch; [exact Hu|]. intros a2 HM Hc2 _.
  rewrite Hd. cbn [branch_body]. apply wp_bind, wp_modify. apply wp_emit.
  eapply Lexed_emit; [apply Marked_set_contents; exact HM | reflexivity
                     | apply Ate_nil | exact Hc2].
Qed.

Lemma other_character_is_a_token_witness :
  Reads defaultRules scanIdents (new_Scanner (lit "=1") defaultInit)
        token [code "="] (lit "1").
Proof.
  apply (@other_character_is_a_token defaultRules scanIdents
           (new_Scanner (lit "=1") defaultInit) (code "=") (lit "1"));
    vm_compute; reflexivity.
Defined.

(* ================================================================== *)
(** * Numeric literals with the default rules *)

(** Facts about the default predicates, by comparison of character
    codes. *)
Ltac char_codes :=
  unfold Default.isDecimal, Default.isSign, Default.isHex, Default.isOctal,
    Default.isBinary, Default.isENotation, Default.isWhitespace, Default.isIdent,
    Default.isStringDelimiter, ch_eqb, ch_geb, ch_leb in *;
  repeat match goal with
         | |- context [code ?a] =>
             let v := eval vm_compute in (code a) in change (code a) with v
         | H : context [code ?a] |- _ =>
             let v := eval vm_compute in (code a) in change (code a) with v in H
         end;
  cbn [Nat.ltb Nat.leb andb orb] in *;
  repeat rewrite ?andb_true_iff, ?orb_true_iff, ?andb_false_iff, ?orb_false_iff,
    ?N.leb_le, ?N.eqb_eq, ?N.leb_gt, ?N.eqb_neq, ?negb_true_iff, ?negb_false_iff in *;
  lia.

Lemma decimal_not_whitespace c : Default.isDecimal c = true -> Default.isWhitespace c = false.
Proof. char_codes. Qed.

Lemma decimal_not_ident c : Default.isDecimal c = true -> Default.isIdent c 0 = false.
Proof. char_codes. Qed.

Lemma decimal_not_delimiter c :
  Default.isDecimal c = true -> Default.isStringDelimiter c = false.
Proof. char_codes. Qed.

Lemma decimal_not_point c : Default.isDecimal c = true -> ch_eqb c "." = false.
Proof. char_codes. Qed.

Lemma decimal_not_hex_marker c : Default.isDecimal c = true -> Default.isHex c 1 = false.
Proof. char_codes. Qed.

Lemma decimal_not_octal_marker c : Default.isDecimal c = true -> Default.isOctal c 1 = false.
Proof. char_codes. Qed.

Lemma decimal_not_binary_marker c : Default.isDecimal c = true -> Default.isBinary c 1 = false.
Proof. char_codes. Qed.

Lemma exponent_not_decimal c : Default.isENotation c = true -> Default.isDecimal c = false.
Proof. char_codes. Qed.

Lemma exponent_not_point c : Default.isENotation c = true -> ch_eqb c "." = false.
Proof. char_codes. Qed.

Lemma exponent_not_hex_marker c : Default.isENotation c = true -> Default.isHex c 1 = false.
Proof. char_codes. Qed.

Lemma exponent_not_octal_marker c : Default.isENotation c = true -> Default.isOctal c 1 = false.
Proof. char_codes. Qed.

Lemma exponent_not_binary_marker c : Default.isENotation c = true -> Default.isBinary c 1 = false.
Proof. char_codes. Qed.

Lemma hex_marker_no_point c : Default.isHex c 1 = true -> ch_eqb c "." = false.
Proof. char_codes. Qed.

Lemma octal_marker_no_point c : Default.isOctal c 1 = true -> ch_eqb c "." = false.
Proof. char_codes. Qed.

Lemma binary_marker_no_point c : Default.isBinary c 1 = true -> ch_eqb c "." = false.
Proof. char_codes. Qed.

Lemma hex_digit_no_point c : Default.isHex c 2 = true -> ch_eqb c "." = false.
Proof. char_codes. Qed.

Lemma octal_digit_no_point c : Default.isOctal c 2 = true -> ch_eqb c "." = false.
Proof. char_codes. Qed.

Lemma binary_digit_no_point c : Default.isBinary c 2 = true -> ch_eqb c "." = false.
Proof. char_codes. Qed.

Lemma decimal_dispatch c pk :
  Default.isDecimal c = true -> dispatch defaultRules c pk = InNumber.
Proof.
  intros H. unfold dispatch. cbn [isWhitespace isIdent isStringDelimiter isDecimal
                                  isSign defaultRules].
  rewrite (decimal_not_whitespace _ H), (decimal_not_ident _ H),
    (decimal_not_delimiter _ H), H. reflexivity.
Qed.

Lemma sign_dispatch c pk :
  Default.isSign c = true -> dispatch defaultRules c pk = InNumber.
Proof. intros H. destruct (isSign_cases _ H) as [->| ->]; reflexivity. Qed.

Lemma run_check_index k d i :
  2 <= i -> run_check defaultRules k d i = run_check defaultRules k d 2.
Proof.
  intros H. destruct i as [|[|i]]; [lia | lia |]. destruct k; reflexivity.
Qed.

Lemma digit_no_point k d :
  run_check defaultRules k d 2 = true -> ch_eqb d "." = false.
Proof.
  destruct k; cbn [run_check isHex isOctal isBinary isDecimal defaultRules];
    [apply hex_digit_no_point | apply octal_digit_no_point
    | apply binary_digit_no_point | apply decimal_not_point].
Qed.

(** The base a marker at index 1 locks in: [x] hex, [o] octal, [b]
    binary. *)
Definition base_of (m : N) : option BaseCheck :=
  if Default.isHex m 1 then Some CkHex
  else if Default.isOctal m 1 then Some CkOctal
  else if Default.isBinary m 1 then Some CkBinary
  else None.

Lemma base_of_choose m k :
  base_of m = Some k ->
  choose_check defaultRules m 1 = Some k /\
  run_check defaultRules k m 1 = true /\ ch_eqb m "." = false.
Proof.
  unfold base_of, choose_check.
  cbn [isHex isOctal isBinary isDecimal defaultRules].
  destruct (Default.isHex m 1) eqn:H1.
  { intros E. injection E as <-. cbn [run_check isHex defaultRules].
    auto using hex_marker_no_point. }
  destruct (Default.isOctal m 1) eqn:H2.
  { intros E. injection E as <-. cbn [run_check isOctal defaultRules].
    auto using octal_marker_no_point. }
  destruct (Default.isBinary m 1) eqn:H3; [|discriminate].
  intros E. injection E as <-. cbn [run_check isBinary defaultRules].
  auto using binary_marker_no_point.
Qed.

(** A fraction: nothing, or a point and decimal digits. *)
Definition fraction_text (frac : list N) : bool :=
  match frac with
  | [] => true
  | p :: fs => ch_eqb p "." && forallb Default.isDecimal fs
  end.

(** An exponent: nothing, or an exponent marker, an optional sign and
    decimal digits. *)
Definition exponent_text (expo : list N) : bool :=
  match expo with
  | [] => true
  | e :: tl =>
      Default.isENotation e &&
      match tl with
      | [] => true
      | x :: es =>
          if Default.isSign x then forallb Default.isDecimal es
          else forallb Default.isDecimal tl
      end
  end.

(** What must not follow a float for it to end there: after a fraction a
    decimal digit or an exponent marker, after a bare exponent marker a
    digit or a sign, after a longer exponent a digit. *)
Definition float_stops (expo rest : list N) : bool :=
  match expo with
  | [] => stops (fun p => Default.isDecimal p || Default.isENotation p) rest
  | [_] => stops (fun p => Default.isDecimal p || Default.isSign p) rest
  | _ => stops Default.isDecimal rest
  end.

Section DefaultLiterals.
Variable mode : Z.

Local Abbreviation A := (Scanner (list N)).

(** What must not follow the digits for the integer loop to go on to the
    exponent test: a digit, a point when floats are enabled, and right
    after the first character a base marker. *)
Definition int_halts (ds rest : list N) : bool :=
  stops (fun p => Default.isDecimal p ||
                  (ch_eqb p "." && enabled mode scanFloats) ||
                  match ds with
                  | [] => Default.isHex p 1 || Default.isOctal p 1 || Default.isBinary p 1
                  | _ => false
                  end) rest.

(** What must not follow an integer for it to end there. *)
Definition int_stops (ds rest : list N) : bool :=
  int_halts ds rest &&
  stops (fun p => Default.isENotation p && enabled mode scanFloats) rest.

(** What must not follow the digits of a literal in base [k]. *)
Definition based_stops (k : BaseCheck) (rest : list N) : bool :=
  stops (fun p => run_check defaultRules k p 2 ||
                  (enabled mode scanFloats &&
                   (ch_eqb p "." || Default.isENotation p))) rest.

(** The part of [number] from the exponent test on. *)
Definition number_tail (n : nat) (isFloat : bool) : M A (option Token) :=
  ch <- peek ;;
  isFloat <-
    match ch with
    | Some c =>
        if isENotation defaultRules c && enabled mode scanFloats then
          append_next ;;
          ch <- peek ;;
          match ch with
          | Some c => if isSign defaultRules c then append_next else ret tt
          | None => ret tt
          end ;;
          exponent_loop defaultRules n ;;
          ret true
        else ret isFloat
    | None => ret isFloat
    end ;;
  t <- gets (@contents (list N)) ;;
  if Nat.eqb (length t) 1 && is_sign_text defaultRules t then emit token
  else emit (if isFloat then float else int).

Lemma number_eq n ch :
  number defaultRules mode n ch =
  (modify (set_contents [ch]) ;;
   r <- (if negb (ch_eqb ch ".")
         then int_loop defaultRules mode n (Some ch) None 1
         else ret (Some ch, ch_eqb ch ".", 1)) ;;
   let '(ch0, isFloat, i) := r in
   (if isFloat then fraction_loop defaultRules n ch0 i else ret (ch0, i)) ;;
   number_tail n isFloat).
Proof. reflexivity. Qed.

(** The integer loop with base [k] locked in runs over the digits of that
    base and stops. *)
Lemma int_loop_stop k n : forall ds i c0 (a : A) tail,
  2 <= i ->
  forallb (fun d => run_check defaultRules k d 2) ds = true ->
  stops (fun p => run_check defaultRules k p 2 ||
                  (ch_eqb p "." && enabled mode scanFloats)) tail = true ->
  cursor a = ds ++ tail -> length (cursor a) < n ->
  wp (int_loop defaultRules mode n (Some c0) (Some k) i)
     (fun r a' => snd (fst r) = false /\ Ate a ds a' /\ cursor a' = tail)
     (fun _ _ => False) a.
Proof.
  induction n as [|n IH]; intros ds i c0 a tail Hi Hd Ht Hc Hn; [lia|].
  cbn [int_loop]. apply wp_bind, wp_peek. rewrite Hc.
  destruct ds as [|d ds]; cbn [app hd_error].
  - destruct tail as [|p tail']; cbn [hd_error].
    + apply wp_ret. cbn. auto using Ate_nil.
    + cbn [stops] in Ht. apply negb_true_iff, orb_false_iff in Ht.
      destruct Ht as [Ht1 Ht2]. rewrite Ht2.
      rewrite (run_check_index k p Hi), Ht1. cbn [negb].
      apply wp_ret. cbn. auto using Ate_nil.
  - cbn [forallb] in Hd. apply andb_true_iff in Hd. destruct Hd as [Hx Hd].
    rewrite (digit_no_point k d Hx). cbn [andb].
    rewrite (run_check_index k d Hi), Hx. cbn [negb].
    apply wp_bind. eapply wp_append_next_cons; [exact Hc|]. intros a1 H1.
    pose proof (Ate_cons_cursor (l := ds ++ tail) H1 Hc) as Hc1.
    eapply wp_conseq; [eapply (IH ds (i + 1) d a1 tail); auto | | auto].
    + lia.
    + rewrite Hc1. rewrite Hc in Hn. cbn [app length] in Hn. lia.
    + intros r a' (K1 & K2 & K3). split; [exact K1|].
      split; [apply (Ate_trans H1 K2) | exact K3].
Qed.

(** The integer loop with base [k] locked in leaves through a point. *)
Lemma int_loop_point (Hf : enabled mode scanFloats = true) k n :
  forall ds i c0 (a : A) tl,
  2 <= i ->
  forallb (fun d => run_check defaultRules k d 2) ds = true ->
  cursor a = ds ++ code "." :: tl -> length (cursor a) < n ->
  wp (int_loop defaultRules mode n (Some c0) (Some k) i)
     (fun r a' => (exists ch, fst (fst r) = Some ch) /\ snd (fst r) = true /\
                  Ate a (ds ++ [code "."]) a' /\ cursor a' = tl)
     (fun _ _ => False) a.
Proof.
  induction n as [|n IH]; intros ds i c0 a tl Hi Hd Hc Hn; [lia|].
  cbn [int_loop]. apply wp_bind, wp_peek. rewrite Hc.
  destruct ds as [|d ds]; cbn [app hd_error].
  - change (ch_eqb (code ".") ".") with true. rewrite Hf. cbn [andb].
    apply wp_bind. eapply wp_append_next_cons; [exact Hc|]. intros a1 H1.
    apply wp_ret. cbn [fst snd]. split; [eauto|]. split; [reflexivity|].
    split; [exact H1 | apply (Ate_cons_cursor H1 Hc)].
  - cbn [forallb] in Hd. apply andb_true_iff in Hd. destruct Hd as [Hx Hd].
    rewrite (digit_no_point k d Hx). cbn [andb].
    rewrite (run_check_index k d Hi), Hx. cbn [negb].
    apply wp_bind. eapply wp_append_next_cons; [exact Hc|]. intros a1 H1.
    pose proof (Ate_cons_cursor (l := ds ++ code "." :: tl) H1 Hc) as Hc1.
    eapply wp_conseq; [eapply (IH ds (i + 1) d a1 tl); auto | | auto].
    + lia.
    + rewrite Hc1. rewrite Hc in Hn. cbn [app length] in Hn. lia.
    + intros r a' (K0 & K1 & K2 & K3). split; [exact K0|]. split; [exact K1|].
      split; [apply (Ate_trans H1 K2) | exact K3].
Qed.

Lemma decimal_run_check ds :
  forallb Default.isDecimal ds = true ->
  forallb (fun d => run_check defaultRules CkDecimal d 2) ds = true.
Proof. intros H. exact H. Qed.

Lemma choose_decimal d :
  Default.isDecimal d = true -> choose_check defaultRules d 1 = Some CkDecimal.
Proof.
  intros H. unfold choose_check. cbn [isHex isOctal isBinary isDecimal defaultRules].
  rewrite (decimal_not_hex_marker _ H), (decimal_not_octal_marker _ H),
    (decimal_not_binary_marker _ H), H. reflexivity.
Qed.

(** The integer loop from the second character of a decimal literal on:
    it runs over the digits and stops. *)
Lemma int_start_stop n ds c0 (a : A) tail :
  forallb Default.isDecimal ds = true -> int_halts ds tail = true ->
  cursor a = ds ++ tail -> length (cursor a) < n ->
  wp (int_loop defaultRules mode n (Some c0) None 1)
     (fun r a' => snd (fst r) = false /\ Ate a ds a' /\ cursor a' = tail)
     (fun _ _ => False) a.
Proof.
  intros Hd Ht Hc Hn. destruct n as [|n]; [lia|].
  cbn [int_loop]. apply wp_bind, wp_peek. rewrite Hc.
  destruct ds as [|d ds]; cbn [app hd_error].
  - destruct tail as [|p tail']; cbn [hd_error].
    + apply wp_ret. cbn. auto using Ate_nil.
    + unfold int_halts in Ht. cbn [stops] in Ht.
      apply negb_true_iff, orb_false_iff in Ht. destruct Ht as [Ht Hm].
      apply orb_false_iff in Ht. destruct Ht as [Hdec Hpt].
      apply orb_false_iff in Hm. destruct Hm as [Hm Hbin].
      apply orb_false_iff in Hm. destruct Hm as [Hhex Hoct].
      rewrite Hpt. unfold choose_check.
      cbn [isHex isOctal isBinary isDecimal defaultRules].
      rewrite Hhex, Hoct, Hbin, Hdec.
      apply wp_ret. cbn. auto using Ate_nil.
  - cbn [forallb] in Hd. apply andb_true_iff in Hd. destruct Hd as [Hx Hd].
    rewrite (decimal_not_point _ Hx). cbn [andb].
    rewrite (choose_decimal _ Hx). cbn [run_check isDecimal defaultRules].
    rewrite Hx. cbn [negb].
    apply wp_bind. eapply wp_append_next_cons; [exact Hc|]. intros a1 H1.
    pose proof (Ate_cons_cursor (l := ds ++ tail) H1 Hc) as Hc1.
    eapply wp_conseq;
      [eapply (@int_loop_stop CkDecimal n ds (1 + 1) d a1 tail); auto | | auto].
    + unfold int_halts in Ht. destruct tail as [|p tail']; [reflexivity|].
      cbn [stops] in *. cbn [run_check isDecimal defaultRules].
      rewrite orb_false_r in Ht. exact Ht.
    + rewrite Hc1. rewrite Hc in Hn. cbn [app length] in Hn. lia.
    + intros r a' (K1 & K2 & K3). split; [exact K1|].
      split; [apply (Ate_trans H1 K2) | exact K3].
Qed.

(** The integer loop from the second character of a decimal literal on:
    it runs over the digits and leaves through the point. *)
Lemma int_start_point (Hf : enabled mode scanFloats = true) n ds c0 (a : A) tl :
  forallb Default.isDecimal ds = true ->
  cursor a = ds ++ code "." :: tl -> length (cursor a) < n ->
  wp (int_loop defaultRules mode n (Some c0) None 1)
     (fun r a' => (exists ch, fst (fst r) = Some ch) /\ snd (fst r) = true /\
                  Ate a (ds ++ [code "."]) a' /\ cursor a' = tl)
     (fun _ _ => False) a.
Proof.
  intros Hd Hc Hn. destruct n as [|n]; [lia|].
  cbn [int_loop]. apply wp_bind, wp_peek. rewrite Hc.
  destruct ds as [|d ds]; cbn [app hd_error].
  - change (ch_eqb (code ".") ".") with true. rewrite Hf. cbn [andb].
    apply wp_bind. eapply wp_append_next_cons; [exact Hc|]. intros a1 H1.
    apply wp_ret. cbn [fst snd]. split; [eauto|]. split; [reflexivity|].
    split; [exact H1 | apply (Ate_cons_cursor H1 Hc)].
  - cbn [forallb] in Hd. apply andb_true_iff in Hd. destruct Hd as [Hx Hd].
    rewrite (decimal_not_point _ Hx). cbn [andb].
    rewrite (choose_decimal _ Hx). cbn [run_check isDecimal defaultRules].
    rewrite Hx. cbn [negb].
    apply wp_bind. eapply wp_append_next_cons; [exact Hc|]. intros a1 H1.
    pose proof (Ate_cons_cursor (l := ds ++ code "." :: tl) H1 Hc) as Hc1.
    eapply wp_conseq;
      [eapply (@int_loop_point Hf CkDecimal n ds (1 + 1) d a1 tl); auto | | auto].
    + rewrite Hc1. rewrite Hc in Hn. cbn [app length] in Hn. lia.
    + intros r a' (K0 & K1 & K2 & K3). split; [exact K0|]. split; [exact K1|].
      split; [apply (Ate_trans H1 K2) | exact K3].
Qed.

Lemma fraction_loop_digits n : forall fs i c0 (a : A) tail,
  forallb Default.isDecimal fs = true -> stops Default.isDecimal tail = true ->
  cursor a = fs ++ tail -> length (cursor a) < n ->
  wp (fraction_loop defaultRules n (Some c0) i)
     (fun _ a' => Ate a fs a' /\ cursor a' = tail) (fun _ _ => False) a.
Proof.
  induction n as [|n IH]; intros fs i c0 a tail Hd Ht Hc Hn; [lia|].
  cbn [fraction_loop]. apply wp_bind, wp_peek. rewrite Hc.
  cbn [isDecimal defaultRules].
  destruct fs as [|d fs]; cbn [app hd_error].
  - destruct tail as [|p tail']; cbn [hd_error].
    + apply wp_ret. auto using Ate_nil.
    + cbn [stops] in Ht. rewrite Ht. apply wp_ret. auto using Ate_nil.
  - cbn [forallb] in Hd. apply andb_true_iff in Hd. destruct Hd as [Hx Hd].
    rewrite Hx. cbn [negb].
    apply wp_bind. eapply wp_append_next_cons; [exact Hc|]. intros a1 H1.
    pose proof (Ate_cons_cursor (l := fs ++ tail) H1 Hc) as Hc1.
    eapply wp_conseq; [eapply (IH fs (i + 1) d a1 tail); auto | | auto].
    + rewrite Hc1. rewrite Hc in Hn. cbn [app length] in Hn. lia.
    + intros r a' (K2 & K3). split; [apply (Ate_trans H1 K2) | exact K3].
Qed.

Lemma exponent_loop_digits n : forall es (a : A) tail,
  forallb Default.isDecimal es = true -> stops Default.isDecimal tail = true ->
  cursor a = es ++ tail -> length (cursor a) < n ->
  wp (exponent_loop defaultRules n)
     (fun _ a' => Ate a es a' /\ cursor a' = tail) (fun _ _ => False) a.
Proof.
  induction n as [|n IH]; intros es a tail Hd Ht Hc Hn; [lia|].
  cbn [exponent_loop]. apply wp_bind, wp_peek. rewrite Hc.
  cbn [isDecimal defaultRules].
  destruct es as [|d es]; cbn [app hd_error].
  - destruct tail as [|p tail']; cbn [hd_error].
    + apply wp_ret. auto using Ate_nil.
    + cbn [stops] in Ht. rewrite Ht. apply wp_ret. auto using Ate_nil.
  - cbn [forallb] in Hd. apply andb_true_iff in Hd. destruct Hd as [Hx Hd].
    rewrite Hx. cbn [negb].
    apply wp_bind. eapply wp_append_next_cons; [exact Hc|]. intros a1 H1.
    pose proof (Ate_cons_cursor (l := es ++ tail) H1 Hc) as Hc1.
    eapply wp_conseq; [eapply (IH es a1 tail); auto | | auto].
    + rewrite Hc1. rewrite Hc in Hn. cbn [app length] in Hn. lia.
    + intros r a' (K2 & K3). split; [apply (Ate_trans H1 K2) | exact K3].
Qed.

Lemma not_lone_sign c w :
  w <> [] \/ Default.isSign c = false ->
  Nat.eqb (length (c :: w)) 1 && is_sign_text defaultRules (c :: w) = false.
Proof.
  intros [H|H].
  - destruct w; [contradiction | reflexivity].
  - destruct w; [|reflexivity]. cbn. exact H.
Qed.

Lemma stops_weaken (p q : N -> bool) rest :
  (forall c, q c = true -> p c = true) -> stops p rest = true -> stops q rest = true.
Proof.
  intros H. destruct rest as [|c rest']; [reflexivity|]. cbn.
  intros K. apply negb_true_iff in K. apply negb_true_iff.
  destruct (q c) eqn:E; [|reflexivity]. rewrite (H c E) in K. discriminate.
Qed.

(** From the exponent test on: an exponent, if there is one, is taken and
    makes the literal a float; then the category is chosen. *)
Lemma number_tail_spec n isF (a5 : A) c w expo rest :
  contents a5 = c :: w ->
  (w <> [] \/ Default.isSign c = false \/ expo <> []) ->
  exponent_text expo = true ->
  (expo <> [] -> enabled mode scanFloats = true) ->
  (expo = [] ->
   stops (fun p => Default.isENotation p && enabled mode scanFloats) rest = true) ->
  (expo <> [] -> float_stops expo rest = true) ->
  cursor a5 = expo ++ rest -> length (cursor a5) < n ->
  wp (number_tail n isF)
     (fun r a' =>
        exists a6, Ate a5 expo a6 /\ cursor a6 = rest /\
          r = Some (if isF || negb (Nat.eqb (length expo) 0) then float else int) /\
          a' = set_currentToken
                 (Some (if isF || negb (Nat.eqb (length expo) 0) then float else int))
                 a6)
     (fun _ _ => False) a5.
Proof.
  intros Hk Hs He Hf Hstop0 Hstop1 Hc Hn.
  assert (Hfinal : forall a6 isF',
    Ate a5 expo a6 -> cursor a6 = rest ->
    isF' = (isF || negb (Nat.eqb (length expo) 0)) ->
    wp (t <- gets (@contents (list N)) ;;
        if Nat.eqb (length t) 1 && is_sign_text defaultRules t then emit token
        else emit (if isF' then float else int))
       (fun r a' =>
          exists a6, Ate a5 expo a6 /\ cursor a6 = rest /\
            r = Some (if isF || negb (Nat.eqb (length expo) 0) then float else int) /\
            a' = set_currentToken
                   (Some (if isF || negb (Nat.eqb (length expo) 0) then float else int))
                   a6)
       (fun _ _ => False) a6).
  { intros a6 isF' H6 Hc6 ->. apply wp_bind, wp_gets.
    destruct H6 as [K1 K2 K3 K4 K5] eqn:EH. rewrite K3, Hk. cbn [app].
    rewrite not_lone_sign.
    - apply wp_emit. exists a6. repeat split; assumption.
    - destruct Hs as [Hs|[Hs|Hs]]; [left | right; exact Hs | left].
      + destruct w; [contradiction | discriminate].
      + destruct w; [|discriminate]. destruct expo; [contradiction | discriminate]. }
  unfold number_tail. apply wp_bind, wp_peek. rewrite Hc.
  destruct expo as [|e tl].
  { apply wp_bind. cbn [app].
    assert (Hret : wp (ret isF)
                      (fun isF' a' => isF' = isF /\ a' = a5) (fun _ _ => False) a5)
      by (split; reflexivity).
    eapply wp_conseq with (Q := fun isF' a' => isF' = isF /\ a' = a5)
                          (E := fun _ _ => False).
    - destruct rest as [|p rest']; cbn [hd_error]; [exact Hret|].
      specialize (Hstop0 eq_refl). cbn [stops] in Hstop0.
      apply negb_true_iff in Hstop0. cbn [isENotation defaultRules].
      rewrite Hstop0. exact Hret.
    - intros isF' a' [-> ->]. apply (Hfinal a5 isF); [apply Ate_nil | exact Hc|].
      cbn. rewrite orb_false_r. reflexivity.
    - auto. }
  assert (Hne : e :: tl <> []) by discriminate.
  specialize (Hf Hne). specialize (Hstop1 Hne). clear Hstop0.
  cbn [exponent_text] in He. apply andb_true_iff in He. destruct He as [He Htl].
  cbn [app hd_error isENotation defaultRules]. rewrite He, Hf. cbn [andb].
  apply wp_bind.
  eapply wp_conseq with
    (Q := fun isF' a' => isF' = true /\ Ate a5 (e :: tl) a' /\ cursor a' = rest)
    (E := fun _ _ => False).
  2:{ intros isF' a' (-> & H6 & Hc6). apply (Hfinal a' true); [exact H6 | exact Hc6|].
      cbn. rewrite orb_true_r. reflexivity. }
  2:{ auto. }
  apply wp_bind. eapply wp_append_next_cons; [exact Hc|]. intros a6 H6.
  pose proof (Ate_cons_cursor (l := tl ++ rest) H6 Hc) as Hc6.
  assert (Hn6 : length (cursor a6) < n).
  { rewrite Hc6. rewrite Hc in Hn. cbn [app length] in Hn. lia. }
  assert (Hexp : forall pre es (a7 : A),
    Ate a5 pre a7 -> pre ++ es = e :: tl -> cursor a7 = es ++ rest ->
    forallb Default.isDecimal es = true -> stops Default.isDecimal rest = true ->
    wp (exponent_loop defaultRules n ;; ret true)
       (fun isF' a' => isF' = true /\ Ate a5 (e :: tl) a' /\ cursor a' = rest)
       (fun _ _ => False) a7).
  { intros pre es a7 H7 Epre Hc7 Hes Hst. apply wp_bind.
    eapply wp_conseq; [eapply (@exponent_loop_digits n es a7 rest); auto | | auto].
    - pose proof (Ate_length H7) as L. lia.
    - intros _ a8 [H8 Hc8]. apply wp_ret. split; [reflexivity|].
      split; [|exact Hc8]. rewrite <- Epre. apply (Ate_trans H7 H8). }
  apply wp_bind, wp_peek. rewrite Hc6. apply wp_bind.
  destruct tl as [|x es].
  - cbn [app]. cbn [float_stops] in Hstop1.
    assert (Hdec : stops Default.isDecimal rest = true).
    { eapply stops_weaken; [|exact Hstop1]. intros c0 K. cbn beta. rewrite K. reflexivity. }
    destruct rest as [|p rest']; cbn [hd_error].
    + apply wp_ret. apply (Hexp [e] [] a6 H6); auto.
    + cbn [stops] in Hstop1. apply negb_true_iff, orb_false_iff in Hstop1.
      cbn [isSign defaultRules]. rewrite (proj2 Hstop1).
      apply wp_ret. apply (Hexp [e] [] a6 H6); auto.
  - cbn [app hd_error isSign defaultRules].
    assert (Hdec : stops Default.isDecimal rest = true).
    { destruct es; exact Hstop1. }
    destruct (Default.isSign x) eqn:Hx.
    + eapply wp_append_next_cons; [exact Hc6|]. intros a7 H7.
      pose proof (Ate_cons_cursor (l := es ++ rest) H7 Hc6) as Hc7.
      apply (Hexp [e; x] es a7 (Ate_trans H6 H7)); auto.
    + apply wp_ret. apply (Hexp [e] (x :: es) a6 H6); auto.
Qed.

Lemma first_not_point c :
  Default.isDecimal c = true \/ Default.isSign c = true -> ch_eqb c "." = false.
Proof.
  intros [H|H]; [apply decimal_not_point; exact H|].
  destruct (isSign_cases _ H) as [->| ->]; reflexivity.
Qed.

Lemma first_dispatch c pk :
  Default.isDecimal c = true \/ Default.isSign c = true ->
  dispatch defaultRules c pk = InNumber.
Proof. intros [H|H]; [apply decimal_dispatch | apply sign_dispatch]; exact H. Qed.

(** Decimal digits, with or without a sign in front, are an [int]. *)
Lemma classify_decimal_int n (a : A) c ds rest :
  enabled mode (js_or scanInts scanFloats) = true ->
  Default.isDecimal c = true \/ (Default.isSign c = true /\ ds <> []) ->
  forallb Default.isDecimal ds = true ->
  int_stops ds rest = true ->
  cursor a = c :: ds ++ rest -> length (cursor a) <= n ->
  wp (classify defaultRules mode n) (Lexed a int (c :: ds) rest) (fun _ _ => False) a.
Proof.
  intros Hg Hc0 Hd Hst Hc Hn.
  assert (Hc0' : Default.isDecimal c = true \/ Default.isSign c = true) by tauto.
  unfold int_stops in Hst. apply andb_true_iff in Hst. destruct Hst as [Hh He].
  eapply wp_classify_dispatch; [exact Hc|]. intros a2 HM Hc2 _.
  rewrite (@first_dispatch c _ Hc0'). cbn [branch_body]. rewrite Hg. cbn [negb].
  rewrite number_eq. apply wp_bind, wp_modify.
  set (a3 := set_contents [c] a2).
  assert (HM3 : Marked a c a3) by (apply Marked_set_contents; exact HM).
  assert (Hc3 : cursor a3 = ds ++ rest) by exact Hc2.
  assert (Hk3 : contents a3 = [c]) by reflexivity.
  assert (Hn3 : length (cursor a3) < n).
  { rewrite Hc3. rewrite Hc in Hn. cbn [length] in *. lia. }
  clearbody a3. rewrite (@first_not_point c Hc0'). cbn [negb]. apply wp_bind.
  eapply wp_conseq; [eapply (@int_start_stop n ds c a3 rest); auto | | auto].
  intros [[ch isF] i] a4 (K1 & K2 & K3). cbn [fst snd] in K1. subst isF.
  apply wp_bind, wp_ret.
  assert (Hk4 : contents a4 = c :: ds).
  { destruct K2 as [_ _ K _ _]. rewrite K, Hk3. reflexivity. }
  eapply wp_conseq;
    [eapply (@number_tail_spec n false a4 c ds [] rest Hk4) | | auto].
  - destruct Hc0 as [H|[H H']]; [right; left | left; exact H'].
    destruct (Default.isSign c) eqn:E; [|reflexivity].
    destruct (isSign_cases _ E) as [->| ->]; discriminate H.
  - reflexivity.
  - intros K. contradiction.
  - intros _. exact He.
  - intros K. contradiction.
  - rewrite K3. reflexivity.
  - pose proof (Ate_length K2) as L. lia.
  - intros r a' (a6 & H6 & Hc6 & -> & ->). cbn [length Nat.eqb negb orb].
    eapply Lexed_emit; [exact HM3 | exact Hk3 | | exact Hc6].
    pose proof (Ate_trans K2 H6) as H. rewrite app_nil_r in H. exact H.
Qed.

(** A decimal literal with a fraction, an exponent or both is a
    [float]. *)
Lemma classify_float n (a : A) c ds frac expo rest :
  enabled mode scanFloats = true ->
  Default.isDecimal c = true \/ Default.isSign c = true ->
  forallb Default.isDecimal ds = true ->
  fraction_text frac = true -> exponent_text expo = true ->
  frac ++ expo <> [] ->
  float_stops expo rest = true ->
  cursor a = c :: ds ++ frac ++ expo ++ rest -> length (cursor a) <= n ->
  wp (classify defaultRules mode n)
     (Lexed a float (c :: ds ++ frac ++ expo) rest) (fun _ _ => False) a.
Proof.
  intros Hf Hc0 Hd Hfr Hex Hne Hst Hc Hn.
  eapply wp_classify_dispatch; [exact Hc|]. intros a2 HM Hc2 _.
  rewrite (@first_dispatch c _ Hc0). cbn [branch_body].
  rewrite (enabled_floats_or_ints _ Hf). cbn [negb].
  rewrite number_eq. apply wp_bind, wp_modify.
  set (a3 := set_contents [c] a2).
  assert (HM3 : Marked a c a3) by (apply Marked_set_contents; exact HM).
  assert (Hc3 : cursor a3 = ds ++ frac ++ expo ++ rest) by exact Hc2.
  assert (Hk3 : contents a3 = [c]) by reflexivity.
  assert (Hn3 : length (cursor a3) < n).
  { rewrite Hc3. rewrite Hc in Hn. cbn [length] in *. lia. }
  clearbody a3. rewrite (@first_not_point c Hc0). cbn [negb]. apply wp_bind.
  assert (Hstop1 : expo <> [] -> float_stops expo rest = true) by (intros _; exact Hst).
  assert (Hstop0 : expo = [] ->
            stops (fun p => Default.isENotation p && enabled mode scanFloats) rest = true).
  { intros ->. cbn [float_stops] in Hst. eapply stops_weaken; [|exact Hst].
    intros p K. cbn beta. apply andb_true_iff in K. rewrite (proj1 K). apply orb_true_r. }
  destruct frac as [|p fs].
  - (* no fraction: the integer part stops at the exponent marker *)
    cbn [app] in *. destruct expo as [|e tl]; [contradiction|].
    assert (He : Default.isENotation e = true).
    { cbn [exponent_text] in Hex. apply andb_true_iff in Hex. apply Hex. }
    eapply wp_conseq;
      [eapply (@int_start_stop n ds c a3 ((e :: tl) ++ rest)); auto | | auto].
    { unfold int_halts. cbn [app stops].
      rewrite (exponent_not_decimal _ He), (exponent_not_point _ He).
      rewrite (exponent_not_hex_marker _ He), (exponent_not_octal_marker _ He),
        (exponent_not_binary_marker _ He).
      destruct ds; reflexivity. }
    intros [[ch isF] i] a4 (K1 & K2 & K3). cbn [fst snd] in K1. subst isF.
    apply wp_bind, wp_ret.
    assert (Hk4 : contents a4 = c :: ds).
    { destruct K2 as [_ _ K _ _]. rewrite K, Hk3. reflexivity. }
    eapply wp_conseq;
      [eapply (@number_tail_spec n false a4 c ds (e :: tl) rest Hk4) | | auto].
    + right. right. discriminate.
    + exact Hex.
    + intros _. exact Hf.
    + intros K. discriminate K.
    + exact Hstop1.
    + rewrite K3. reflexivity.
    + pose proof (Ate_length K2) as L. lia.
    + intros r a' (a6 & H6 & Hc6 & -> & ->). cbn [length Nat.eqb negb orb].
      eapply Lexed_emit; [exact HM3 | exact Hk3 | | exact Hc6].
      apply (Ate_trans K2 H6).
  - (* a fraction: the integer part leaves through the point *)
    cbn [fraction_text] in Hfr. apply andb_true_iff in Hfr. destruct Hfr as [Hp Hfs].
    apply N.eqb_eq in Hp. subst p. clear Hne.
    change ((code "." :: fs) ++ expo ++ rest) with (code "." :: (fs ++ expo ++ rest)) in Hc3.
    eapply wp_conseq;
      [eapply (@int_start_point Hf n ds c a3 (fs ++ expo ++ rest)); auto | | auto].
    intros [[ch isF] i] a4 ([c1 K0] & K1 & K2 & K3). cbn [fst snd] in K0, K1.
    subst isF ch. apply wp_bind.
    assert (Hn4 : length (cursor a4) < n).
    { pose proof (Ate_length K2) as L. lia. }
    eapply wp_conseq;
      [eapply (@fraction_loop_digits n fs i c1 a4 (expo ++ rest)); auto | | auto].
    { destruct expo as [|e tl].
      - cbn [app float_stops] in *. eapply stops_weaken; [|exact Hst].
        intros q K. cbn beta. rewrite K. reflexivity.
      - cbn [app stops]. cbn [exponent_text] in Hex.
        apply andb_true_iff in Hex. rewrite (exponent_not_decimal _ (proj1 Hex)).
        reflexivity. }
    intros r5 a5 [K4 K5]. cbn beta.
    assert (Hk5 : contents a5 = c :: (ds ++ [code "."]) ++ fs).
    { destruct (Ate_trans K2 K4) as [_ _ K _ _]. rewrite K, Hk3. reflexivity. }
    eapply wp_conseq;
      [eapply (@number_tail_spec n true a5 c _ expo rest Hk5) | | auto].
    + left. destruct ds; discriminate.
    + exact Hex.
    + intros _. exact Hf.
    + exact Hstop0.
    + exact Hstop1.
    + exact K5.
    + pose proof (Ate_length K4) as L. lia.
    + intros r a' (a6 & H6 & Hc6 & -> & ->). cbn [orb].
      eapply Lexed_emit; [exact HM3 | exact Hk3 | | exact Hc6].
      pose proof (Ate_trans (Ate_trans K2 K4) H6) as H.
      rewrite <- !app_assoc in H. exact H.
Qed.

(** A first character, a base marker and digits of that base are an
    [int]. *)
Lemma classify_based_int n (a : A) c m k ds rest :
  enabled mode (js_or scanInts scanFloats) = true ->
  Default.isDecimal c = true \/ Default.isSign c = true ->
  base_of m = Some k ->
  forallb (fun d => run_check defaultRules k d 2) ds = true ->
  based_stops k rest = true ->
  cursor a = c :: m :: ds ++ rest -> length (cursor a) <= n ->
  wp (classify defaultRules mode n) (Lexed a int (c :: m :: ds) rest)
     (fun _ _ => False) a.
Proof.
  intros Hg Hc0 Hm Hd Hst Hc Hn.
  destruct (base_of_choose m Hm) as (Hch & Hrun & Hpt).
  eapply wp_classify_dispatch; [exact Hc|]. intros a2 HM Hc2 _.
  rewrite (@first_dispatch c _ Hc0). cbn [branch_body]. rewrite Hg. cbn [negb].
  rewrite number_eq. apply wp_bind, wp_modify.
  set (a3 := set_contents [c] a2).
  assert (HM3 : Marked a c a3) by (apply Marked_set_contents; exact HM).
  assert (Hc3 : cursor a3 = m :: ds ++ rest) by exact Hc2.
  assert (Hk3 : contents a3 = [c]) by reflexivity.
  assert (Hn3 : length (cursor a3) < n).
  { rewrite Hc3. rewrite Hc in Hn. cbn [length] in *. lia. }
  clearbody a3. rewrite (@first_not_point c Hc0). cbn [negb]. apply wp_bind.
  destruct n as [|n]; [lia|].
  cbn [int_loop]. apply wp_bind, wp_peek. rewrite Hc3. cbn [hd_error].
  rewrite Hpt. cbn [andb]. rewrite Hch, Hrun. cbn [negb].
  apply wp_bind. eapply wp_append_next_cons; [exact Hc3|]. intros a4 H4.
  pose proof (Ate_cons_cursor (l := ds ++ rest) H4 Hc3) as Hc4.
  eapply wp_conseq;
    [eapply (@int_loop_stop k n ds (1 + 1) m a4 rest); auto | | auto].
  { unfold based_stops in Hst. eapply stops_weaken; [|exact Hst].
    intros p K. cbn beta. apply orb_true_iff in K. destruct K as [K|K].
    - rewrite K. reflexivity.
    - apply andb_true_iff in K. destruct K as [J1 J2]. rewrite J1, J2.
      apply orb_true_r. }
  { rewrite Hc4. rewrite Hc3 in Hn3. cbn [length] in Hn3. lia. }
  intros [[ch isF] i] a5 (K1 & K2 & K3). cbn [fst snd] in K1. subst isF.
  apply wp_bind, wp_ret.
  assert (Hk5 : contents a5 = c :: m :: ds).
  { destruct (Ate_trans H4 K2) as [_ _ K _ _]. rewrite K, Hk3. reflexivity. }
  eapply wp_conseq;
    [eapply (@number_tail_spec (S n) false a5 c (m :: ds) [] rest Hk5) | | auto].
  - left. discriminate.
  - reflexivity.
  - intros K. contradiction.
  - intros _. unfold based_stops in Hst. eapply stops_weaken; [|exact Hst].
    intros p K. cbn beta. apply andb_true_iff in K. destruct K as [J1 J2].
    rewrite J1, J2. cbn [andb]. rewrite !orb_true_r. reflexivity.
  - intros K. contradiction.
  - rewrite K3. reflexivity.
  - pose proof (Ate_length K2) as L. pose proof (Ate_length H4) as L'. lia.
  - intros r a' (a6 & H6 & Hc6 & -> & ->). cbn [length Nat.eqb negb orb].
    eapply Lexed_emit; [exact HM3 | exact Hk3 | | exact Hc6].
    pose proof (Ate_trans (Ate_trans H4 K2) H6) as H.
    rewrite app_nil_r in H. exact H.
Qed.

End DefaultLiterals.

(** Decimal digits are one [int]: with ints or floats enabled, [scan()] on
    a decimal digit, or a sign and at least one digit, followed by decimal
    digits returns [int] with all of them as contents, provided the next
    character does not carry the literal on (a further digit; a point or
    an exponent marker when floats are enabled; a base marker right after
    the first character). *)
Theorem decimal_digits_are_an_int mode (s : Scanner Input) c ds rest :
  enabled mode (js_or scanInts scanFloats) = true ->
  Default.isDecimal c = true \/ (Default.isSign c = true /\ ds <> []) ->
  forallb Default.isDecimal ds = true ->
  int_stops mode ds rest = true ->
  unread (cursor s) = c :: ds ++ rest ->
  Reads defaultRules mode s int (c :: ds) rest.
Proof.
  intros Hg Hc Hd Hst Hu. apply Reads_of_classify.
  apply classify_decimal_int; auto.
Qed.

Lemma decimal_digits_are_an_int_witness :
  Reads defaultRules defaultTokens (new_Scanner (lit "-42;") defaultInit)
        int (code "-" :: lit "42") (lit ";").
Proof.
  apply (@decimal_digits_are_an_int defaultTokens
           (new_Scanner (lit "-42;") defaultInit) (code "-") (lit "42") (lit ";")).
  - vm_compute. reflexivity.
  - right. split; [vm_compute; reflexivity | discriminate].
  - vm_compute. reflexivity.
  - vm_compute. reflexivity.
  - vm_compute. reflexivity.
Defined.

(** A decimal literal with a fraction, an exponent or both is one [float]:
    with floats enabled, [scan()] on a digit or sign, decimal digits, an
    optional point with decimal digits and an optional exponent (marker,
    optional sign, decimal digits), of which at least one is there,
    returns [float] with the whole literal as contents.  Neither the
    fraction nor the exponent needs a digit. *)
Theorem float_literal_is_one_token mode (s : Scanner Input) c ds frac expo rest :
  enabled mode scanFloats = true ->
  Default.isDecimal c = true \/ Default.isSign c = true ->
  forallb Default.isDecimal ds = true ->
  fraction_text frac = true -> exponent_text expo = true ->
  frac ++ expo <> [] ->
  float_stops expo rest = true ->
  unread (cursor s) = c :: ds ++ frac ++ expo ++ rest ->
  Reads defaultRules mode s float (c :: ds ++ frac ++ expo) rest.
Proof.
  intros Hf Hc Hd Hfr Hex Hne Hst Hu. apply Reads_of_classify.
  apply classify_float; auto.
Qed.

Lemma float_literal_is_one_token_witness :
  Reads defaultRules defaultTokens (new_Scanner (lit "12.5e-3+x") defaultInit)
        float (code "1" :: lit "2" ++ lit ".5" ++ lit "e-3") (lit "+x").
Proof.
  apply (@float_literal_is_one_token defaultTokens
           (new_Scanner (lit "12.5e-3+x") defaultInit)
           (code "1") (lit "2") (lit ".5") (lit "e-3") (lit "+x")).
  - vm_compute. reflexivity.
  - left. vm_compute. reflexivity.
  - vm_compute. reflexivity.
  - vm_compute. reflexivity.
  - vm_compute. reflexivity.
  - discriminate.
  - vm_compute. reflexivity.
  - vm_compute. reflexivity.
Defined.

(** A base marker right after the first character makes an [int] in that
    base: with ints or floats enabled, [scan()] on a decimal digit or a
    sign, then [x], [o] or [b] in either case, then digits of that base
    returns [int] with all of them as contents.  The first character need
    not be [0], no digit need follow the marker, and the octal digits
    include [8]. *)
Theorem base_marker_makes_an_int mode (s : Scanner Input) c m k ds rest :
  enabled mode (js_or scanInts scanFloats) = true ->
  Default.isDecimal c = true \/ Default.isSign c = true ->
  base_of m = Some k ->
  forallb (fun d => run_check defaultRules k d 2) ds = true ->
  based_stops mode k rest = true ->
  unread (cursor s) = c :: m :: ds ++ rest ->
  Reads defaultRules mode s int (c :: m :: ds) rest.
Proof.
  intros Hg Hc Hm Hd Hst Hu. apply Reads_of_classify.
  apply (@classify_based_int mode _ _ c m k ds rest); auto.
Qed.

Lemma base_marker_makes_an_int_witness :
  Reads defaultRules defaultTokens (new_Scanner (lit "7o18 ") defaultInit)
        int (code "7" :: code "o" :: lit "18") (lit " ").
Proof.
  apply (@base_marker_makes_an_int defaultTokens
           (new_Scanner (lit "7o18 ") defaultInit)
           (code "7") (code "o") CkOctal (lit "18") (lit " ")).
  - vm_compute. reflexivity.
  - left. vm_compute. reflexivity.
  - vm_compute. reflexivity.
  - vm_compute. reflexivity.
  - vm_compute. reflexivity.
  - vm_compute. reflexivity.
Defined.

Lemma classify_number_disabled R mode n (a : Scanner (list N)) c rest :
  enabled mode (js_or scanInts scanFloats) = false ->
  dispatch R c (hd_error rest) = InNumber ->
  cursor a = c :: rest ->
  wp (classify R mode n)
     (fun r a' => r = None /\ cursor a' = rest /\ endPos a' = walk [c] (endPos a))
     (fun _ _ => False) a.
Proof.
  intros Hg Hd Hc. eapply wp_classify_dispatch; [exact Hc|].
  intros a2 [M1 M2 M3 M4] Hc2 _. rewrite Hd. cbn [branch_body]. rewrite Hg.
  cbn [negb]. apply wp_ret. auto.
Qed.

(** With ints and floats both disabled a number is not skipped as a whole:
    [scan()] drops the one character that selects the numeric branch (a
    digit, a sign, or a point before a digit) and goes on as a [scan()]
    would from the next character, which may then start a token of
    another category. *)
Theorem disabled_numbers_drop_one_character R mode (s : Scanner Input) c rest :
  enabled mode (js_or scanInts scanFloats) = false ->
  dispatch R c (hd_error rest) = InNumber ->
  unread (cursor s) = c :: rest ->
  exists s2 : Scanner Input,
    unread (cursor s2) = rest /\ endPos s2 = walk [c] (endPos s) /\
    scan R mode s = scan R mode s2.
Proof.
  intros Hg Hd Hu.
  pose proof (@classify_number_disabled R mode (length (unread (cursor s)))
                (view s) c rest Hg Hd Hu) as H.
  unfold wp in H. rewrite classify_view in H.
  exists (fst (classify R mode (length (unread (cursor s))) s)).
  rewrite (scan_unfold R mode s).
  destruct (classify R mode (length (unread (cursor s))) s) as [s2 [r|e|]];
    cbn [fst snd] in *; [|contradiction|contradiction].
  destruct H as (-> & H1 & H2).
  split; [exact H1|]. split; [exact H2|].
  apply scan_fuel_enough.
  change (unread (cursor s2)) with (cursor (view s2)). rewrite H1, Hu.
  cbn [length]. lia.
Qed.

Lemma disabled_numbers_drop_one_character_witness :
  exists s2 : Scanner Input,
    unread (cursor s2) = lit "x1F" /\
    endPos s2 = walk [code "0"] (endPos (new_Scanner (lit "0x1F") defaultInit)) /\
    scan defaultRules scanIdents (new_Scanner (lit "0x1F") defaultInit) =
    scan defaultRules scanIdents s2.
Proof.
  apply (@disabled_numbers_drop_one_character defaultRules scanIdents
           (new_Scanner (lit "0x1F") defaultInit) (code "0") (lit "x1F"));
    vm_compute; reflexivity.
Defined.

(** What the dropped digit leaves behind: with identifiers enabled and
    numbers disabled, ["0x1F"] is the identifier ["x1F"]. *)
Example hex_literal_without_numbers_is_an_identifier :
  map (fun x => (lx_token x, lx_contents x))
      (fst (tokens defaultRules scanIdents (new_Scanner (lit "0x1F") defaultInit))) =
  [(identifier, lit "x1F"); (eof, [])].
Proof. vm_compute. reflexivity. Qed.

(* ================================================================== *)
(** * What [scan()] reads of the scanner *)

Section Frame.
Variable R : Rules.
Variable mode : Z.

Local Abbreviation A := (Scanner (list N)).

(** The state after the first character [c] has been consumed and the
    start position recorded. *)
Definition marked (a : A) (c : N) (l : list N) : A :=
  {| cursor := l;
     line := fst (advance (endPos a) c);
     column := snd (advance (endPos a) c);
     contents := contents a;
     currentToken := currentToken a;
     startPos := advance (endPos a) c |}.

Lemma classify_cons_eq n (a : A) c l :
  cursor a = c :: l ->
  classify R mode n a =
  branch_body R mode n (dispatch R c (hd_error l)) c (hd_error l) (marked a c l).
Proof.
  destruct a as [cur ln col cont ct sp]. cbn [cursor]. intros ->.
  unfold classify, marked, advance, endPos.
  unfold bind at 1. unfold next. unfold bind at 1. unfold peek at 1.
  cbn [cpeek text_Cursor cursor hd_error set_cursor line column contents
       currentToken startPos fst snd].
  unfold bind at 1. unfold modify at 1.
  cbn [cskip text_Cursor cursor tl set_cursor line column contents
       currentToken startPos fst snd is_char].
  destruct (ch_eqb c LF);
    unfold bind at 1; unfold modify at 1;
    cbn [set_line set_column cursor line column contents currentToken startPos];
    unfold bind at 1; unfold ret at 1;
    unfold bind at 1; unfold peek at 1;
    cbn [cpeek text_Cursor cursor hd_error set_cursor line column contents
         currentToken startPos fst snd];
    unfold bind at 1; unfold mark_start, modify at 1;
    cbn [set_startPos cursor line column contents currentToken startPos fst snd];
    unfold dispatch, branch_body, opens_block;
    destruct (isWhitespace R c); try reflexivity;
    destruct (isIdent R c 0); try reflexivity;
    destruct (isStringDelimiter R c); try reflexivity;
    destruct (isDecimal R c || isSign R c || _); try reflexivity;
    destruct (isComment R c 0 || isBlockCommentOpen R c 0); reflexivity.
Qed.

Lemma classify_nil_eq n (a : A) k sp :
  cursor a = [] ->
  classify R mode n (set_startPos sp (set_contents k a)) = classify R mode n a.
Proof. destruct a as [cur ln col cont ct sp0]. cbn [cursor]. intros ->. reflexivity. Qed.

(** Every branch but the one that drops a character of a disabled number
    sets [contents] before it does anything else. *)
Lemma branch_reset n b c pk (a : A) k sp l :
  (b = InNumber -> enabled mode (js_or scanInts scanFloats) = true) ->
  branch_body R mode n b c pk (marked (set_startPos sp (set_contents k a)) c l) =
  branch_body R mode n b c pk (marked a c l).
Proof.
  intros Hb. destruct b; cbn [branch_body]; try reflexivity.
  rewrite (Hb eq_refl). reflexivity.
Qed.

(** [scan] reads neither [contents] nor [startPos]. *)
Lemma scan_reset L : forall (a : A) k sp,
  length (cursor a) <= L ->
  scan R mode (set_startPos sp (set_contents k a)) = scan R mode a.
Proof.
  induction L as [|L IH]; intros a k sp HL;
    rewrite (scan_unfold_text R mode (set_startPos sp (set_contents k a))),
      (scan_unfold_text R mode a);
    change (cursor (set_startPos sp (set_contents k a))) with (cursor a);
    destruct (cursor a) as [|c l] eqn:Hc.
  - rewrite (@classify_nil_eq _ a k sp Hc). reflexivity.
  - cbn in HL. lia.
  - rewrite (@classify_nil_eq _ a k sp Hc). reflexivity.
  - rewrite (@classify_cons_eq _ (set_startPos sp (set_contents k a)) c l Hc),
      (@classify_cons_eq _ a c l Hc).
    destruct (dispatch R c (hd_error l)) eqn:Hd;
      try (rewrite branch_reset by discriminate; reflexivity).
    destruct (enabled mode (js_or scanInts scanFloats)) eqn:Hg.
    + rewrite branch_reset by (intros _; exact Hg). reflexivity.
    + cbn [branch_body]. rewrite Hg. cbn [negb]. unfold rescan, ret.
      rewrite !scan_fuel_enough_text by (cbn; lia).
      change (marked (set_startPos sp (set_contents k a)) c l)
        with (set_startPos (startPos (marked a c l)) (set_contents k (marked a c l))).
      apply IH. cbn in *. lia.
Qed.

Lemma scan_frame (a b : A) :
  cursor a = cursor b -> endPos a = endPos b ->
  Same (scan R mode a) (scan R mode b).
Proof.
  intros Hc Hp.
  rewrite <- (@scan_reset (length (cursor a)) a (contents b) (startPos b) (le_n _)).
  apply scan_Same. unfold forget.
  destruct a as [cur ln col cont ct sp], b as [cur' ln' col' cont' ct' sp'].
  cbn in *. injection Hp as -> ->. subst cur'. reflexivity.
Qed.

End Frame.

(** [scan()] reads nothing of what the call before it left in [contents],
    [startPos] and [currentToken], nor of how the buffer is filled: two
    scanners with the same text still to read and the same end position
    return the same, with the same contents, positions and text left. *)
Theorem scan_reads_only_the_input_and_the_position R mode (s1 s2 : Scanner Input) :
  unread (cursor s1) = unread (cursor s2) -> endPos s1 = endPos s2 ->
  snd (scan R mode s1) = snd (scan R mode s2) /\
  contents (fst (scan R mode s1)) = contents (fst (scan R mode s2)) /\
  startPos (fst (scan R mode s1)) = startPos (fst (scan R mode s2)) /\
  endPos (fst (scan R mode s1)) = endPos (fst (scan R mode s2)) /\
  unread (cursor (fst (scan R mode s1))) = unread (cursor (fst (scan R mode s2))) /\
  (forall t, snd (scan R mode s1) = Ret t ->
             currentToken (fst (scan R mode s1)) = currentToken (fst (scan R mode s2))).
Proof.
  intros Hu Hp.
  pose proof (@scan_frame R mode (view s1) (view s2) Hu Hp) as (H1 & H2 & H3).
  rewrite !scan_view in H1, H2, H3. cbn [fst snd] in *.
  split; [exact H1|].
  split; [exact (f_equal (@contents _) H2)|].
  split; [exact (f_equal (@startPos _) H2)|].
  split; [exact (f_equal (fun x => endPos x) H2)|].
  split; [exact (f_equal (@cursor _) H2)|].
  intros t Ht. exact (f_equal (@currentToken _) (H3 t Ht)).
Qed.

Lemma scan_reads_only_the_input_and_the_position_witness :
  let s1 := fst (scan defaultRules defaultTokens
                   (new_Scanner (lit "a = 1") defaultInit)) in
  let s2 := fst (scan defaultRules defaultTokens
                   (new_Scanner (lit "+ = 1")
                      {| init_minRead := None; init_chunkBuffer := Some 3;
                         init_rules := defaultRules; init_mode := None |})) in
  contents s1 <> contents s2 /\ currentToken s1 <> currentToken s2 /\
  snd (scan defaultRules defaultTokens s1) = snd (scan defaultRules defaultTokens s2) /\
  contents (fst (scan defaultRules defaultTokens s1)) =
    contents (fst (scan defaultRules defaultTokens s2)).
Proof.
  split; [vm_compute; discriminate|]. split; [vm_compute; discriminate|].
  pose proof (@scan_reads_only_the_input_and_the_position defaultRules defaultTokens
                (fst (scan defaultRules defaultTokens
                        (new_Scanner (lit "a = 1") defaultInit)))
                (fst (scan defaultRules defaultTokens
                        (new_Scanner (lit "+ = 1")
                           {| init_minRead := None; init_chunkBuffer := Some 3;
                              init_rules := defaultRules; init_mode := None |}))))
    as H.
  split; apply H; vm_compute; reflexivity.
Defined.

(* ================================================================== *)
(** * The scanner after a lexical error *)

(** The content of a string literal that runs into a raw newline or the end
    of the text: no raw newline and no delimiter other than right after a
    backslash. *)
Fixpoint literal_open (delim : N) (body : list N) : bool :=
  match body with
  | [] => true
  | c :: rest =>
      if ch_eqb c LF then false
      else if N.eqb c delim then false
      else if ch_eqb c BACKSLASH then
        match rest with
        | c' :: rest' =>
            if N.eqb c' delim then literal_open delim rest'
            else literal_open delim rest
        | [] => true
        end
      else literal_open delim rest
  end.

Section ErrorStates.
Variable R : Rules.
Variable mode : Z.

Local Abbreviation A := (Scanner (list N)).

Lemma string_loop_open d rest n : forall body (a : A),
  ch_eqb d LF = false ->
  literal_open d body = true ->
  stops (fun p => negb (ch_eqb p LF)) rest = true ->
  cursor a = body ++ rest -> length (cursor a) < n ->
  wp (string_loop n d) (fun _ _ => False)
     (fun e a' => e = literal_error /\ Ate a body a' /\ cursor a' = rest) a.
Proof.
  assert (Hlf : forall p rest', stops (fun p => negb (ch_eqb p LF)) (p :: rest') = true ->
                                ch_eqb p LF = true).
  { intros p rest' H. cbn in H. apply negb_true_iff, negb_false_iff in H. exact H. }
  induction n as [|n IH]; intros body a Hd Hb Hr Hc Hn; [lia|].
  cbn [string_loop]. apply wp_bind, wp_peek. rewrite Hc.
  destruct body as [|c body]; cbn [app hd_error].
  - destruct rest as [|p rest']; cbn [hd_error].
    + apply wp_throw. auto using Ate_nil.
    + rewrite (Hlf p rest' Hr). apply wp_throw. auto using Ate_nil.
  - cbn [literal_open] in Hb.
    destruct (ch_eqb c LF); [discriminate|].
    destruct (N.eqb c d) eqn:Ecd; [discriminate|].
    apply wp_bind. eapply wp_append_next_cons; [exact Hc|]. intros a1 H1.
    pose proof (Ate_cons_cursor (l := body ++ rest) H1 Hc) as Hc1.
    assert (Hn1 : length (cursor a1) < n).
    { rewrite Hc1. rewrite Hc in Hn. cbn [app length] in Hn. lia. }
    assert (Hgo : forall (a2 : A) pre body',
              Ate a1 pre a2 -> pre ++ body' = body -> cursor a2 = body' ++ rest ->
              literal_open d body' = true ->
              wp (string_loop n d) (fun _ _ => False)
                 (fun e a' => e = literal_error /\ Ate a (c :: body) a' /\
                              cursor a' = rest) a2).
    { intros a2 pre body' H2 E Hc2 Hb2.
      eapply wp_conseq; [eapply (IH body' a2); auto | auto |].
      - pose proof (Ate_length H2) as L. lia.
      - intros e a' (He & H3 & Hr3). split; [exact He|]. split; [|exact Hr3].
        rewrite <- E. apply (Ate_trans H1 (Ate_trans H2 H3)). }
    destruct (ch_eqb c BACKSLASH).
    + apply wp_bind. apply wp_bind, wp_peek. rewrite Hc1.
      destruct body as [|c' body'].
      * cbn [app]. destruct rest as [|p rest']; cbn [hd_error].
        -- apply wp_ret. apply (Hgo a1 [] []); auto using Ate_nil.
        -- pose proof (Hlf p rest' Hr) as Hp. apply N.eqb_eq in Hp. subst p.
           change (N.eqb (code LF) d) with (N.eqb (code LF) d).
           assert (Hne : N.eqb (code LF) d = false).
           { rewrite N.eqb_sym. exact Hd. }
           rewrite Hne. apply wp_ret. apply (Hgo a1 [] []); auto using Ate_nil.
      * cbn [app hd_error]. destruct (N.eqb c' d) eqn:Ec'.
        -- eapply wp_append_next_cons; [exact Hc1|]. intros a2 H2.
           pose proof (Ate_cons_cursor (l := body' ++ rest) H2 Hc1) as Hc2.
           apply (Hgo a2 [c'] body'); auto.
        -- apply wp_ret. apply (Hgo a1 [] (c' :: body')); auto using Ate_nil.
    + apply wp_bind, wp_ret. apply (Hgo a1 [] body); auto using Ate_nil.
Qed.

(** A block comment that runs into the end of the text: [next()] is called
    once more there, which appends [null] to the contents and adds a
    column, and then the error is thrown. *)
Lemma comment_loop_open n : forall body i (a : A),
  block_unterminated R body = true ->
  cursor a = body -> length (cursor a) < n ->
  wp (comment_loop R n true i) (fun _ _ => False)
     (fun e a' => e = comment_error /\
                  contents a' = contents a ++ body ++ lit "null" /\
                  cursor a' = [] /\
                  endPos a' = (fst (walk body (endPos a)),
                               (snd (walk body (endPos a)) + 1)%Z) /\
                  startPos a' = startPos a) a.
Proof.
  induction n as [|n IH]; intros body i a Hb Hc Hn; [lia|].
  cbn [comment_loop negb andb]. apply wp_bind, wp_peek. rewrite Hc.
  destruct body as [|c l]; cbn [hd_error].
  - destruct a as [cur ln col cont ct sp]. cbn in Hc. subst cur.
    unfold wp. cbn. repeat split.
  - apply wp_bind. eapply wp_append_next_cons; [exact Hc|]. intros a1 H1.
    pose proof (Ate_cons_cursor H1 Hc) as Hc1.
    assert (Hn1 : length (cursor a1) < n).
    { rewrite Hc1. rewrite Hc in Hn. cbn [length] in Hn. lia. }
    assert (Hgo : block_unterminated R l = true ->
              wp (comment_loop R n true (i + 1)) (fun _ _ => False)
                 (fun e a' => e = comment_error /\
                    contents a' = contents a ++ (c :: l) ++ lit "null" /\
                    cursor a' = [] /\
                    endPos a' = (fst (walk (c :: l) (endPos a)),
                                 (snd (walk (c :: l) (endPos a)) + 1)%Z) /\
                    startPos a' = startPos a) a1).
    { intros Hl. eapply wp_conseq; [eapply (IH l (i + 1) a1); auto | auto |].
      intros e a' (He & K1 & K2 & K3 & K4). destruct H1 as [_ P1 P2 _ P3].
      split; [exact He|]. split; [rewrite K1, P2, <- app_assoc; reflexivity|].
      split; [exact K2|]. split; [rewrite K3, P1; reflexivity|].
      rewrite K4, P3. reflexivity. }
    apply wp_bind, wp_peek. rewrite Hc1.
    destruct l as [|p l']; cbn [hd_error].
    + apply Hgo. reflexivity.
    + cbn [block_unterminated] in Hb.
      destruct (isBlockCommentClose R c 0 && isBlockCommentClose R p 1);
        [discriminate|].
      apply Hgo. exact Hb.
Qed.

Lemma classify_literal_error n (a : A) d body rest :
  isWhitespace R d = false -> isIdent R d 0 = false ->
  isStringDelimiter R d = true ->
  ch_eqb d LF = false -> literal_open d body = true ->
  stops (fun p => negb (ch_eqb p LF)) rest = true ->
  cursor a = d :: body ++ rest -> length (cursor a) <= n ->
  wp (classify R mode n) (fun _ _ => False)
     (fun e a' => e = literal_error /\ contents a' = d :: body /\
                  cursor a' = rest /\
                  endPos a' = walk (d :: body) (endPos a) /\
                  startPos a' = walk [d] (endPos a)) a.
Proof.
  intros Hc0 Hc1 Hc2 Hd Hb Hr Hc Hn.
  eapply wp_classify_dispatch; [exact Hc|]. intros a2 HM Hca _.
  replace (dispatch R d (hd_error (body ++ rest))) with InString
    by (unfold dispatch; rewrite Hc0, Hc1, Hc2; reflexivity).
  cbn [branch_body]. apply wp_bind, wp_modify. apply wp_bind.
  eapply wp_conseq;
    [eapply (@string_loop_open d rest n body (set_contents [d] a2)); auto
    | intros ? ? [] |].
  - cbn [set_contents cursor]. rewrite Hca. rewrite Hc in Hn. cbn [length] in Hn. lia.
  - intros e a' (He & [K1 K2 K3 K4 K5] & Kr). destruct HM as [M1 M2 M3 M4].
    split; [exact He|]. split; [rewrite K3; reflexivity|]. split; [exact Kr|].
    split; [|rewrite K5; exact M4].
    rewrite K2. change (endPos (set_contents [d] a2)) with (endPos a2).
    rewrite M2. reflexivity.
Qed.

Lemma classify_comment_error n (a : A) c body :
  dispatch R c (hd_error body) = InComment ->
  opens_block R c (hd_error body) = true ->
  block_unterminated R body = true ->
  cursor a = c :: body -> length (cursor a) <= n ->
  wp (classify R mode n) (fun _ _ => False)
     (fun e a' => e = comment_error /\ contents a' = c :: body ++ lit "null" /\
                  cursor a' = [] /\
                  endPos a' = (fst (walk (c :: body) (endPos a)),
                               (snd (walk (c :: body) (endPos a)) + 1)%Z) /\
                  startPos a' = walk [c] (endPos a)) a.
Proof.
  intros Hd Ho Hb Hc Hn.
  eapply wp_classify_dispatch; [exact Hc|]. intros a2 HM Hca _.
  rewrite Hd. cbn [branch_body]. rewrite Ho. apply wp_bind, wp_modify. apply wp_bind.
  eapply wp_conseq;
    [eapply (@comment_loop_open n body 1 (set_contents [c] a2)); auto
    | intros ? ? [] |].
  - cbn [set_contents cursor]. rewrite Hca. rewrite Hc in Hn. cbn [length] in Hn. lia.
  - intros e a' (He & K1 & K2 & K3 & K4). destruct HM as [M1 M2 M3 M4].
    split; [exact He|]. split; [rewrite K1; reflexivity|]. split; [exact K2|].
    split; [|rewrite K4; exact M4].
    rewrite K3. cbn [walk fold_left].
    change (endPos (set_contents [c] a2)) with (endPos a2). rewrite M2. reflexivity.
Qed.

End ErrorStates.

Lemma scan_throws_of_classify R mode (s : Scanner Input)
      (E : Exn -> Scanner (list N) -> Prop) :
  wp (classify R mode (length (cursor (view s)))) (fun _ _ => False) E (view s) ->
  exists e, snd (scan R mode s) = Throw e /\ E e (view (fst (scan R mode s))).
Proof.
  intros H.
  assert (K : wp (scan R mode) (fun _ _ => False) E (view s)).
  { apply wp_scan_of_classify. eapply wp_conseq; [exact H | | auto].
    intros r a' []. }
  apply wp_scan_Input in K. unfold wp in K.
  destruct (scan R mode s) as [s' [t|e|]]; cbn [fst snd];
    [contradiction | | contradiction].
  exists e. auto.
Qed.

(** A string literal that runs into a raw newline or the end of the text
    raises the literal error whatever the mask, also with strings disabled.
    The scanner is left with the literal so far as contents, with the
    newline still to read, and with its end position on the last character
    of the literal, so that a [scan()] after the error goes on from the
    newline. *)
Theorem unterminated_literal_leaves_the_scanner_at_the_newline
    R mode (s : Scanner Input) d body rest :
  isWhitespace R d = false -> isIdent R d 0 = false ->
  isStringDelimiter R d = true ->
  ch_eqb d LF = false -> literal_open d body = true ->
  stops (fun p => negb (ch_eqb p LF)) rest = true ->
  unread (cursor s) = d :: body ++ rest ->
  snd (scan R mode s) = Throw literal_error /\
  contents (fst (scan R mode s)) = d :: body /\
  unread (cursor (fst (scan R mode s))) = rest /\
  endPos (fst (scan R mode s)) = walk (d :: body) (endPos s) /\
  startPos (fst (scan R mode s)) = walk [d] (endPos s).
Proof.
  intros Hc0 Hc1 Hc2 Hd Hb Hr Hu.
  destruct (@scan_throws_of_classify R mode s _
              (@classify_literal_error R mode _ (view s) d body rest
                 Hc0 Hc1 Hc2 Hd Hb Hr Hu (le_n _)))
    as (e & He & -> & K).
  split; [exact He | exact K].
Qed.

Lemma unterminated_literal_leaves_the_scanner_at_the_newline_witness :
  let s := new_Scanner (lit "'abc" ++ [code LF] ++ lit "d") defaultInit in
  snd (scan defaultRules scanIdents s) = Throw literal_error /\
  contents (fst (scan defaultRules scanIdents s)) = code "'" :: lit "abc" /\
  unread (cursor (fst (scan defaultRules scanIdents s))) = [code LF] ++ lit "d" /\
  endPos (fst (scan defaultRules scanIdents s)) =
    walk (code "'" :: lit "abc") (endPos s) /\
  startPos (fst (scan defaultRules scanIdents s)) = walk [code "'"] (endPos s).
Proof.
  apply (@unterminated_literal_leaves_the_scanner_at_the_newline
           defaultRules scanIdents
           (new_Scanner (lit "'abc" ++ [code LF] ++ lit "d") defaultInit)
           (code "'") (lit "abc") ([code LF] ++ lit "d"));
    vm_compute; reflexivity.
Defined.

(** A block comment that runs into the end of the text raises the comment
    error whatever the mask.  Before it does, [next()] is called once past
    the end: the contents are the comment so far followed by the four
    characters [null], and the end position is one column past the last
    character. *)
Theorem unterminated_block_comment_appends_null
    R mode (s : Scanner Input) c body :
  dispatch R c (hd_error body) = InComment ->
  opens_block R c (hd_error body) = true ->
  block_unterminated R body = true ->
  unread (cursor s) = c :: body ->
  snd (scan R mode s) = Throw comment_error /\
  contents (fst (scan R mode s)) = c :: body ++ lit "null" /\
  unread (cursor (fst (scan R mode s))) = [] /\
  endPos (fst (scan R mode s)) =
    (fst (walk (c :: body) (endPos s)), (snd (walk (c :: body) (endPos s)) + 1)%Z) /\
  startPos (fst (scan R mode s)) = walk [c] (endPos s).
Proof.
  intros Hd Ho Hb Hu.
  destruct (@scan_throws_of_classify R mode s _
              (@classify_comment_error R mode _ (view s) c body Hd Ho Hb Hu (le_n _)))
    as (e & He & -> & K).
  split; [exact He | exact K].
Qed.

Lemma unterminated_block_comment_appends_null_witness :
  let s := new_Scanner (lit "/* a") defaultInit in
  snd (scan defaultRules defaultTokens s) = Throw comment_error /\
  contents (fst (scan defaultRules defaultTokens s)) =
    code "/" :: lit "* a" ++ lit "null" /\
  unread (cursor (fst (scan defaultRules defaultTokens s))) = [] /\
  endPos (fst (scan defaultRules defaultTokens s)) =
    (fst (walk (code "/" :: lit "* a") (endPos s)),
     (snd (walk (code "/" :: lit "* a") (endPos s)) + 1)%Z) /\
  startPos (fst (scan defaultRules defaultTokens s)) = walk [code "/"] (endPos s).
Proof.
  apply (@unterminated_block_comment_appends_null defaultRules defaultTokens
           (new_Scanner (lit "/* a") defaultInit) (code "/") (lit "* a"));
    vm_compute; reflexivity.
Defined.
